(** * Lookup tables of PokerRL-Omaha: [PokerRL/game/_/look_up_table.py]

    A shallow embedding of the table getters ([_LutGetterBase],
    [_LutGetterLeduc], [_LutGetterHoldem], [_LutGetterPLO]) and of the table
    holders ([_LutHolderBase] and its three subclasses), followed by the
    properties of the tables.

    Conventions.
    - Python and numpy integers are [Z]; a value stored in an [int8] or
      [int32] array goes through [int8] / [int32], which write the
      wrap-around out.
    - One- and two-dimensional numpy arrays are lists (of rows); the dense
      higher-dimensional table of the four-card game is an [ndarray]: a shape,
      a fill value and the finite map of the cells written so far.
    - Indexing follows numpy: an index [i] on an axis of length [n] is legal
      for [-n <= i < n], negative indices count from the end, anything else
      is an [IndexError], here [None].
    - Dictionaries keyed by the betting round are [gmap Round _]. *)

From stdpp Require Import base numbers list list_numbers option gmap sorting.

Local Open Scope Z_scope.

(** ** numpy primitives *)

Definition int8 (z : Z) : Z := (z + 128) `mod` 256 - 128.
Definition int32 (z : Z) : Z := (z + 2147483648) `mod` 4294967296 - 2147483648.

(** [range(a, b)]. *)
Definition range (a b : Z) : list Z := seqZ a (b - a).

(** [np.arange(n)]. *)
Definition np_arange (n : Z) : list Z := range 0 n.

(** [np.expand_dims(a, axis=1)] of a one-dimensional array. *)
Definition np_expand_dims {A} (a : list A) : list (list A) := (λ x, [x]) <$> a.

(** Index normalisation on an axis of length [n]. *)
Definition np_norm (n : nat) (i : Z) : option nat :=
  if bool_decide (0 ≤ i < Z.of_nat n) then Some (Z.to_nat i)
  else if bool_decide (- Z.of_nat n ≤ i < 0) then Some (Z.to_nat (Z.of_nat n + i))
  else None.

(** [a[i]]. *)
Definition np_get {A} (a : list A) (i : Z) : option A :=
  j ← np_norm (length a) i; a !! j.

(** [a[i] = v]. *)
Definition np_set {A} (a : list A) (i : Z) (v : A) : option (list A) :=
  j ← np_norm (length a) i; Some (<[j:=v]> a).

(** [a[i, j]] on a two-dimensional array. *)
Definition np_get2 {A} (a : list (list A)) (i j : Z) : option A :=
  row ← np_get a i; np_get row j.

(** [a[i, j] = v] on a two-dimensional array. *)
Definition np_set2 {A} (a : list (list A)) (i j : Z) (v : A) : option (list (list A)) :=
  row ← np_get a i; row' ← np_set row j v; np_set a i row'.

(** [np.full(shape=(n,), fill_value=v)] and [np.full(shape=(n, m), ...)];
    a negative dimension is a [ValueError]. *)
Definition np_full1 {A} (n : Z) (v : A) : option (list A) :=
  if bool_decide (0 ≤ n) then Some (replicate (Z.to_nat n) v) else None.

Definition np_full2 {A} (n m : Z) (v : A) : option (list (list A)) :=
  row ← np_full1 m v; np_full1 n row.

(** A [for x in xs: body] loop over a state that may raise. *)
Fixpoint for_each {X S} (xs : list X) (body : X → S → option S) (s : S) : option S :=
  match xs with
  | [] => Some s
  | x :: xs' => body x s ≫= for_each xs' body
  end.

(** Dense arrays of any rank, kept sparsely: the cells never written hold
    [nd_fill]. *)
Record ndarray := mk_ndarray {
  nd_shape : list Z;
  nd_fill : Z;
  nd_data : gmap (list nat) Z;
}.

Definition nd_full (shape : list Z) (v : Z) : option ndarray :=
  if bool_decide (Forall (λ n, 0 ≤ n) shape) then Some (mk_ndarray shape v ∅) else None.

(** A full index: one normalised position per axis. *)
Fixpoint nd_key (shape : list Z) (idx : list Z) : option (list nat) :=
  match shape, idx with
  | [], [] => Some []
  | n :: shape', i :: idx' =>
      j ← np_norm (Z.to_nat n) i; k ← nd_key shape' idx'; Some (j :: k)
  | _, _ => None
  end.

Definition nd_get (a : ndarray) (idx : list Z) : option Z :=
  k ← nd_key (nd_shape a) idx; Some (default (nd_fill a) (nd_data a !! k)).

Definition nd_set (a : ndarray) (idx : list Z) (v : Z) : option ndarray :=
  k ← nd_key (nd_shape a) idx;
  Some (mk_ndarray (nd_shape a) (nd_fill a) (<[k:=v]> (nd_data a))).

(** ** Library functions *)

(** Pascal's triangle. *)
Fixpoint binom (n k : nat) : Z :=
  match n, k with
  | _, O => 1
  | O, S _ => 0
  | S n', S k' => binom n' k' + binom n' (S k')
  end.

(** [scipy.special.comb(N, k, exact=True, repetition=False)]: the exact
    number of [k]-subsets of [N] things, and [0] when [k > N], [N < 0] or
    [k < 0]. *)
Definition comb (N k : Z) : Z :=
  if bool_decide (k < 0 ∨ N < 0 ∨ N < k) then 0
  else binom (Z.to_nat N) (Z.to_nat k).

(** [itertools.combinations(pool, r)]: the [r]-length subsequences of
    [pool], emitted in lexicographic order of their positions. *)
Fixpoint combinations {A} (r : nat) (pool : list A) {struct pool} : list (list A) :=
  match r, pool with
  | O, _ => [[]]
  | S _, [] => []
  | S r', x :: rest => ((x ::.) <$> combinations r' rest) ++ combinations r rest
  end.

(** [list.sort()] on integers. *)
Definition py_sort (l : list Z) : list Z := merge_sort Z.le l.

(** ** Game constants *)

(** [Poker.PREFLOP], [Poker.FLOP], [Poker.TURN], [Poker.RIVER]. *)
Inductive Round := PREFLOP | FLOP | TURN | RIVER.

Global Instance Round_eq_dec : EqDecision Round.
Proof. solve_decision. Defined.

Definition Round_to_nat (r : Round) : nat :=
  match r with PREFLOP => 0 | FLOP => 1 | TURN => 2 | RIVER => 3 end%nat.

Definition Round_of_nat (n : nat) : option Round :=
  match n with
  | 0 => Some PREFLOP | 1 => Some FLOP | 2 => Some TURN | 3 => Some RIVER
  | _ => None
  end%nat.

Global Instance Round_countable : Countable Round.
Proof. apply (inj_countable Round_to_nat Round_of_nat). by intros []. Defined.

(** The reserved "card not dealt" values of the [Poker] constants module,
    which is not part of the file: they are parameters of the holder
    functions. *)
Record Tokens := mk_tokens {
  CARD_NOT_DEALT_TOKEN_1D : Z;
  CARD_NOT_DEALT_TOKEN_2D : Z * Z;
}.

(** The rules object handed to the getters ([env_cls.RULES]). Only its
    constants are read. *)
Record Rules := mk_rules {
  N_CARDS_IN_DECK : Z;
  N_RANKS : Z;
  N_SUITS : Z;
  N_HOLE_CARDS : Z;
  SUITS_MATTER : bool;
  N_FLOP_CARDS : Z;
  N_TURN_CARDS : Z;
  N_RIVER_CARDS : Z;
  ALL_ROUNDS_LIST : list Round;
  ROUND_BEFORE : gmap Round Round;
}.

(** Modelled from the spec: [PokerRange.get_range_size], which lives in a
    module outside the file. The spec gives the size of a range as
    C(n_cards_in_deck, n_hole_cards), an exact "n choose k". *)
Definition get_range_size (n_hole_cards n_cards_in_deck : Z) : Z :=
  comb n_cards_in_deck n_hole_cards.

(** Modelled from the spec: the constant [rules.RANGE_SIZE], declared with
    the rules outside the file; RANGE_SIZE = C(N_CARDS_IN_DECK, N_HOLE_CARDS). *)
Definition RANGE_SIZE (rules : Rules) : Z :=
  get_range_size (N_HOLE_CARDS rules) (N_CARDS_IN_DECK rules).

(** ** [_LutGetterLeduc]: cards *)

Module Leduc.

(** [_get_1d_card]: [card_2d] is an array of two int8. *)
Definition _get_1d_card (rules : Rules) (card_2d : Z * Z) : Z :=
  int8 (card_2d.1 * N_SUITS rules + card_2d.2).

(** [_get_2d_card]: floor division and modulus, stored in an int8 pair. *)
Definition _get_2d_card (rules : Rules) (card_1d : Z) : Z * Z :=
  (int8 (card_1d `div` N_SUITS rules), int8 (card_1d `mod` N_SUITS rules)).

Definition get_1d_card_2_2d_card_LUT (rules : Rules) : option (list (Z * Z)) :=
  lut ← np_full1 (N_CARDS_IN_DECK rules) (int8 (-2), int8 (-2));
  for_each (range 0 (N_CARDS_IN_DECK rules))
    (λ c lut, np_set lut c (_get_2d_card rules c)) lut.

Definition get_2d_card_2_1d_card_LUT (rules : Rules) : option (list (list Z)) :=
  lut ← np_full2 (N_RANKS rules) (N_SUITS rules) (int8 (-2));
  for_each (range 0 (N_RANKS rules))
    (λ r, for_each (range 0 (N_SUITS rules))
            (λ s lut, np_set2 lut r s (int8 (_get_1d_card rules (int8 r, int8 s)))))
    lut.

(** [np.expand_dims(np.arange(N_CARDS_IN_DECK), axis=1)]. *)
Definition get_idx_2_hole_card_LUT (rules : Rules) : list (list Z) :=
  np_expand_dims (np_arange (N_CARDS_IN_DECK rules)).

Definition get_hole_card_2_idx_LUT (rules : Rules) : list (list Z) :=
  np_expand_dims (np_arange (N_CARDS_IN_DECK rules)).

(** [np.arange(RANGE_SIZE).reshape(-1, 1)]. *)
Definition get_card_in_what_range_idxs_LUT (rules : Rules) : list (list Z) :=
  (λ x, [x]) <$> np_arange (RANGE_SIZE rules).

End Leduc.

(** ** [_LutGetterBase] *)

(** The subclass supplies [get_idx_2_hole_card_LUT] and
    [get_1d_card_2_2d_card_LUT]; their results are the two table arguments.
    The float32 cells only ever hold 0 or 1. *)
Definition get_range_idx_to_private_obs_LUT (rules : Rules)
    (range_idx_to_hc_lut : list (list Z)) (hc_1d_to_2d_lut : list (Z * Z))
    (preflop_suit_bucketing : bool) : option (list (list Z)) :=
  let D := N_SUITS rules + N_RANKS rules in
  lut ← np_full2 (RANGE_SIZE rules) (D * N_HOLE_CARDS rules) 0;
  for_each (range 0 (RANGE_SIZE rules))
    (λ range_idx lut,
       priv_o ← np_full1 (N_HOLE_CARDS rules * D) 0;
       priv_o ← for_each (range 0 (N_HOLE_CARDS rules))
         (λ c_id priv_o,
            c ← np_get2 range_idx_to_hc_lut range_idx c_id;
            card ← np_get hc_1d_to_2d_lut c;
            priv_o ← np_set priv_o (D * c_id + card.1) 1;
            if SUITS_MATTER rules then
              if negb preflop_suit_bucketing
              then np_set priv_o (D * c_id + N_RANKS rules + card.2) 1
              else Some priv_o
            else Some priv_o)
         priv_o;
       np_set lut range_idx priv_o)
    lut.

Definition get_n_cards_out_at_LUT (rules : Rules) : gmap Round Z :=
  list_to_map
    [ (PREFLOP, 0);
      (FLOP, N_FLOP_CARDS rules);
      (TURN, N_FLOP_CARDS rules + N_TURN_CARDS rules);
      (RIVER, N_FLOP_CARDS rules + N_TURN_CARDS rules + N_RIVER_CARDS rules) ].

Definition get_n_cards_dealt_in_transition_to_LUT (rules : Rules) : gmap Round Z :=
  list_to_map
    [ (PREFLOP, 0);
      (FLOP, N_FLOP_CARDS rules);
      (TURN, N_TURN_CARDS rules);
      (RIVER, N_RIVER_CARDS rules) ].

(** The dict comprehension over [ALL_ROUNDS_LIST]; a missing key is a
    [KeyError]. *)
Definition get_n_boards_LUT (rules : Rules) : option (gmap Round Z) :=
  let _c := get_n_cards_dealt_in_transition_to_LUT rules in
  for_each (ALL_ROUNDS_LIST rules)
    (λ r lut, k ← _c !! r; Some (<[r := comb (N_RANKS rules * N_SUITS rules) k]> lut))
    ∅.

Definition get_n_board_branches_LUT (rules : Rules) : option (gmap Round Z) :=
  let _N_CARDS_DEALT_IN_TRANSITION_TO_LUT := get_n_cards_dealt_in_transition_to_LUT rules in
  let _N_CARDS_OUT_AT := get_n_cards_out_at_LUT rules in
  for_each (filter (λ _r, _r ≠ PREFLOP) (ALL_ROUNDS_LIST rules))
    (λ r lut,
       before ← ROUND_BEFORE rules !! r;
       out ← _N_CARDS_OUT_AT !! before;
       let nc := N_CARDS_IN_DECK rules - out - N_HOLE_CARDS rules in
       k ← _N_CARDS_DEALT_IN_TRANSITION_TO_LUT !! r;
       Some (<[r := get_range_size k nc]> lut))
    {[ PREFLOP := 0 ]}.

(** ** The native backend [CppLibHoldemLuts] *)

(** The compiled library behind [cpp_wrappers.CppLUT] is not part of the
    file; the getters only call these four entry points. *)
Record CppLibHoldemLuts := mk_cpp {
  cpp_get_2d_card : Z → Z * Z;
  cpp_get_1d_card : Z * Z → Z;
  cpp_get_idx_2_hole_card_lut : list (list Z);
  cpp_get_hole_card_2_idx_lut : ndarray;
}.

(** ** [_LutGetterHoldem] *)

Module Holdem.

Definition get_1d_card_2_2d_card_LUT (rules : Rules) (cpp_backend : CppLibHoldemLuts)
    : option (list (Z * Z)) :=
  lut ← np_full1 (N_CARDS_IN_DECK rules) (int8 (-2), int8 (-2));
  for_each (range 0 (N_CARDS_IN_DECK rules))
    (λ c lut, np_set lut c (let card := cpp_get_2d_card cpp_backend c in
                            (int8 card.1, int8 card.2)))
    lut.

Definition get_2d_card_2_1d_card_LUT (rules : Rules) (cpp_backend : CppLibHoldemLuts)
    : option (list (list Z)) :=
  lut ← np_full2 (N_RANKS rules) (N_SUITS rules) (int8 (-2));
  for_each (range 0 (N_RANKS rules))
    (λ r, for_each (range 0 (N_SUITS rules))
            (λ s lut, np_set2 lut r s (int8 (cpp_get_1d_card cpp_backend (int8 r, int8 s)))))
    lut.

Definition get_idx_2_hole_card_LUT (cpp_backend : CppLibHoldemLuts) : list (list Z) :=
  cpp_get_idx_2_hole_card_lut cpp_backend.

Definition get_hole_card_2_idx_LUT (cpp_backend : CppLibHoldemLuts) : ndarray :=
  cpp_get_hole_card_2_idx_lut cpp_backend.

(** One pass over the whole range per card; [n] is the next free column of
    the card's row. The final [assert] fails when a [-2] is left. *)
Definition get_card_in_what_range_idxs_LUT (rules : Rules) (cpp_backend : CppLibHoldemLuts)
    : option (list (list Z)) :=
  lut ← np_full2 (N_CARDS_IN_DECK rules) (N_CARDS_IN_DECK rules - 1) (int32 (-2));
  let _idx2hc_lut := get_idx_2_hole_card_LUT cpp_backend in
  lut ← for_each (range 0 (N_CARDS_IN_DECK rules))
    (λ c lut,
       st ← for_each (range 0 (RANGE_SIZE rules))
         (λ range_idx (st : list (list Z) * Z),
            hc ← np_get _idx2hc_lut range_idx;
            if bool_decide (c ∈ hc)
            then lut' ← np_set2 st.1 c st.2 (int32 range_idx); Some (lut', st.2 + 1)
            else Some st)
         (lut, 0);
       Some st.1)
    lut;
  if bool_decide (Exists (λ row, -2 ∈ row) lut) then None else Some lut.

(** Modelled from the spec: the two hole-card tables of the native backend
    ([get_idx_2_hole_card_lut], [get_hole_card_2_idx_lut]), absent from the
    file. For k = 2 the spec enumerates all ordered pairs (c1 < c2) with c1
    ranging over [0, N) and c2 over (c1, N), assigning indices in that
    nested order; the inverse table is filled by the same enumeration. *)
Definition spec_idx_2_hole_card_lut (N : Z) : list (list Z) :=
  c1 ← range 0 N; c2 ← range (c1 + 1) N; [[c1; c2]].

Definition spec_hole_card_2_idx_lut (N : Z) : option ndarray :=
  lut ← nd_full [N; N] (-2);
  st ← for_each (range 0 N)
    (λ c1, for_each (range (c1 + 1) N)
       (λ c2 (st : ndarray * Z), lut' ← nd_set st.1 [c1; c2] st.2; Some (lut', st.2 + 1)))
    (lut, 0);
  Some st.1.

End Holdem.

(** ** [_LutGetterPLO] *)

(** What [np.empty] hands out: storage that is not initialised. The content
    found there is a parameter: [junk_lut i j] for cell [(i, j)] of the
    result table, [junk_priv_o i j] for slot [j] of the buffer allocated for
    range index [i]. *)
Record Uninit := mk_uninit {
  junk_lut : nat → nat → Z;
  junk_priv_o : nat → nat → Z;
}.

Definition np_empty1 (junk : nat → Z) (n : Z) : option (list Z) :=
  if bool_decide (0 ≤ n) then Some (junk <$> seq 0 (Z.to_nat n)) else None.

Definition np_empty2 (junk : nat → nat → Z) (n m : Z) : option (list (list Z)) :=
  if bool_decide (0 ≤ n ∧ 0 ≤ m)
  then Some ((λ i, junk i <$> seq 0 (Z.to_nat m)) <$> seq 0 (Z.to_nat n))
  else None.

Module PLO.

(** [itertools.combinations(np.arange(0, 52), 4)] laid out as rows. *)
Definition get_idx_2_hole_card_LUT : list (list Z) :=
  let indexes := range 0 52 in
  combinations 4 indexes.

Definition get_hole_card_2_idx_LUT (rules : Rules) : option ndarray :=
  let cmax := N_CARDS_IN_DECK rules in
  lut ← nd_full [cmax; cmax; cmax; cmax] (int32 (-2));
  st ← for_each (range 0 cmax)
    (λ i1, for_each (range (i1 + 1) cmax)
       (λ i2, for_each (range (i2 + 1) cmax)
          (λ i3, for_each (range (i3 + 1) cmax)
             (λ i4 (st : ndarray * Z),
                lut' ← nd_set st.1 [i1; i2; i3; i4] (int32 st.2);
                Some (lut', st.2 + 1)))))
    (lut, 0);
  Some st.1.

Definition get_1d_card_2_2d_card_LUT (rules : Rules) (cpp_backend : CppLibHoldemLuts)
    : option (list (Z * Z)) :=
  Holdem.get_1d_card_2_2d_card_LUT rules cpp_backend.

Definition get_2d_card_2_1d_card_LUT (rules : Rules) (cpp_backend : CppLibHoldemLuts)
    : option (list (list Z)) :=
  Holdem.get_2d_card_2_1d_card_LUT rules cpp_backend.

(** [np.where(c == lut)[0]]: the row number of every matching cell, in
    row-major order. *)
Definition np_where_rows (c : Z) (lut : list (list Z)) : list Z :=
  mjoin (imap (λ i row, (λ _, Z.of_nat i) <$> filter (λ x, x = c) row) lut).

(** [row[:] = items]: the lengths agree, or a single item is broadcast;
    otherwise a [ValueError]. *)
Definition np_broadcast_to (width : Z) (items : list Z) : option (list Z) :=
  if bool_decide (Z.of_nat (length items) = width) then Some items
  else match items with
       | [x] => Some (replicate (Z.to_nat width) x)
       | _ => None
       end.

Definition get_card_in_what_range_idxs_LUT (rules : Rules) : option (list (list Z)) :=
  lut ← np_full2 (N_CARDS_IN_DECK rules) 20825 (int32 (-2));
  let _idx2hc_lut := get_idx_2_hole_card_LUT in
  lut ← for_each (range 0 (N_CARDS_IN_DECK rules))
    (λ c lut,
       let items := np_where_rows c _idx2hc_lut in
       row ← np_broadcast_to 20825 (int32 <$> items);
       np_set lut c row)
    lut;
  if bool_decide (Exists (λ row, -2 ∈ row) lut) then None else Some lut.

(** The body of the first loop of the override (suits included): a fresh
    [np.empty] buffer and eight assignments. [element] holds the four 2D
    cards of the hand. *)
Definition private_obs_row (rules : Rules) (mem : Uninit) (range_idx : nat)
    (element : list (Z * Z)) : option (list Z) :=
  let D := N_SUITS rules + N_RANKS rules in
  priv_o ← np_empty1 (junk_priv_o mem range_idx) (N_HOLE_CARDS rules * D);
  e0 ← np_get element 0; e1 ← np_get element 1;
  e2 ← np_get element 2; e3 ← np_get element 3;
  priv_o ← np_set priv_o (D * 0 + e0.1) 1;
  priv_o ← np_set priv_o (D * 0 + N_RANKS rules + e0.2) 1;
  priv_o ← np_set priv_o (D * 1 + e1.1) 1;
  priv_o ← np_set priv_o (D * 1 + N_RANKS rules + e1.2) 1;
  priv_o ← np_set priv_o (D * 2 + e2.1) 1;
  priv_o ← np_set priv_o (D * 2 + N_RANKS rules + e2.2) 1;
  priv_o ← np_set priv_o (D * 3 + e3.1) 1;
  np_set priv_o (D * 3 + N_RANKS rules + e3.2) 1.

(** The body of the second loop (pre-flop bucketing): the four rank
    assignments only. *)
Definition private_obs_row_bucketed (rules : Rules) (mem : Uninit) (range_idx : nat)
    (element : list (Z * Z)) : option (list Z) :=
  let D := N_SUITS rules + N_RANKS rules in
  priv_o ← np_empty1 (junk_priv_o mem range_idx) (N_HOLE_CARDS rules * D);
  e0 ← np_get element 0; e1 ← np_get element 1;
  e2 ← np_get element 2; e3 ← np_get element 3;
  priv_o ← np_set priv_o (D * 0 + e0.1) 1;
  priv_o ← np_set priv_o (D * 1 + e1.1) 1;
  priv_o ← np_set priv_o (D * 2 + e2.1) 1;
  np_set priv_o (D * 3 + e3.1) 1.

(** The override of the private-observation table: the table and every
    row buffer come from [np.empty]; only the cells named in the two bodies
    are assigned. *)
Definition get_range_idx_to_private_obs_LUT (rules : Rules) (cpp_backend : CppLibHoldemLuts)
    (mem : Uninit) (preflop_suit_bucketing : bool) : option (list (list Z)) :=
  let range_idx_to_hc_lut := get_idx_2_hole_card_LUT in
  hc_1d_to_2d_lut ← get_1d_card_2_2d_card_LUT rules cpp_backend;
  let D := N_SUITS rules + N_RANKS rules in
  lut ← np_empty2 (junk_lut mem) (RANGE_SIZE rules) (D * N_HOLE_CARDS rules);
  d2_range_lut ← mapM (mapM (np_get hc_1d_to_2d_lut)) range_idx_to_hc_lut;
  if negb preflop_suit_bucketing then
    for_each (imap (λ i element, (i, element)) d2_range_lut)
      (λ '(range_idx, element) lut,
         priv_o ← private_obs_row rules mem range_idx element;
         np_set lut (Z.of_nat range_idx) priv_o)
      lut
  else
    for_each (imap (λ i element, (i, element)) d2_range_lut)
      (λ '(range_idx, element) lut,
         priv_o ← private_obs_row_bucketed rules mem range_idx element;
         np_set lut (Z.of_nat range_idx) priv_o)
      lut.

End PLO.

(** ** The getter interface *)

(** What [_LutHolderBase.__init__] asks of a getter. [HC2IDX] is the type of
    the hole-card-to-index table, which differs between the variants. *)
Record LutGetter (HC2IDX : Type) := mk_getter {
  getter_rules : Rules;
  getter_1d_card_2_2d_card_LUT : option (list (Z * Z));
  getter_2d_card_2_1d_card_LUT : option (list (list Z));
  getter_range_idx_to_private_obs_LUT : bool → option (list (list Z));
  getter_idx_2_hole_card_LUT : option (list (list Z));
  getter_hole_card_2_idx_LUT : option HC2IDX;
  getter_card_in_what_range_idxs_LUT : option (list (list Z));
}.
Global Arguments mk_getter {_} _ _ _ _ _ _ _.
Global Arguments getter_rules {_} _.
Global Arguments getter_1d_card_2_2d_card_LUT {_} _.
Global Arguments getter_2d_card_2_1d_card_LUT {_} _.
Global Arguments getter_range_idx_to_private_obs_LUT {_} _ _.
Global Arguments getter_idx_2_hole_card_LUT {_} _.
Global Arguments getter_hole_card_2_idx_LUT {_} _.
Global Arguments getter_card_in_what_range_idxs_LUT {_} _.

Definition _LutGetterLeduc (rules : Rules) : LutGetter (list (list Z)) :=
  mk_getter rules
    (Leduc.get_1d_card_2_2d_card_LUT rules)
    (Leduc.get_2d_card_2_1d_card_LUT rules)
    (λ bucketing,
       hc_1d_to_2d_lut ← Leduc.get_1d_card_2_2d_card_LUT rules;
       get_range_idx_to_private_obs_LUT rules (Leduc.get_idx_2_hole_card_LUT rules)
         hc_1d_to_2d_lut bucketing)
    (Some (Leduc.get_idx_2_hole_card_LUT rules))
    (Some (Leduc.get_hole_card_2_idx_LUT rules))
    (Some (Leduc.get_card_in_what_range_idxs_LUT rules)).

Definition _LutGetterHoldem (rules : Rules) (cpp_backend : CppLibHoldemLuts)
    : LutGetter ndarray :=
  mk_getter rules
    (Holdem.get_1d_card_2_2d_card_LUT rules cpp_backend)
    (Holdem.get_2d_card_2_1d_card_LUT rules cpp_backend)
    (λ bucketing,
       hc_1d_to_2d_lut ← Holdem.get_1d_card_2_2d_card_LUT rules cpp_backend;
       get_range_idx_to_private_obs_LUT rules (Holdem.get_idx_2_hole_card_LUT cpp_backend)
         hc_1d_to_2d_lut bucketing)
    (Some (Holdem.get_idx_2_hole_card_LUT cpp_backend))
    (Some (Holdem.get_hole_card_2_idx_LUT cpp_backend))
    (Holdem.get_card_in_what_range_idxs_LUT rules cpp_backend).

Definition _LutGetterPLO (rules : Rules) (cpp_backend : CppLibHoldemLuts) (mem : Uninit)
    : LutGetter ndarray :=
  mk_getter rules
    (PLO.get_1d_card_2_2d_card_LUT rules cpp_backend)
    (PLO.get_2d_card_2_1d_card_LUT rules cpp_backend)
    (PLO.get_range_idx_to_private_obs_LUT rules cpp_backend mem)
    (Some PLO.get_idx_2_hole_card_LUT)
    (PLO.get_hole_card_2_idx_LUT rules)
    (PLO.get_card_in_what_range_idxs_LUT rules).

(** ** [_LutHolderBase] *)

Record LutHolder (HC2IDX : Type) := mk_holder {
  LUT_1DCARD_2_2DCARD : list (Z * Z);
  LUT_2DCARD_2_1DCARD : list (list Z);
  LUT_RANGE_IDX_TO_PRIVATE_OBS : list (list Z);
  LUT_RANGE_IDX_TO_PRIVATE_OBS_PF : list (list Z);
  LUT_IDX_2_HOLE_CARDS : list (list Z);
  LUT_HOLE_CARDS_2_IDX : HC2IDX;
  LUT_CARD_IN_WHAT_RANGE_IDXS : list (list Z);
  DICT_LUT_N_BOARDS : gmap Round Z;
  DICT_LUT_N_CARDS_OUT : gmap Round Z;
  DICT_LUT_CARDS_DEALT_IN_TRANSITION_TO : gmap Round Z;
  DICT_LUT_N_BOARD_BRANCHES : gmap Round Z;
}.
Global Arguments mk_holder {_} _ _ _ _ _ _ _ _ _ _ _.
Global Arguments LUT_1DCARD_2_2DCARD {_} _.
Global Arguments LUT_2DCARD_2_1DCARD {_} _.
Global Arguments LUT_RANGE_IDX_TO_PRIVATE_OBS {_} _.
Global Arguments LUT_RANGE_IDX_TO_PRIVATE_OBS_PF {_} _.
Global Arguments LUT_IDX_2_HOLE_CARDS {_} _.
Global Arguments LUT_HOLE_CARDS_2_IDX {_} _.
Global Arguments LUT_CARD_IN_WHAT_RANGE_IDXS {_} _.
Global Arguments DICT_LUT_N_BOARDS {_} _.
Global Arguments DICT_LUT_N_CARDS_OUT {_} _.
Global Arguments DICT_LUT_CARDS_DEALT_IN_TRANSITION_TO {_} _.
Global Arguments DICT_LUT_N_BOARD_BRANCHES {_} _.

(** [_LutHolderBase.__init__]: every table is computed once, in this order. *)
Definition _LutHolderBase_init {HC2IDX} (lut_getter : LutGetter HC2IDX)
    : option (LutHolder HC2IDX) :=
  t1 ← getter_1d_card_2_2d_card_LUT lut_getter;
  t2 ← getter_2d_card_2_1d_card_LUT lut_getter;
  t3 ← getter_range_idx_to_private_obs_LUT lut_getter false;
  t4 ← getter_range_idx_to_private_obs_LUT lut_getter true;
  t5 ← getter_idx_2_hole_card_LUT lut_getter;
  t6 ← getter_hole_card_2_idx_LUT lut_getter;
  t7 ← getter_card_in_what_range_idxs_LUT lut_getter;
  t8 ← get_n_boards_LUT (getter_rules lut_getter);
  let t9 := get_n_cards_out_at_LUT (getter_rules lut_getter) in
  let t10 := get_n_cards_dealt_in_transition_to_LUT (getter_rules lut_getter) in
  t11 ← get_n_board_branches_LUT (getter_rules lut_getter);
  Some (mk_holder t1 t2 t3 t4 t5 t6 t7 t8 t9 t10 t11).

(** The argument of the batch conversions: a numpy array that is either
    zero-dimensional (empty shape) or a sequence of entries along axis 0. *)
Inductive np_arg (A : Type) :=
  | ZeroDim (x : A)
  | Entries (entries : list A).
Global Arguments ZeroDim {_} _.
Global Arguments Entries {_} _.

Section holder_base.
Context {HC2IDX : Type} (tk : Tokens) (self : LutHolder HC2IDX).

Definition get_1d_card (card_2d : Z * Z) : option Z :=
  if bool_decide (card_2d.1 = CARD_NOT_DEALT_TOKEN_1D tk)
  then Some (CARD_NOT_DEALT_TOKEN_1D tk)
  else np_get2 (LUT_2DCARD_2_1DCARD self) card_2d.1 card_2d.2.

(** [aa[aa == Poker.CARD_NOT_DEALT_TOKEN_1D] = 0], one cell. *)
Definition mask_token (x : Z) : Z :=
  if bool_decide (x = CARD_NOT_DEALT_TOKEN_1D tk) then 0 else x.

Definition get_1d_cards (cards_2d : np_arg (Z * Z)) : option (list Z) :=
  match cards_2d with
  | ZeroDim _ => Some []
  | Entries [] => Some []
  | Entries cards =>
      let aa := (λ card, (mask_token card.1, mask_token card.2)) <$> cards in
      looked_up ← mapM (λ a, np_get2 (LUT_2DCARD_2_1DCARD self) a.1 a.2) aa;
      Some (zip_with
              (λ (card : Z * Z) v,
                 if bool_decide (card.1 = CARD_NOT_DEALT_TOKEN_1D tk)
                 then CARD_NOT_DEALT_TOKEN_1D tk else v)
              cards looked_up)
  end.

Definition get_2d_cards (cards_1d : np_arg Z) : option (list (Z * Z)) :=
  match cards_1d with
  | ZeroDim _ => Some []
  | Entries [] => Some []
  | Entries cards =>
      let aa := mask_token <$> cards in
      cards_2d ← mapM (np_get (LUT_1DCARD_2_2DCARD self)) aa;
      Some (zip_with
              (λ c card,
                 if bool_decide (c = CARD_NOT_DEALT_TOKEN_1D tk)
                 then CARD_NOT_DEALT_TOKEN_2D tk else card)
              cards cards_2d)
  end.

(** [get_1d_hole_cards_from_range_idx], the same in the three holders. *)
Definition get_1d_hole_cards_from_range_idx (range_idx : Z) : option (list Z) :=
  np_get (LUT_IDX_2_HOLE_CARDS self) range_idx.

End holder_base.

(** ** [LutHolderLeduc] *)

Definition LutHolderLeduc (rules : Rules) : option (LutHolder (list (list Z))) :=
  _LutHolderBase_init (_LutGetterLeduc rules).

Definition Leduc_get_range_idx_from_hole_cards (tk : Tokens)
    (self : LutHolder (list (list Z))) (hole_cards_2d : np_arg (Z * Z)) : option Z :=
  cards ← get_1d_cards tk self hole_cards_2d;
  c1 ← np_get cards 0;
  np_get2 (LUT_HOLE_CARDS_2_IDX self) c1 0.

Definition Leduc_get_2d_hole_cards_from_range_idx
    (self : LutHolder (list (list Z))) (range_idx : Z) : option (list (Z * Z)) :=
  c1 ← np_get2 (LUT_IDX_2_HOLE_CARDS self) range_idx 0;
  card ← np_get (LUT_1DCARD_2_2DCARD self) c1;
  Some [card].

(** ** [LutHolderHoldem] *)

Definition LutHolderHoldem (rules : Rules) (cpp_backend : CppLibHoldemLuts)
    : option (LutHolder ndarray) :=
  _LutHolderBase_init (_LutGetterHoldem rules cpp_backend).

Definition Holdem_get_range_idx_from_hole_cards
    (self : LutHolder ndarray) (hole_cards_2d : list (Z * Z)) : option Z :=
  h0 ← np_get hole_cards_2d 0;
  _c1 ← np_get2 (LUT_2DCARD_2_1DCARD self) h0.1 h0.2;
  h1 ← np_get hole_cards_2d 1;
  _c2 ← np_get2 (LUT_2DCARD_2_1DCARD self) h1.1 h1.2;
  let c1 := Z.min _c1 _c2 in
  let c2 := Z.max _c1 _c2 in
  nd_get (LUT_HOLE_CARDS_2_IDX self) [c1; c2].

(** ** [LutHolderPLO] *)

Definition LutHolderPLO (rules : Rules) (cpp_backend : CppLibHoldemLuts) (mem : Uninit)
    : option (LutHolder ndarray) :=
  _LutHolderBase_init (_LutGetterPLO rules cpp_backend mem).

(** [list[i]] on a Python list follows the same index rule as [np_get]. *)
Definition PLO_get_range_idx_from_hole_cards
    (self : LutHolder ndarray) (hole_cards_2d : list (Z * Z)) : option Z :=
  list ← mapM (λ c : Z * Z, np_get2 (LUT_2DCARD_2_1DCARD self) c.1 c.2) hole_cards_2d;
  let list := py_sort list in
  l0 ← np_get list 0; l1 ← np_get list 1; l2 ← np_get list 2; l3 ← np_get list 3;
  nd_get (LUT_HOLE_CARDS_2_IDX self) [l0; l1; l2; l3].

Definition Holdem_get_2d_hole_cards_from_range_idx
    (self : LutHolder ndarray) (range_idx : Z) : option (list (Z * Z)) :=
  c1 ← np_get2 (LUT_IDX_2_HOLE_CARDS self) range_idx 0;
  c2 ← np_get2 (LUT_IDX_2_HOLE_CARDS self) range_idx 1;
  card1 ← np_get (LUT_1DCARD_2_2DCARD self) c1;
  card2 ← np_get (LUT_1DCARD_2_2DCARD self) c2;
  Some [card1; card2].

Definition PLO_get_2d_hole_cards_from_range_idx
    (self : LutHolder ndarray) (range_idx : Z) : option (list (Z * Z)) :=
  c1 ← np_get2 (LUT_IDX_2_HOLE_CARDS self) range_idx 0;
  c2 ← np_get2 (LUT_IDX_2_HOLE_CARDS self) range_idx 1;
  c3 ← np_get2 (LUT_IDX_2_HOLE_CARDS self) range_idx 2;
  c4 ← np_get2 (LUT_IDX_2_HOLE_CARDS self) range_idx 3;
  card1 ← np_get (LUT_1DCARD_2_2DCARD self) c1;
  card2 ← np_get (LUT_1DCARD_2_2DCARD self) c2;
  card3 ← np_get (LUT_1DCARD_2_2DCARD self) c3;
  card4 ← np_get (LUT_1DCARD_2_2DCARD self) c4;
  Some [card1; card2; card3; card4].


(** ** Well-formed rules *)

(** The deck is the full rank-by-suit grid and every card id, rank and suit
    fits the int8 cells of the card tables. *)
Definition deck_ok (rules : Rules) : Prop :=
  0 < N_RANKS rules ∧ 0 < N_SUITS rules ∧
  N_CARDS_IN_DECK rules = N_RANKS rules * N_SUITS rules ∧
  N_CARDS_IN_DECK rules ≤ 128.

(** Leduc hold'em as shipped with PokerRL: three ranks in two suits, one
    hole card, one flop card. *)
Definition leduc_rules : Rules :=
  mk_rules 6 3 2 1 true 1 0 0 [PREFLOP; FLOP]
    (list_to_map [(PREFLOP, PREFLOP); (FLOP, PREFLOP)]).

(** The tokens of the [Poker] module as shipped with PokerRL. *)
Definition poker_tokens : Tokens := mk_tokens (-1) (-1, -1).

(** The rounds of a four-street game and their predecessors. *)
Definition four_streets : list Round := [PREFLOP; FLOP; TURN; RIVER].

Definition four_streets_before : gmap Round Round :=
  list_to_map [(PREFLOP, PREFLOP); (FLOP, PREFLOP); (TURN, FLOP); (RIVER, TURN)].

(** Texas hold'em: 13 ranks in 4 suits, two hole cards, boards of 3 + 1 + 1. *)
Definition holdem_rules : Rules :=
  mk_rules 52 13 4 2 true 3 1 1 four_streets four_streets_before.

(** Pot-limit Omaha: the same deck and streets with four hole cards. *)
Definition plo_rules : Rules :=
  mk_rules 52 13 4 4 true 3 1 1 four_streets four_streets_before.

(** The two tokens are reserved values: negative, hence never a rank, a suit
    or a card id, and the 2D token is the 1D token in both cells. *)
Definition tokens_ok (tk : Tokens) : Prop :=
  CARD_NOT_DEALT_TOKEN_1D tk < 0 ∧
  CARD_NOT_DEALT_TOKEN_2D tk = (CARD_NOT_DEALT_TOKEN_1D tk, CARD_NOT_DEALT_TOKEN_1D tk).

(** The two card tables of a holder have the shape the rules prescribe, and
    the deck is not empty. *)
Definition card_tables_shaped {HC2IDX} (rules : Rules) (self : LutHolder HC2IDX) : Prop :=
  0 < N_CARDS_IN_DECK rules ∧ 0 < N_RANKS rules ∧ 0 < N_SUITS rules ∧
  Z.of_nat (length (LUT_1DCARD_2_2DCARD self)) = N_CARDS_IN_DECK rules ∧
  Z.of_nat (length (LUT_2DCARD_2_1DCARD self)) = N_RANKS rules ∧
  Forall (λ row, Z.of_nat (length row) = N_SUITS rules) (LUT_2DCARD_2_1DCARD self).

(** A (rank, suit) pair of the grid. *)
Definition is_card_2d (rules : Rules) (card : Z * Z) : Prop :=
  0 ≤ card.1 < N_RANKS rules ∧ 0 ≤ card.2 < N_SUITS rules.

(** One entry of [get_1d_cards]: the token goes to the token, a card of the
    grid to its cell of the table. *)
Definition converted_1d {HC2IDX} (tk : Tokens) (rules : Rules) (self : LutHolder HC2IDX)
    (card : Z * Z) (out : Z) : Prop :=
  (card = CARD_NOT_DEALT_TOKEN_2D tk ∧ out = CARD_NOT_DEALT_TOKEN_1D tk)
  ∨ (is_card_2d rules card ∧ card ≠ CARD_NOT_DEALT_TOKEN_2D tk
     ∧ np_get2 (LUT_2DCARD_2_1DCARD self) card.1 card.2 = Some out).

(** One entry of [get_2d_cards]. *)
Definition converted_2d {HC2IDX} (tk : Tokens) (rules : Rules) (self : LutHolder HC2IDX)
    (c : Z) (out : Z * Z) : Prop :=
  (c = CARD_NOT_DEALT_TOKEN_1D tk ∧ out = CARD_NOT_DEALT_TOKEN_2D tk)
  ∨ (0 ≤ c < N_CARDS_IN_DECK rules ∧ c ≠ CARD_NOT_DEALT_TOKEN_1D tk
     ∧ np_get (LUT_1DCARD_2_2DCARD self) c = Some out).

(** ** Sample holders *)

(** The Leduc holder, evaluated. *)
Definition leduc_holder : LutHolder (list (list Z)) :=
  Eval vm_compute in
    match LutHolderLeduc leduc_rules with
    | Some self => self
    | None => mk_holder [] [] [] [] [] [] [] ∅ ∅ ∅ ∅
    end.

(** A backend that numbers the cards rank-major, as the single-card getter
    does, and serves the hole-card tables of the spec. *)
Definition rank_major_backend (rules : Rules) : CppLibHoldemLuts :=
  mk_cpp (Leduc._get_2d_card rules) (Leduc._get_1d_card rules)
    (Holdem.spec_idx_2_hole_card_lut (N_CARDS_IN_DECK rules))
    (default (mk_ndarray [] 0 ∅)
       (Holdem.spec_hole_card_2_idx_lut (N_CARDS_IN_DECK rules))).

(** A holder with the tables both multi-card lookups read: the rank-major
    card table of a 52-card deck and a hole-card-to-index table. *)
Definition sample_holder (hc2idx : option ndarray) : LutHolder ndarray :=
  mk_holder []
    (default [] (Holdem.get_2d_card_2_1d_card_LUT plo_rules (rank_major_backend plo_rules)))
    [] [] [] (default (mk_ndarray [] 0 ∅) hc2idx) [] ∅ ∅ ∅ ∅.

(** ** Vocabulary of the hole-card index *)

(** Lexicographic order on tuples of card ids. *)
Fixpoint lex_lt (a b : list Z) : Prop :=
  match a, b with
  | [], [] => False
  | [], _ :: _ => True
  | _ :: _, [] => False
  | x :: a', y :: b' => x < y ∨ (x = y ∧ lex_lt a' b')
  end.

(** A legal hand over a deck of [deck] cards: [k] distinct card ids, in
    ascending order. *)
Definition ascending_hand (deck : Z) (k : nat) (h : list Z) : Prop :=
  length h = k ∧ StronglySorted Z.lt h ∧ Forall (λ c, 0 ≤ c < deck) h.

(** The two tables index the hands of [k] cards out of [deck] one-to-one by
    [0 .. range_size - 1], in lexicographic order. [idx2hc] and [hc2idx] are
    the two table lookups. *)
Definition hole_card_bijection (range_size deck : Z) (k : nat)
    (idx2hc : Z → option (list Z)) (hc2idx : list Z → option Z) : Prop :=
  (∀ i, 0 ≤ i < range_size →
     ∃ h, idx2hc i = Some h ∧ ascending_hand deck k h ∧ hc2idx h = Some i)
  ∧ (∀ h, ascending_hand deck k h →
       ∃ i, hc2idx h = Some i ∧ 0 ≤ i < range_size ∧ idx2hc i = Some h)
  ∧ (∀ i j hi hj, 0 ≤ i → i < j → idx2hc i = Some hi → idx2hc j = Some hj →
       lex_lt hi hj).

(** The body shared by the loops that number the hands: store the counter
    at [key], cast to the cell type, and advance it. *)
Definition store_next (cast : Z → Z) (key : list Z) (st : ndarray * Z)
    : option (ndarray * Z) :=
  lut' ← nd_set st.1 key (cast st.2); Some (lut', st.2 + 1).

(** An index inside the shape, without wrap-around. *)
Definition in_shape (shape : list Z) (key : list Z) : Prop :=
  Forall2 (λ n i, 0 ≤ i < n) shape key.

(** [LUT_HOLE_CARDS_2_IDX[c1, 0]]: how the single-card holder reads its
    hole-card-to-index table for the hand [[c1]]. *)
Definition Leduc_hole_card_2_idx (lut : list (list Z)) (h : list Z) : option Z :=
  match h with
  | [c1] => np_get2 lut c1 0
  | _ => None
  end.

(** ** Vocabulary of the card-membership table *)

(** The range indices whose hole cards contain [c], in ascending order. *)
Definition rows_containing (c : Z) (hcs : list (list Z)) : list Z :=
  filter (λ i, c ∈ default [] (hcs !! Z.to_nat i)) (range 0 (Z.of_nat (length hcs))).

(** [lut] is a card-membership table for the hole-card table [idx2hc] of a
    game with [k] hole cards and [deck] cards: one row per card, each row
    with C(deck - 1, k - 1) entries, listing exactly the range indices whose
    hole cards contain the card, with no [-2] left. *)
Definition card_membership (deck k : Z) (idx2hc lut : list (list Z)) : Prop :=
  Z.of_nat (length lut) = deck
  ∧ ∀ c, 0 ≤ c < deck →
      ∃ row, np_get lut c = Some row
        ∧ Z.of_nat (length row) = comb (deck - 1) (k - 1)
        ∧ (∀ idx, idx ∈ row → 0 ≤ idx ∧ ∃ hc, np_get idx2hc idx = Some hc ∧ c ∈ hc)
        ∧ (∀ idx hc, 0 ≤ idx → np_get idx2hc idx = Some hc → c ∈ hc → idx ∈ row)
        ∧ -2 ∉ row.

(** ** Vocabulary of the private observations *)

(** Slot [j] of an observation vector is a rank slot when it falls in the
    first N_RANKS slots of its card's block, a suit slot otherwise. *)
Definition is_rank_slot (rules : Rules) (j : Z) : Prop :=
  j `mod` (N_SUITS rules + N_RANKS rules) < N_RANKS rules.

Global Instance is_rank_slot_dec rules j : Decision (is_rank_slot rules j).
Proof. unfold is_rank_slot. apply _. Defined.

(** The number of rank slots, and of suit slots, that hold 1. *)
Definition rank_bits_set (rules : Rules) (priv_o : list Z) : nat :=
  length (filter (λ j, is_rank_slot rules j ∧ priv_o !! Z.to_nat j = Some 1)
            (range 0 (Z.of_nat (length priv_o)))).

Definition suit_bits_set (rules : Rules) (priv_o : list Z) : nat :=
  length (filter (λ j, ¬ is_rank_slot rules j ∧ priv_o !! Z.to_nat j = Some 1)
            (range 0 (Z.of_nat (length priv_o)))).

(** Uninitialised storage as it is found when the buffer of range index 1 is
    the recycled buffer of range index 0 (hand 0, 1, 2, 3 of the four-card
    game: slots 0, 13, 17, 31, 34, 49, 51 and 67 hold 1) and everything
    else happens to be zeroed. *)
Definition recycled_buffer : Uninit :=
  mk_uninit (λ _ _, 0)
    (λ range_idx j,
       if bool_decide (range_idx = 1%nat ∧ j ∈ [0; 13; 17; 31; 34; 49; 51; 67]%nat)
       then 1 else 0).

(** The 2D card of a card id under the rank-major numbering of a deck with
    four suits. *)
Definition rank_major_card (c : Z) : Z * Z := (c `div` 4, c `mod` 4).

(** The block of one card in an observation vector: N_RANKS rank slots then
    N_SUITS suit slots, with the card's rank slot at 1 and, when [suits_on],
    its suit slot at 1. *)
Definition one_hot_block (rules : Rules) (suits_on : bool) (card : Z * Z) : list Z :=
  (λ j, if bool_decide (j = card.1 ∨ (suits_on = true ∧ j = N_RANKS rules + card.2))
        then 1 else 0)
    <$> range 0 (N_SUITS rules + N_RANKS rules).

(** The observation vector of a hand given by its 2D cards. *)
Definition one_hot_hand (rules : Rules) (suits_on : bool) (cards : list (Z * Z))
    : list Z :=
  cards ≫= one_hot_block rules suits_on.

(** The tables handed to [get_range_idx_to_private_obs_LUT] are sound for
    the rules: the hole-card table has RANGE_SIZE rows of N_HOLE_CARDS card
    ids each, and the card table gives every card id a (rank, suit) pair of
    the grid. *)
Definition obs_tables_ok (rules : Rules) (range_idx_to_hc_lut : list (list Z))
    (hc_1d_to_2d_lut : list (Z * Z)) : Prop :=
  0 < N_RANKS rules ∧ 0 < N_SUITS rules ∧ 0 ≤ N_HOLE_CARDS rules
  ∧ Z.of_nat (length range_idx_to_hc_lut) = RANGE_SIZE rules
  ∧ Forall (λ hand, Z.of_nat (length hand) = N_HOLE_CARDS rules
                    ∧ Forall (λ c, 0 ≤ c < Z.of_nat (length hc_1d_to_2d_lut)) hand)
      range_idx_to_hc_lut
  ∧ Forall (is_card_2d rules) hc_1d_to_2d_lut.

(** The 2D cards of a hand of card ids. *)
Definition cards_of_hand (hc_1d_to_2d_lut : list (Z * Z)) (hand : list Z) : list (Z * Z) :=
  (λ c, default (0, 0) (hc_1d_to_2d_lut !! Z.to_nat c)) <$> hand.

(** Rules of a single-card game whose holder can be built: a well-formed
    deck, one hole card, and a predecessor for every later round. *)
Definition leduc_like (rules : Rules) : Prop :=
  deck_ok rules ∧ N_HOLE_CARDS rules = 1
  ∧ ∀ r, r ∈ ALL_ROUNDS_LIST rules → r ≠ PREFLOP → is_Some (ROUND_BEFORE rules !! r).

(** A four-card game dealt from a deck of six cards. *)
Definition six_card_plo_rules : Rules :=
  mk_rules 6 3 2 4 true 3 1 1 four_streets four_streets_before.

(** A two-card game dealt from a deck of four cards. *)
Definition four_card_holdem_rules : Rules :=
  mk_rules 4 2 2 2 true 3 1 1 four_streets four_streets_before.

(** ** Further vocabulary *)

(** The rounds in dealing order, up to and including [r]. *)
Definition rounds_through (r : Round) : list Round :=
  take (S (Round_to_nat r)) [PREFLOP; FLOP; TURN; RIVER].

(** Rules with a later round whose predecessor is not recorded. *)
Definition rules_without_turn_predecessor : Rules :=
  mk_rules 52 13 4 2 true 3 1 1 four_streets
    (list_to_map [(PREFLOP, PREFLOP); (FLOP, PREFLOP); (RIVER, TURN)]).

(** The two card tables of a holder are inverse to each other on the deck
    and on the rank-by-suit grid. *)
Definition card_tables_inverse {HC2IDX} (rules : Rules) (self : LutHolder HC2IDX) : Prop :=
  (∀ c, 0 ≤ c < N_CARDS_IN_DECK rules →
     ∃ card, np_get (LUT_1DCARD_2_2DCARD self) c = Some card
       ∧ is_card_2d rules card
       ∧ np_get2 (LUT_2DCARD_2_1DCARD self) card.1 card.2 = Some c)
  ∧ (∀ card, is_card_2d rules card →
       ∃ c, np_get2 (LUT_2DCARD_2_1DCARD self) card.1 card.2 = Some c
         ∧ 0 ≤ c < N_CARDS_IN_DECK rules
         ∧ np_get (LUT_1DCARD_2_2DCARD self) c = Some card).

(** A native backend whose two card conversions are inverse to each other on
    the deck and the rank-by-suit grid of the rules, all within int8. *)
Definition backend_cards_ok (rules : Rules) (cpp_backend : CppLibHoldemLuts) : Prop :=
  0 ≤ N_CARDS_IN_DECK rules ≤ 128 ∧ 0 ≤ N_RANKS rules ≤ 128 ∧ 0 ≤ N_SUITS rules ≤ 128
  ∧ (∀ c, 0 ≤ c < N_CARDS_IN_DECK rules →
       is_card_2d rules (cpp_get_2d_card cpp_backend c)
       ∧ cpp_get_1d_card cpp_backend (cpp_get_2d_card cpp_backend c) = c)
  ∧ (∀ card, is_card_2d rules card →
       0 ≤ cpp_get_1d_card cpp_backend card < N_CARDS_IN_DECK rules
       ∧ cpp_get_2d_card cpp_backend (cpp_get_1d_card cpp_backend card) = card).

(** The slots of an observation vector that the loops of the private
    observations set to 1 for a hand given by its 2D cards: for card number
    [k] the rank slot of its block and, when suits are written, the suit
    slot. *)
Definition one_hot_slots (rules : Rules) (suits_on : bool) (cards : list (Z * Z))
    : list Z :=
  let D := N_SUITS rules + N_RANKS rules in
  mjoin (imap (λ k card,
                 (D * Z.of_nat k + card.1)
                 :: (if suits_on then [D * Z.of_nat k + N_RANKS rules + card.2] else []))
           cards).

(** A holder with only the tables the hole-card lookups read. *)
Definition holder_of_tables (lut_1d_2d : option (list (Z * Z)))
    (lut_2d_1d : option (list (list Z))) (idx2hc : list (list Z))
    (hc2idx : option ndarray) : LutHolder ndarray :=
  mk_holder (default [] lut_1d_2d) (default [] lut_2d_1d) [] [] idx2hc
    (default (mk_ndarray [] 0 ∅) hc2idx) [] ∅ ∅ ∅ ∅.

(** * Properties *)

(** ** Facts about the numpy primitives *)

Lemma int8_small z : -128 ≤ z < 128 → int8 z = z.
Proof. intros. unfold int8. rewrite Z.mod_small; lia. Qed.

Lemma int32_small z : -2147483648 ≤ z < 2147483648 → int32 z = z.
Proof. intros. unfold int32. rewrite Z.mod_small; lia. Qed.

Lemma bind_Some_eq {A B} (x : A) (f : A → option B) : Some x ≫= f = f x.
Proof. done. Qed.

Lemma np_norm_in n i : 0 ≤ i < Z.of_nat n → np_norm n i = Some (Z.to_nat i).
Proof. intros. unfold np_norm. by rewrite bool_decide_eq_true_2. Qed.

Lemma np_norm_Some n i j : np_norm n i = Some j → (j < n)%nat.
Proof.
  unfold np_norm. repeat case_bool_decide; intros; simplify_eq; lia.
Qed.

Lemma np_get_in {A} (a : list A) i :
  0 ≤ i < Z.of_nat (length a) → np_get a i = a !! Z.to_nat i.
Proof. intros. unfold np_get. by rewrite np_norm_in. Qed.

Lemma np_get_nat {A} (a : list A) (j : nat) x :
  a !! j = Some x → np_get a (Z.of_nat j) = Some x.
Proof.
  intros Hj. rewrite np_get_in, Nat2Z.id; [done|].
  apply lookup_lt_Some in Hj. lia.
Qed.

Lemma np_set_in {A} (a : list A) i v :
  0 ≤ i < Z.of_nat (length a) → np_set a i v = Some (<[Z.to_nat i := v]> a).
Proof. intros. unfold np_set. by rewrite np_norm_in. Qed.

Lemma np_get_elem_of {A} (a : list A) i x : np_get a i = Some x → x ∈ a.
Proof.
  unfold np_get. destruct (np_norm _ _); simpl; [|done].
  apply list_elem_of_lookup_2.
Qed.

Lemma np_set2_in {A} (a : list (list A)) i j v row :
  a !! Z.to_nat i = Some row → 0 ≤ i → 0 ≤ j < Z.of_nat (length row) →
  np_set2 a i j v = Some (<[Z.to_nat i := <[Z.to_nat j := v]> row]> a).
Proof.
  intros Hrow Hi Hj. pose proof (lookup_lt_Some _ _ _ Hrow).
  unfold np_set2. rewrite np_get_in, Hrow by lia. simpl.
  rewrite np_set_in by lia. simpl. by rewrite np_set_in by lia.
Qed.

Lemma np_get2_in {A} (a : list (list A)) i j row :
  a !! Z.to_nat i = Some row → 0 ≤ i → 0 ≤ j < Z.of_nat (length row) →
  np_get2 a i j = row !! Z.to_nat j.
Proof.
  intros Hrow Hi Hj. pose proof (lookup_lt_Some _ _ _ Hrow).
  unfold np_get2. rewrite np_get_in, Hrow by lia. simpl. by rewrite np_get_in.
Qed.

Lemma range_nil a b : b ≤ a → range a b = [].
Proof. intros. unfold range. apply seqZ_nil. lia. Qed.

Lemma range_cons a b : a < b → range a b = a :: range (a + 1) b.
Proof.
  intros. unfold range. rewrite seqZ_cons by lia. do 2 f_equal; lia.
Qed.

Lemma range_snoc a (k : nat) :
  range a (a + Z.of_nat (S k)) = range a (a + Z.of_nat k) ++ [a + Z.of_nat k].
Proof.
  unfold range.
  replace (a + Z.of_nat (S k) - a) with (Z.of_nat (S k)) by lia.
  replace (a + Z.of_nat k - a) with (Z.of_nat k) by lia.
  apply seqZ_S.
Qed.

Lemma range_app a b c : a ≤ b ≤ c → range a c = range a b ++ range b c.
Proof.
  intros. unfold range. replace (c - a) with ((b - a) + (c - b)) by lia.
  rewrite seqZ_app by lia. do 2 f_equal. lia.
Qed.

Lemma range_shift d a n : range (d + a) (d + a + n) = Z.add d <$> range a (a + n).
Proof.
  unfold range. rewrite fmap_add_seqZ. f_equal; lia.
Qed.

Lemma elem_of_range a b x : x ∈ range a b ↔ a ≤ x < b.
Proof. unfold range. rewrite elem_of_seqZ. lia. Qed.

Lemma length_range a b : length (range a b) = Z.to_nat (b - a).
Proof. apply length_seqZ. Qed.

Lemma lookup_range a b (i : nat) :
  a + Z.of_nat i < b → range a b !! i = Some (a + Z.of_nat i).
Proof. intros. unfold range. apply lookup_seqZ_lt. lia. Qed.

Lemma NoDup_range a b : NoDup (range a b).
Proof. apply NoDup_seqZ. Qed.

(** ** Facts about loops *)

Lemma for_each_cons {X S} (x : X) (xs : list X) (body : X → S → option S) s :
  for_each (x :: xs) body s = body x s ≫= for_each xs body.
Proof. done. Qed.

Lemma for_each_app {X S} (xs ys : list X) (body : X → S → option S) s :
  for_each (xs ++ ys) body s = for_each xs body s ≫= for_each ys body.
Proof.
  revert s. induction xs as [|x xs IH]; intros s; simpl; [done|].
  destruct (body x s); simpl; [apply IH|done].
Qed.

Lemma for_each_fmap {X Y S} (f : X → Y) (xs : list X) (body : Y → S → option S) s :
  for_each (f <$> xs) body s = for_each xs (λ x, body (f x)) s.
Proof.
  revert s. induction xs as [|x xs IH]; intros s; simpl; [done|].
  destruct (body (f x) s); simpl; [apply IH|done].
Qed.

Lemma for_each_bind {X Y S} (f : X → list Y) (xs : list X) (body : Y → S → option S) s :
  for_each (xs ≫= f) body s = for_each xs (λ x, for_each (f x) body) s.
Proof.
  revert s. induction xs as [|x xs IH]; intros s; simpl; [done|].
  rewrite for_each_app. destruct (for_each (f x) body s); simpl; [apply IH|done].
Qed.

Lemma for_each_ext {X S} (xs : list X) (body body' : X → S → option S) s :
  (∀ x s, x ∈ xs → body x s = body' x s) →
  for_each xs body s = for_each xs body' s.
Proof.
  revert s. induction xs as [|x xs IH]; intros s Hb; simpl; [done|].
  rewrite Hb by left. destruct (body' x s); simpl; [|done].
  apply IH. intros. apply Hb. by right.
Qed.

(** Filling the cells [0 .. k-1] of an array one by one. *)
Lemma fill_prefix {A} (f : Z → A) (k : nat) (lut : list A) :
  (k ≤ length lut)%nat →
  for_each (range 0 (Z.of_nat k)) (λ c lut, np_set lut c (f c)) lut
  = Some ((f <$> range 0 (Z.of_nat k)) ++ drop k lut).
Proof.
  induction k as [|k IH]; intros Hk.
  - by rewrite range_nil.
  - change (Z.of_nat (S k)) with (0 + Z.of_nat (S k)).
    rewrite range_snoc, for_each_app, Z.add_0_l, IH by lia. simpl.
    rewrite np_set_in.
    2:{ rewrite length_app, length_fmap, length_range, length_drop. lia. }
    simpl. f_equal. rewrite fmap_app, <- app_assoc. simpl.
    rewrite Nat2Z.id.
    rewrite insert_app_r_alt by (rewrite length_fmap, length_range; lia).
    rewrite length_fmap, length_range.
    replace (k - Z.to_nat (Z.of_nat k - 0))%nat with 0%nat by lia.
    f_equal.
    destruct (drop k lut) as [|y l'] eqn:Hd.
    { apply (f_equal length) in Hd. rewrite length_drop in Hd. simpl in Hd. lia. }
    simpl. f_equal.
    replace (S k) with (k + 1)%nat by lia. rewrite <- drop_drop, Hd. done.
Qed.

Lemma fill_all {A} (f : Z → A) (n : Z) (lut : list A) :
  Z.of_nat (length lut) = n →
  for_each (range 0 n) (λ c lut, np_set lut c (f c)) lut = Some (f <$> range 0 n).
Proof.
  intros <-. rewrite fill_prefix by lia. by rewrite drop_all, app_nil_r.
Qed.

(** The same for one row of a two-dimensional array. *)
Lemma fill_row_prefix {A} (g : Z → A) (r : Z) (k : nat) (lut : list (list A)) row :
  0 ≤ r → lut !! Z.to_nat r = Some row → (k ≤ length row)%nat →
  for_each (range 0 (Z.of_nat k)) (λ s lut, np_set2 lut r s (g s)) lut
  = Some (<[Z.to_nat r := (g <$> range 0 (Z.of_nat k)) ++ drop k row]> lut).
Proof.
  intros Hr Hrow. induction k as [|k IH]; intros Hk.
  - rewrite range_nil by lia. simpl. rewrite drop_0. by rewrite list_insert_id.
  - pose proof (lookup_lt_Some _ _ _ Hrow) as Hlt.
    change (Z.of_nat (S k)) with (0 + Z.of_nat (S k)).
    rewrite range_snoc, for_each_app, Z.add_0_l, IH by lia. simpl.
    erewrite np_set2_in; [|by apply list_lookup_insert_eq|lia|].
    2:{ rewrite length_app, length_fmap, length_range, length_drop. lia. }
    f_equal. rewrite list_insert_insert_eq. f_equal.
    rewrite fmap_app, <- app_assoc. simpl. rewrite Nat2Z.id.
    rewrite insert_app_r_alt by (rewrite length_fmap, length_range; lia).
    rewrite length_fmap, length_range.
    replace (k - Z.to_nat (Z.of_nat k - 0))%nat with 0%nat by lia.
    f_equal.
    destruct (drop k row) as [|y l'] eqn:Hd.
    { apply (f_equal length) in Hd. rewrite length_drop in Hd. simpl in Hd. lia. }
    simpl. f_equal.
    replace (S k) with (k + 1)%nat by lia. rewrite <- drop_drop, Hd. done.
Qed.

Lemma fill_row {A} (g : Z → A) (r m : Z) (lut : list (list A)) row :
  0 ≤ r → lut !! Z.to_nat r = Some row → Z.of_nat (length row) = m →
  for_each (range 0 m) (λ s lut, np_set2 lut r s (g s)) lut
  = Some (<[Z.to_nat r := g <$> range 0 m]> lut).
Proof.
  intros Hr Hrow <-. erewrite fill_row_prefix by (done || lia).
  by rewrite drop_all, app_nil_r.
Qed.

(** Filling a whole two-dimensional array, row by row. *)
Lemma fill_rows {A} (g : Z → Z → A) (n m : Z) (lut : list (list A)) :
  Z.of_nat (length lut) = n → Forall (λ row, Z.of_nat (length row) = m) lut →
  for_each (range 0 n)
    (λ r, for_each (range 0 m) (λ s lut, np_set2 lut r s (g r s))) lut
  = Some ((λ r, g r <$> range 0 m) <$> range 0 n).
Proof.
  intros Hn Hrows.
  assert (∀ k : nat, (k ≤ length lut)%nat →
    for_each (range 0 (Z.of_nat k))
      (λ r, for_each (range 0 m) (λ s lut, np_set2 lut r s (g r s))) lut
    = Some (((λ r, g r <$> range 0 m) <$> range 0 (Z.of_nat k)) ++ drop k lut)) as Hk.
  { induction k as [|k IH]; intros Hk.
    - by rewrite range_nil.
    - change (Z.of_nat (S k)) with (0 + Z.of_nat (S k)).
      rewrite range_snoc, for_each_app, Z.add_0_l, IH by lia. simpl.
      destruct (drop k lut) as [|row l'] eqn:Hd.
      { apply (f_equal length) in Hd. rewrite length_drop in Hd. simpl in Hd. lia. }
      assert (Z.of_nat (length row) = m) as Hrow.
      { eapply (proj1 (Forall_forall _ _) Hrows).
        apply (list_elem_of_lookup_2 _ k). rewrite <- (Nat.add_0_r k).
        rewrite <- lookup_drop, Hd. done. }
      erewrite fill_row; [| lia | | exact Hrow].
      2:{ rewrite Nat2Z.id, lookup_app_r by (rewrite length_fmap, length_range; lia).
          rewrite length_fmap, length_range.
          by replace (k - Z.to_nat (Z.of_nat k - 0))%nat with 0%nat by lia. }
      f_equal. rewrite Nat2Z.id.
      rewrite insert_app_r_alt by (rewrite length_fmap, length_range; lia).
      rewrite length_fmap, length_range.
      replace (k - Z.to_nat (Z.of_nat k - 0))%nat with 0%nat by lia.
      rewrite fmap_app, <- app_assoc. simpl. do 3 f_equal.
      replace (S k) with (k + 1)%nat by lia. rewrite <- drop_drop, Hd. done. }
  subst n. rewrite Hk by lia. by rewrite drop_all, app_nil_r.
Qed.

(** ** Card conversions of the single-card getter *)

Lemma np_get_fmap_range {A} (f : Z → A) n c :
  0 ≤ c < n → np_get (f <$> range 0 n) c = Some (f c).
Proof.
  intros. rewrite np_get_in by (rewrite length_fmap, length_range; lia).
  rewrite list_lookup_fmap, lookup_range by lia. simpl. f_equal. f_equal. lia.
Qed.

Lemma np_get2_fmap_range {A} (g : Z → Z → A) n m r s :
  0 ≤ r < n → 0 ≤ s < m →
  np_get2 ((λ r, g r <$> range 0 m) <$> range 0 n) r s = Some (g r s).
Proof.
  intros. unfold np_get2. rewrite np_get_fmap_range by done. simpl.
  by apply np_get_fmap_range.
Qed.

Lemma Leduc_1d_2_2d_table rules :
  0 ≤ N_CARDS_IN_DECK rules →
  Leduc.get_1d_card_2_2d_card_LUT rules
  = Some (Leduc._get_2d_card rules <$> range 0 (N_CARDS_IN_DECK rules)).
Proof.
  intros. unfold Leduc.get_1d_card_2_2d_card_LUT, np_full1.
  rewrite bool_decide_eq_true_2 by done. simpl.
  apply fill_all. rewrite length_replicate. lia.
Qed.

Lemma Leduc_2d_2_1d_table rules :
  0 ≤ N_RANKS rules → 0 ≤ N_SUITS rules →
  Leduc.get_2d_card_2_1d_card_LUT rules
  = Some ((λ r, (λ s, int8 (Leduc._get_1d_card rules (int8 r, int8 s)))
                  <$> range 0 (N_SUITS rules)) <$> range 0 (N_RANKS rules)).
Proof.
  intros. unfold Leduc.get_2d_card_2_1d_card_LUT, np_full2, np_full1.
  rewrite !bool_decide_eq_true_2 by done. simpl.
  apply (fill_rows (λ r s, int8 (Leduc._get_1d_card rules (int8 r, int8 s)))).
  - rewrite length_replicate. lia.
  - apply Forall_replicate. rewrite length_replicate. lia.
Qed.

Lemma Leduc_get_2d_card_range rules c :
  deck_ok rules → 0 ≤ c < N_CARDS_IN_DECK rules →
  Leduc._get_2d_card rules c = (c `div` N_SUITS rules, c `mod` N_SUITS rules)
  ∧ 0 ≤ c `div` N_SUITS rules < N_RANKS rules
  ∧ 0 ≤ c `mod` N_SUITS rules < N_SUITS rules.
Proof.
  intros (HR & HS & HN & H8) Hc.
  assert (0 ≤ c `mod` N_SUITS rules < N_SUITS rules) by (apply Z.mod_pos_bound; lia).
  assert (0 ≤ c `div` N_SUITS rules < N_RANKS rules).
  { split; [apply Z.div_pos; lia|]. apply Z.div_lt_upper_bound; lia. }
  assert (N_SUITS rules ≤ 128) by nia.
  assert (N_RANKS rules ≤ 128) by nia.
  split; [|done]. unfold Leduc._get_2d_card. by rewrite !int8_small by lia.
Qed.

Lemma Leduc_get_1d_card_range rules r s :
  deck_ok rules → 0 ≤ r < N_RANKS rules → 0 ≤ s < N_SUITS rules →
  Leduc._get_1d_card rules (r, s) = r * N_SUITS rules + s
  ∧ 0 ≤ r * N_SUITS rules + s < N_CARDS_IN_DECK rules.
Proof.
  intros (HR & HS & HN & H8) Hr Hs.
  assert (0 ≤ r * N_SUITS rules + s < N_CARDS_IN_DECK rules) by nia.
  split; [|done]. unfold Leduc._get_1d_card. simpl. by rewrite int8_small by lia.
Qed.

Lemma Leduc_1d_2d_1d rules c :
  deck_ok rules → 0 ≤ c < N_CARDS_IN_DECK rules →
  Leduc._get_1d_card rules (Leduc._get_2d_card rules c) = c.
Proof.
  intros Hok Hc.
  destruct (Leduc_get_2d_card_range rules c Hok Hc) as (-> & Hr & Hs).
  destruct (Leduc_get_1d_card_range rules _ _ Hok Hr Hs) as (-> & _).
  destruct Hok as (? & ? & ? & ?).
  rewrite (Z.div_mod c (N_SUITS rules)) at 3 by lia. lia.
Qed.

Lemma Leduc_2d_1d_2d rules r s :
  deck_ok rules → 0 ≤ r < N_RANKS rules → 0 ≤ s < N_SUITS rules →
  Leduc._get_2d_card rules (Leduc._get_1d_card rules (r, s)) = (r, s).
Proof.
  intros Hok Hr Hs.
  destruct (Leduc_get_1d_card_range rules _ _ Hok Hr Hs) as (-> & Hc).
  destruct (Leduc_get_2d_card_range rules _ Hok Hc) as (-> & _).
  destruct Hok as (? & ? & ? & ?).
  f_equal.
  - rewrite Z.div_add_l by lia. rewrite Z.div_small by lia. lia.
  - rewrite Z.add_comm, Z.mod_add by lia. apply Z.mod_small. lia.
Qed.

(** The two card tables of the single-card getter are inverse to each other
    wherever they were built. *)
Lemma card_conversions_tables rules lut_1d_2d lut_2d_1d :
  deck_ok rules →
  Leduc.get_1d_card_2_2d_card_LUT rules = Some lut_1d_2d →
  Leduc.get_2d_card_2_1d_card_LUT rules = Some lut_2d_1d →
  (∀ card1d, 0 ≤ card1d < N_CARDS_IN_DECK rules →
     ∃ rank suit,
       np_get lut_1d_2d card1d = Some (rank, suit) ∧
       (rank, suit) = Leduc._get_2d_card rules card1d ∧
       0 ≤ rank < N_RANKS rules ∧ 0 ≤ suit < N_SUITS rules ∧
       np_get2 lut_2d_1d rank suit = Some card1d) ∧
  (∀ rank suit, 0 ≤ rank < N_RANKS rules → 0 ≤ suit < N_SUITS rules →
     ∃ card1d,
       np_get2 lut_2d_1d rank suit = Some card1d ∧
       card1d = Leduc._get_1d_card rules (rank, suit) ∧
       0 ≤ card1d < N_CARDS_IN_DECK rules ∧
       np_get lut_1d_2d card1d = Some (rank, suit)).
Proof.
  intros Hok H1 H2. pose proof Hok as (HR & HS & HN & H8).
  assert (N_SUITS rules ≤ 128) by nia.
  assert (N_RANKS rules ≤ 128) by nia.
  rewrite Leduc_1d_2_2d_table in H1 by nia.
  rewrite Leduc_2d_2_1d_table in H2 by lia.
  injection H1 as <-. injection H2 as <-.
  split.
  - intros c Hc.
    destruct (Leduc_get_2d_card_range rules c Hok Hc) as (E & Hr & Hs).
    exists (c `div` N_SUITS rules), (c `mod` N_SUITS rules).
    rewrite np_get_fmap_range by done.
    split; [by rewrite E|]. split; [done|]. split; [done|]. split; [done|].
    rewrite (np_get2_fmap_range
      (λ r s, int8 (Leduc._get_1d_card rules (int8 r, int8 s)))) by done.
    rewrite !(int8_small (_ `div` _)), !(int8_small (_ `mod` _)) by lia.
    rewrite <- E, Leduc_1d_2d_1d by done. f_equal. apply int8_small. lia.
  - intros r s Hr Hs.
    destruct (Leduc_get_1d_card_range rules r s Hok Hr Hs) as (E & Hc).
    exists (Leduc._get_1d_card rules (r, s)).
    rewrite (np_get2_fmap_range
      (λ r s, int8 (Leduc._get_1d_card rules (int8 r, int8 s)))) by done.
    rewrite (int8_small r), (int8_small s) by lia.
    split; [f_equal; rewrite E; apply int8_small; lia|].
    split; [done|]. split; [by rewrite E|].
    rewrite np_get_fmap_range by (by rewrite E).
    f_equal. by apply Leduc_2d_1d_2d.
Qed.

(** C6. Under well-formed rules both card tables of the single-card getter
    are built without error, and they are inverse to each other: every card
    id in [0, N_CARDS_IN_DECK) is sent to a (rank, suit) pair inside the
    grid that the other table sends back to the id, and every (rank, suit)
    pair of the grid is sent to a card id of the deck that the first table
    sends back to the pair. *)
Theorem card_conversions_inverse rules :
  deck_ok rules →
  ∃ lut_1d_2d lut_2d_1d,
    Leduc.get_1d_card_2_2d_card_LUT rules = Some lut_1d_2d ∧
    Leduc.get_2d_card_2_1d_card_LUT rules = Some lut_2d_1d ∧
    (∀ card1d, 0 ≤ card1d < N_CARDS_IN_DECK rules →
       ∃ rank suit,
         np_get lut_1d_2d card1d = Some (rank, suit) ∧
         (rank, suit) = Leduc._get_2d_card rules card1d ∧
         0 ≤ rank < N_RANKS rules ∧ 0 ≤ suit < N_SUITS rules ∧
         np_get2 lut_2d_1d rank suit = Some card1d) ∧
    (∀ rank suit, 0 ≤ rank < N_RANKS rules → 0 ≤ suit < N_SUITS rules →
       ∃ card1d,
         np_get2 lut_2d_1d rank suit = Some card1d ∧
         card1d = Leduc._get_1d_card rules (rank, suit) ∧
         0 ≤ card1d < N_CARDS_IN_DECK rules ∧
         np_get lut_1d_2d card1d = Some (rank, suit)).
Proof.
  intros Hok. pose proof Hok as (HR & HS & HN & H8).
  eexists _, _. split; [apply Leduc_1d_2_2d_table; nia|].
  split; [apply Leduc_2d_2_1d_table; lia|].
  apply card_conversions_tables; [done| |].
  - apply Leduc_1d_2_2d_table; nia.
  - apply Leduc_2d_2_1d_table; lia.
Qed.

Lemma leduc_rules_ok : deck_ok leduc_rules.
Proof. unfold deck_ok. simpl. lia. Qed.

Lemma card_conversions_inverse_witness :
  deck_ok leduc_rules ∧
  ∃ lut_1d_2d lut_2d_1d,
    Leduc.get_1d_card_2_2d_card_LUT leduc_rules = Some lut_1d_2d ∧
    Leduc.get_2d_card_2_1d_card_LUT leduc_rules = Some lut_2d_1d ∧
    (∀ card1d, 0 ≤ card1d < 6 →
       ∃ rank suit,
         np_get lut_1d_2d card1d = Some (rank, suit) ∧
         (rank, suit) = Leduc._get_2d_card leduc_rules card1d ∧
         0 ≤ rank < 3 ∧ 0 ≤ suit < 2 ∧
         np_get2 lut_2d_1d rank suit = Some card1d) ∧
    (∀ rank suit, 0 ≤ rank < 3 → 0 ≤ suit < 2 →
       ∃ card1d,
         np_get2 lut_2d_1d rank suit = Some card1d ∧
         card1d = Leduc._get_1d_card leduc_rules (rank, suit) ∧
         0 ≤ card1d < 6 ∧
         np_get lut_1d_2d card1d = Some (rank, suit)).
Proof.
  split; [unfold deck_ok; simpl; lia|].
  apply (card_conversions_inverse leduc_rules). unfold deck_ok. simpl. lia.
Defined.

(** ** Round and board counts *)

(** A loop that stores one computed value per key behaves like a dict
    comprehension. *)
Lemma for_each_store `{Countable K} {V} (f : K → option V) (xs : list K)
    (m0 : gmap K V) :
  (∀ x, x ∈ xs → is_Some (f x)) →
  ∃ m, for_each xs (λ r lut, v ← f r; Some (<[r:=v]> lut)) m0 = Some m
       ∧ (∀ r, r ∈ xs → m !! r = f r)
       ∧ (∀ r, r ∉ xs → m !! r = m0 !! r).
Proof.
  revert m0. induction xs as [|x xs IH]; intros m0 Hf.
  - exists m0. split; [done|]. split; [|done]. intros r Hr. by apply elem_of_nil in Hr.
  - destruct (Hf x) as [v Hv]; [left|].
    destruct (IH (<[x:=v]> m0)) as (m & Hm & Hin & Hout).
    { intros. apply Hf. by right. }
    exists m. split; [simpl; rewrite Hv; simpl; exact Hm|]. split.
    + intros r Hr. destruct (decide (r ∈ xs)) as [|Hn]; [by apply Hin|].
      apply elem_of_cons in Hr as [->|]; [|done].
      by rewrite Hout, lookup_insert_eq.
    + intros r Hr. apply not_elem_of_cons in Hr as [? ?].
      rewrite Hout by done. by apply lookup_insert_ne.
Qed.

Lemma n_cards_out_at_total rules r :
  get_n_cards_out_at_LUT rules !! r = Some
    match r with
    | PREFLOP => 0
    | FLOP => N_FLOP_CARDS rules
    | TURN => N_FLOP_CARDS rules + N_TURN_CARDS rules
    | RIVER => N_FLOP_CARDS rules + N_TURN_CARDS rules + N_RIVER_CARDS rules
    end.
Proof. by destruct r. Qed.

Lemma n_cards_dealt_in_transition_to_total rules r :
  get_n_cards_dealt_in_transition_to_LUT rules !! r = Some
    match r with
    | PREFLOP => 0
    | FLOP => N_FLOP_CARDS rules
    | TURN => N_TURN_CARDS rules
    | RIVER => N_RIVER_CARDS rules
    end.
Proof. by destruct r. Qed.

(** What the board-count table holds for any rules: the number of ways to
    pick, from the full rank-by-suit deck, as many cards as are dealt in the
    transition to the round. *)
Lemma n_boards_LUT_entries rules :
  ∃ lut, get_n_boards_LUT rules = Some lut ∧
    ∀ r, r ∈ ALL_ROUNDS_LIST rules →
      ∃ k, get_n_cards_dealt_in_transition_to_LUT rules !! r = Some k ∧
           lut !! r = Some (comb (N_RANKS rules * N_SUITS rules) k).
Proof.
  destruct (for_each_store
    (λ r, k ← get_n_cards_dealt_in_transition_to_LUT rules !! r;
          Some (comb (N_RANKS rules * N_SUITS rules) k))
    (ALL_ROUNDS_LIST rules) ∅) as (m & Hm & Hin & _).
  { intros r _. rewrite n_cards_dealt_in_transition_to_total. by eexists. }
  exists m. split.
  - unfold get_n_boards_LUT. rewrite <- Hm. apply for_each_ext.
    intros r lut _. by destruct (_ !! r).
  - intros r Hr. rewrite (Hin r Hr), n_cards_dealt_in_transition_to_total.
    by eexists.
Qed.

(** C3. At the turn of a 52-card four-street game three cards plus one are
    on the board, and the board-count table holds C(52, 1) = 52: the count is
    taken over the one card dealt in the transition, not over the four cards
    dealt through the round, for which C(52, 4) = 270725 (and C(48, 4) =
    194580 once four hole cards are set aside). The river entry is 52 as
    well. *)
Theorem n_boards_turn_counts_transition_only :
  ∃ lut, get_n_boards_LUT plo_rules = Some lut ∧
    get_n_cards_out_at_LUT plo_rules !! TURN = Some 4 ∧
    get_n_cards_dealt_in_transition_to_LUT plo_rules !! TURN = Some 1 ∧
    lut !! FLOP = Some 22100 ∧
    lut !! TURN = Some 52 ∧
    lut !! RIVER = Some 52 ∧
    comb 52 4 = 270725 ∧
    comb (52 - 4) 4 = 194580 ∧
    lut !! TURN ≠ Some (comb 52 4) ∧
    lut !! TURN ≠ Some (comb (52 - 4) 4).
Proof.
  eexists. split; [vm_compute; reflexivity|].
  repeat split; try (vm_compute; reflexivity); vm_compute; discriminate.
Qed.

Lemma n_board_branches_total rules :
  (∀ r, r ∈ ALL_ROUNDS_LIST rules → r ≠ PREFLOP → is_Some (ROUND_BEFORE rules !! r)) →
  is_Some (get_n_board_branches_LUT rules).
Proof.
  intros Hbefore.
  set (f := λ r : Round,
    before ← ROUND_BEFORE rules !! r;
    out ← get_n_cards_out_at_LUT rules !! before;
    k ← get_n_cards_dealt_in_transition_to_LUT rules !! r;
    Some (get_range_size k (N_CARDS_IN_DECK rules - out - N_HOLE_CARDS rules))).
  destruct (for_each_store f
    (filter (λ _r, _r ≠ PREFLOP) (ALL_ROUNDS_LIST rules))
    {[ PREFLOP := 0 ]}) as (m & Hm & _).
  { intros r [Hne Hr]%list_elem_of_filter. destruct (Hbefore r Hr Hne) as [b Hb].
    unfold f. rewrite Hb. simpl. rewrite n_cards_out_at_total. simpl.
    rewrite n_cards_dealt_in_transition_to_total. by eexists. }
  exists m. unfold get_n_board_branches_LUT. rewrite <- Hm. apply for_each_ext.
  intros r lut _. unfold f.
  destruct (ROUND_BEFORE rules !! r); simpl; [|done].
  destruct (get_n_cards_out_at_LUT rules !! _); simpl; [|done].
  by destruct (get_n_cards_dealt_in_transition_to_LUT rules !! r).
Qed.

(** C7. When every later round of the rules has a predecessor, the
    board-branch table is built; its preflop entry is 0, and the entry of
    every other round r of the round list is
    C(N_CARDS_IN_DECK - cards out at the round before r - N_HOLE_CARDS,
      cards dealt in the transition to r). *)
Theorem n_board_branches_entries rules :
  (∀ r, r ∈ ALL_ROUNDS_LIST rules → r ≠ PREFLOP → is_Some (ROUND_BEFORE rules !! r)) →
  ∃ lut, get_n_board_branches_LUT rules = Some lut ∧
    lut !! PREFLOP = Some 0 ∧
    ∀ r, r ∈ ALL_ROUNDS_LIST rules → r ≠ PREFLOP →
      ∃ before out dealt,
        ROUND_BEFORE rules !! r = Some before ∧
        get_n_cards_out_at_LUT rules !! before = Some out ∧
        get_n_cards_dealt_in_transition_to_LUT rules !! r = Some dealt ∧
        lut !! r = Some (comb (N_CARDS_IN_DECK rules - out - N_HOLE_CARDS rules) dealt).
Proof.
  intros Hbefore.
  set (f := λ r : Round,
    before ← ROUND_BEFORE rules !! r;
    out ← get_n_cards_out_at_LUT rules !! before;
    k ← get_n_cards_dealt_in_transition_to_LUT rules !! r;
    Some (get_range_size k (N_CARDS_IN_DECK rules - out - N_HOLE_CARDS rules))).
  destruct (for_each_store f
    (filter (λ _r, _r ≠ PREFLOP) (ALL_ROUNDS_LIST rules))
    {[ PREFLOP := 0 ]}) as (m & Hm & Hin & Hout).
  { intros r [Hne Hr]%list_elem_of_filter. destruct (Hbefore r Hr Hne) as [b Hb].
    unfold f. rewrite Hb. simpl. rewrite n_cards_out_at_total. simpl.
    rewrite n_cards_dealt_in_transition_to_total. by eexists. }
  exists m. split; [|split].
  - unfold get_n_board_branches_LUT. rewrite <- Hm. apply for_each_ext.
    intros r lut _. unfold f.
    destruct (ROUND_BEFORE rules !! r); simpl; [|done].
    destruct (get_n_cards_out_at_LUT rules !! _); simpl; [|done].
    by destruct (get_n_cards_dealt_in_transition_to_LUT rules !! r).
  - rewrite Hout; [apply lookup_singleton_eq|].
    intros [Hne _]%list_elem_of_filter. done.
  - intros r Hr Hne. destruct (Hbefore r Hr Hne) as [b Hb].
    eexists b, _, _. split; [done|].
    split; [apply n_cards_out_at_total|].
    split; [apply n_cards_dealt_in_transition_to_total|].
    rewrite Hin by (by apply list_elem_of_filter).
    unfold f. rewrite Hb. simpl. rewrite n_cards_out_at_total. simpl.
    by rewrite n_cards_dealt_in_transition_to_total.
Qed.

Lemma n_board_branches_entries_witness :
  ∃ lut, get_n_board_branches_LUT plo_rules = Some lut ∧
    lut !! PREFLOP = Some 0 ∧
    ∀ r, r ∈ ALL_ROUNDS_LIST plo_rules → r ≠ PREFLOP →
      ∃ before out dealt,
        ROUND_BEFORE plo_rules !! r = Some before ∧
        get_n_cards_out_at_LUT plo_rules !! before = Some out ∧
        get_n_cards_dealt_in_transition_to_LUT plo_rules !! r = Some dealt ∧
        lut !! r = Some (comb (N_CARDS_IN_DECK plo_rules - out - N_HOLE_CARDS plo_rules) dealt).
Proof.
  apply (n_board_branches_entries plo_rules).
  intros r _ _. destruct r; vm_compute; eauto.
Defined.

Example n_board_branches_plo :
  (get_n_board_branches_LUT plo_rules ≫= λ lut, mapM (lut !!.) four_streets)
  = Some [0; 17296; 45; 44].
Proof. vm_compute. reflexivity. Qed.

(** ** Batch conversions of the holder *)

Section batch_conversions.
Context {HC2IDX : Type} (tk : Tokens) (rules : Rules) (self : LutHolder HC2IDX).
Hypothesis Htk : tokens_ok tk.
Hypothesis Hshape : card_tables_shaped rules self.

Lemma mask_token_token : mask_token tk (CARD_NOT_DEALT_TOKEN_1D tk) = 0.
Proof. unfold mask_token. by rewrite bool_decide_eq_true_2. Qed.

Lemma mask_token_other x : 0 ≤ x → mask_token tk x = x.
Proof.
  intros. unfold mask_token. rewrite bool_decide_eq_false_2; [done|].
  destruct Htk. lia.
Qed.

Lemma lookup_2d_1d_is_Some r s :
  0 ≤ r < N_RANKS rules → 0 ≤ s < N_SUITS rules →
  is_Some (np_get2 (LUT_2DCARD_2_1DCARD self) r s).
Proof.
  intros Hr Hs. destruct Hshape as (_ & _ & _ & _ & Hrows & Hcols).
  destruct (lookup_lt_is_Some_2 (LUT_2DCARD_2_1DCARD self) (Z.to_nat r)) as [row Hrow];
    [lia|].
  assert (Z.of_nat (length row) = N_SUITS rules) as Hlen.
  { eapply (proj1 (Forall_forall _ _) Hcols), list_elem_of_lookup_2, Hrow. }
  erewrite np_get2_in by (done || lia).
  apply lookup_lt_is_Some_2. lia.
Qed.

Lemma lookup_1d_2d_is_Some c :
  0 ≤ c < N_CARDS_IN_DECK rules → is_Some (np_get (LUT_1DCARD_2_2DCARD self) c).
Proof.
  intros Hc. destruct Hshape as (_ & _ & _ & Hlen & _).
  rewrite np_get_in by lia. apply lookup_lt_is_Some_2. lia.
Qed.

Lemma get_1d_cards_entries cards :
  Forall (λ card, card = CARD_NOT_DEALT_TOKEN_2D tk ∨ is_card_2d rules card) cards →
  ∃ out, get_1d_cards tk self (Entries cards) = Some out
         ∧ Forall2 (converted_1d tk rules self) cards out.
Proof.
  intros Hcards. pose proof Htk as [Hneg H2d].
  pose proof Hshape as (HN & HR & HS & _).
  set (look := λ a : Z * Z, np_get2 (LUT_2DCARD_2_1DCARD self) a.1 a.2).
  set (mask := λ card : Z * Z, (mask_token tk card.1, mask_token tk card.2)).
  assert (is_Some (mapM look (mask <$> cards))) as [looked Hlooked].
  { apply mapM_is_Some_2, Forall_fmap. eapply Forall_impl; [exact Hcards|].
    intros card [->|[Hr Hs]]; unfold compose, look, mask; simpl.
    - rewrite H2d. simpl. rewrite mask_token_token.
      apply lookup_2d_1d_is_Some; lia.
    - rewrite !mask_token_other by lia. by apply lookup_2d_1d_is_Some. }
  exists (zip_with
            (λ (card : Z * Z) v,
               if bool_decide (card.1 = CARD_NOT_DEALT_TOKEN_1D tk)
               then CARD_NOT_DEALT_TOKEN_1D tk else v) cards looked).
  split.
  { unfold get_1d_cards. destruct cards as [|card cards']; [|fold mask look].
    - simpl in Hlooked. by simplify_eq.
    - by rewrite Hlooked. }
  apply mapM_Some_1, Forall2_fmap_l in Hlooked.
  clear -Hlooked Hcards Hneg H2d Htk. induction Hlooked as [|card v cards looked Hv _ IH].
  - constructor.
  - apply Forall_cons in Hcards as [Hcard Hcards]. simpl.
    constructor; [|by apply IH].
    destruct Hcard as [->|[Hr Hs]].
    + left. rewrite H2d. simpl. by rewrite bool_decide_eq_true_2.
    + right. rewrite bool_decide_eq_false_2 by lia.
      split; [done|]. split; [rewrite H2d; intros ->; simpl in *; lia|].
      unfold look, mask in Hv. simpl in Hv.
      by rewrite !mask_token_other in Hv by lia.
Qed.

Lemma get_2d_cards_entries cards :
  Forall (λ c, c = CARD_NOT_DEALT_TOKEN_1D tk ∨ 0 ≤ c < N_CARDS_IN_DECK rules) cards →
  ∃ out, get_2d_cards tk self (Entries cards) = Some out
         ∧ Forall2 (converted_2d tk rules self) cards out.
Proof.
  intros Hcards. pose proof Htk as [Hneg H2d].
  pose proof Hshape as (HN & HR & HS & _).
  assert (is_Some (mapM (np_get (LUT_1DCARD_2_2DCARD self)) (mask_token tk <$> cards)))
    as [looked Hlooked].
  { apply mapM_is_Some_2, Forall_fmap. eapply Forall_impl; [exact Hcards|].
    intros c [->|Hc]; unfold compose; simpl.
    - rewrite mask_token_token. apply lookup_1d_2d_is_Some. lia.
    - rewrite mask_token_other by lia. by apply lookup_1d_2d_is_Some. }
  exists (zip_with
            (λ c card,
               if bool_decide (c = CARD_NOT_DEALT_TOKEN_1D tk)
               then CARD_NOT_DEALT_TOKEN_2D tk else card) cards looked).
  split.
  { unfold get_2d_cards. destruct cards as [|c cards'].
    - simpl in Hlooked. by simplify_eq.
    - by rewrite Hlooked. }
  apply mapM_Some_1, Forall2_fmap_l in Hlooked.
  clear -Hlooked Hcards Hneg Htk. induction Hlooked as [|c v cards looked Hv _ IH].
  - constructor.
  - apply Forall_cons in Hcards as [Hc Hcards]. simpl.
    constructor; [|by apply IH].
    destruct Hc as [->|Hc].
    + left. by rewrite bool_decide_eq_true_2.
    + right. rewrite bool_decide_eq_false_2 by lia.
      split; [done|]. split; [lia|].
      simpl in Hv. by rewrite mask_token_other in Hv by lia.
Qed.

End batch_conversions.

Lemma leduc_holder_built : LutHolderLeduc leduc_rules = Some leduc_holder.
Proof. vm_compute. reflexivity. Qed.

(** C5. With reserved tokens and card tables of the prescribed shape, the
    batch conversions return a result for every sequence whose entries are
    the "not dealt" token or a card: entry by entry, a token entry yields the
    token of the other representation and any other entry yields its cell
    of the conversion table. The result has the length of the input. *)
Theorem batch_conversions_pass_tokens {HC2IDX} (tk : Tokens) (rules : Rules)
    (self : LutHolder HC2IDX) (cards_2d : list (Z * Z)) (cards_1d : list Z) :
  tokens_ok tk → card_tables_shaped rules self →
  Forall (λ card, card = CARD_NOT_DEALT_TOKEN_2D tk ∨ is_card_2d rules card) cards_2d →
  Forall (λ c, c = CARD_NOT_DEALT_TOKEN_1D tk ∨ 0 ≤ c < N_CARDS_IN_DECK rules) cards_1d →
  (∃ out, get_1d_cards tk self (Entries cards_2d) = Some out
          ∧ Forall2 (converted_1d tk rules self) cards_2d out)
  ∧ (∃ out, get_2d_cards tk self (Entries cards_1d) = Some out
            ∧ Forall2 (converted_2d tk rules self) cards_1d out).
Proof.
  intros Htk Hshape H2 H1. split.
  - by apply get_1d_cards_entries.
  - by apply get_2d_cards_entries.
Qed.

Lemma batch_conversions_pass_tokens_witness :
  (∃ out, get_1d_cards poker_tokens leduc_holder (Entries [(1, 0); (-1, -1); (2, 1)]) = Some out
          ∧ Forall2 (converted_1d poker_tokens leduc_rules leduc_holder)
              [(1, 0); (-1, -1); (2, 1)] out)
  ∧ (∃ out, get_2d_cards poker_tokens leduc_holder (Entries [-1; 4; 0]) = Some out
            ∧ Forall2 (converted_2d poker_tokens leduc_rules leduc_holder) [-1; 4; 0] out).
Proof.
  apply (batch_conversions_pass_tokens poker_tokens leduc_rules leduc_holder).
  - unfold tokens_ok. simpl. split; [lia|reflexivity].
  - unfold card_tables_shaped. simpl. repeat split; try lia.
    repeat constructor.
  - unfold is_card_2d.
    repeat (apply Forall_cons; split;
            [first [left; reflexivity | right; simpl; lia]|]).
    apply Forall_nil_2.
  - repeat (apply Forall_cons; split;
            [first [left; reflexivity | right; simpl; lia]|]).
    apply Forall_nil_2.
Defined.

Example get_1d_cards_leduc :
  get_1d_cards poker_tokens leduc_holder (Entries [(1, 0); (-1, -1); (2, 1)])
  = Some [2; -1; 5].
Proof. vm_compute. reflexivity. Qed.

Example get_2d_cards_leduc :
  get_2d_cards poker_tokens leduc_holder (Entries [-1; 4; 0])
  = Some [(-1, -1); (2, 0); (0, 0)].
Proof. vm_compute. reflexivity. Qed.

(** C10. For a zero-dimensional argument and for an argument with no
    entries, both batch conversions return the empty array, whatever the
    tables of the holder are (they are not read). *)
Theorem batch_conversions_empty {HC2IDX} (tk : Tokens) (self : LutHolder HC2IDX)
    (x : Z * Z) (y : Z) :
  get_1d_cards tk self (ZeroDim x) = Some []
  ∧ get_1d_cards tk self (Entries []) = Some []
  ∧ get_2d_cards tk self (ZeroDim y) = Some []
  ∧ get_2d_cards tk self (Entries []) = Some [].
Proof. repeat split. Qed.

(** The early return does not depend on the tables: it also happens on a
    holder whose tables are empty, where any lookup would raise. *)
Example batch_conversions_empty_tables :
  let self := mk_holder (HC2IDX := ndarray) [] [] [] [] [] (mk_ndarray [] 0 ∅) [] ∅ ∅ ∅ ∅ in
  get_2d_cards poker_tokens self (Entries []) = Some []
  ∧ get_2d_cards poker_tokens self (Entries [0]) = None
  ∧ get_1d_cards poker_tokens self (Entries []) = Some []
  ∧ get_1d_cards poker_tokens self (Entries [(0, 0)]) = None.
Proof. repeat split. Qed.

(** ** Order of the hole cards handed to the holders *)

Lemma mapM_Permutation {A B} (f : A → option B) (l l' : list A) :
  l ≡ₚ l' →
  match mapM f l, mapM f l' with
  | Some k, Some k' => k ≡ₚ k'
  | None, None => True
  | _, _ => False
  end.
Proof.
  induction 1 as [|x l l' _ IH|x y l|l l' l'' _ IH1 _ IH2]; simpl.
  - done.
  - destruct (f x); simpl; [|done].
    destruct (mapM f l), (mapM f l'); simpl; try done. by constructor.
  - destruct (f x), (f y); simpl; try done.
    destruct (mapM f l); simpl; [|done]. apply perm_swap.
  - destruct (mapM f l), (mapM f l'), (mapM f l''); try done. by etrans.
Qed.

Lemma py_sort_Permutation l l' : l ≡ₚ l' → py_sort l = py_sort l'.
Proof.
  intros Hp. unfold py_sort.
  apply (StronglySorted_unique Z.le).
  - apply StronglySorted_merge_sort; apply _.
  - apply StronglySorted_merge_sort; apply _.
  - by rewrite !merge_sort_Permutation.
Qed.

Lemma Holdem_get_range_idx_swap self a b :
  Holdem_get_range_idx_from_hole_cards self [a; b]
  = Holdem_get_range_idx_from_hole_cards self [b; a].
Proof.
  unfold Holdem_get_range_idx_from_hole_cards.
  rewrite !np_get_in by (simpl; lia). simpl.
  destruct (np_get2 _ a.1 a.2) as [c1|], (np_get2 _ b.1 b.2) as [c2|]; simpl; try done.
  by rewrite Z.min_comm, Z.max_comm.
Qed.

(** C9. Two orderings of the same hole cards get the same answer from the
    holders: the two-card holder on a hand of two cards, the four-card
    holder on any hand. The answer is the same range index, or the same
    failure when a card is not in the card table. *)
Theorem range_idx_order_irrelevant (self : LutHolder ndarray) (hc hc' : list (Z * Z)) :
  hc ≡ₚ hc' →
  (length hc = 2%nat →
   Holdem_get_range_idx_from_hole_cards self hc
   = Holdem_get_range_idx_from_hole_cards self hc')
  ∧ PLO_get_range_idx_from_hole_cards self hc
    = PLO_get_range_idx_from_hole_cards self hc'.
Proof.
  intros Hp. split.
  - intros Hlen. pose proof (Permutation_length Hp) as Hlen'.
    destruct hc as [|a [|b [|]]]; try done.
    destruct hc' as [|a' [|b' [|]]]; try done.
    apply Permutation_length_2 in Hp as [[-> ->]|[-> ->]]; [done|].
    apply Holdem_get_range_idx_swap.
  - unfold PLO_get_range_idx_from_hole_cards.
    pose proof (mapM_Permutation
      (λ c : Z * Z, np_get2 (LUT_2DCARD_2_1DCARD self) c.1 c.2) hc hc' Hp) as Hm.
    destruct (mapM _ hc) as [l|], (mapM _ hc') as [l'|]; try done. simpl.
    by rewrite (py_sort_Permutation l l').
Qed.

Lemma range_idx_order_irrelevant_witness :
  let self := sample_holder (PLO.get_hole_card_2_idx_LUT plo_rules) in
  (length [(12, 3); (0, 1); (5, 2); (0, 0)] = 2%nat →
   Holdem_get_range_idx_from_hole_cards self [(12, 3); (0, 1); (5, 2); (0, 0)]
   = Holdem_get_range_idx_from_hole_cards self [(0, 0); (0, 1); (5, 2); (12, 3)])
  ∧ PLO_get_range_idx_from_hole_cards self [(12, 3); (0, 1); (5, 2); (0, 0)]
    = PLO_get_range_idx_from_hole_cards self [(0, 0); (0, 1); (5, 2); (12, 3)].
Proof.
  apply (range_idx_order_irrelevant
    (sample_holder (PLO.get_hole_card_2_idx_LUT plo_rules))).
  apply (Permutation_trans (l' := [(0, 0); (12, 3); (0, 1); (5, 2)])).
  - change ([(12, 3); (0, 1); (5, 2)] ++ [(0, 0)] ≡ₚ [(0, 0)] ++ [(12, 3); (0, 1); (5, 2)]).
    apply Permutation_app_comm.
  - apply perm_skip.
    change ([(12, 3)] ++ [(0, 1); (5, 2)] ≡ₚ [(0, 1); (5, 2)] ++ [(12, 3)]).
    apply Permutation_app_comm.
Defined.

(** ** The single-card holder *)

Lemma binom_1 n : binom n 1 = Z.of_nat n.
Proof.
  induction n as [|n IH]; [done|].
  change (binom (S n) 1) with (binom n 0 + binom n 1). rewrite IH.
  destruct n; simpl; lia.
Qed.

Lemma binom_0 n : binom n 0 = 1.
Proof. by destruct n. Qed.

Lemma comb_1 N : 0 ≤ N → comb N 1 = N.
Proof.
  intros. unfold comb. case_bool_decide.
  - lia.
  - change (Z.to_nat 1) with 1%nat. rewrite binom_1. lia.
Qed.

Lemma comb_0 N : 0 ≤ N → comb N 0 = 1.
Proof.
  intros. unfold comb. rewrite bool_decide_eq_false_2 by lia. apply binom_0.
Qed.

Lemma LutHolderLeduc_tables rules self :
  LutHolderLeduc rules = Some self →
  Leduc.get_1d_card_2_2d_card_LUT rules = Some (LUT_1DCARD_2_2DCARD self)
  ∧ Leduc.get_2d_card_2_1d_card_LUT rules = Some (LUT_2DCARD_2_1DCARD self)
  ∧ LUT_IDX_2_HOLE_CARDS self = Leduc.get_idx_2_hole_card_LUT rules
  ∧ LUT_HOLE_CARDS_2_IDX self = Leduc.get_hole_card_2_idx_LUT rules
  ∧ LUT_CARD_IN_WHAT_RANGE_IDXS self = Leduc.get_card_in_what_range_idxs_LUT rules.
Proof.
  unfold LutHolderLeduc, _LutHolderBase_init. simpl.
  destruct (Leduc.get_1d_card_2_2d_card_LUT rules) as [t1|]; simpl; [|done].
  destruct (Leduc.get_2d_card_2_1d_card_LUT rules) as [t2|]; simpl; [|done].
  destruct (get_range_idx_to_private_obs_LUT rules _ _ false); simpl; [|done].
  destruct (get_range_idx_to_private_obs_LUT rules _ _ true); simpl; [|done].
  destruct (get_n_boards_LUT rules); simpl; [|done].
  destruct (get_n_board_branches_LUT rules); simpl; [|done].
  intros [= <-]. done.
Qed.

Lemma Leduc_tables_shaped rules self :
  deck_ok rules → LutHolderLeduc rules = Some self → card_tables_shaped rules self.
Proof.
  intros Hok (H1 & H2 & _)%LutHolderLeduc_tables.
  pose proof Hok as (HR & HS & HN & H8).
  rewrite Leduc_1d_2_2d_table in H1 by nia.
  rewrite Leduc_2d_2_1d_table in H2 by lia.
  injection H1 as H1. injection H2 as H2.
  unfold card_tables_shaped. rewrite <- H1, <- H2, !length_fmap, !length_range.
  repeat split; try lia; try nia.
  apply Forall_fmap, Forall_forall. intros r _. simpl.
  rewrite length_fmap, length_range. lia.
Qed.

(** The tables of a single-card holder that was built, and what its
    functions return on them. *)
Lemma leduc_holder_identity (tk : Tokens) (rules : Rules)
    (self : LutHolder (list (list Z))) :
  tokens_ok tk → deck_ok rules → N_HOLE_CARDS rules = 1 →
  LutHolderLeduc rules = Some self →
  RANGE_SIZE rules = N_CARDS_IN_DECK rules
  ∧ Z.of_nat (length (LUT_IDX_2_HOLE_CARDS self)) = N_CARDS_IN_DECK rules
  ∧ ∀ c, 0 ≤ c < N_CARDS_IN_DECK rules →
      np_get (LUT_IDX_2_HOLE_CARDS self) c = Some [c]
      ∧ np_get2 (LUT_HOLE_CARDS_2_IDX self) c 0 = Some c
      ∧ get_1d_hole_cards_from_range_idx self c = Some [c]
      ∧ ∃ card, np_get (LUT_1DCARD_2_2DCARD self) c = Some card
                ∧ Leduc_get_range_idx_from_hole_cards tk self (Entries [card]) = Some c
                ∧ Leduc_get_2d_hole_cards_from_range_idx self c = Some [card].
Proof.
  intros Htk Hok Hk Hself.
  pose proof (Leduc_tables_shaped rules self Hok Hself) as Hshape.
  destruct (LutHolderLeduc_tables rules self Hself) as (H1 & H2 & H3 & H4 & _).
  destruct (card_conversions_tables rules _ _ Hok H1 H2) as (Hinv1 & _).
  pose proof Hok as (HR & HS & HN & H8).
  split; [unfold RANGE_SIZE, get_range_size; rewrite Hk; apply comb_1; nia|].
  split.
  { rewrite H3. unfold Leduc.get_idx_2_hole_card_LUT, np_expand_dims, np_arange.
    rewrite length_fmap, length_range. nia. }
  intros c Hc.
  assert (np_get (LUT_IDX_2_HOLE_CARDS self) c = Some [c]) as Hrow.
  { rewrite H3. apply (np_get_fmap_range (λ x, [x])). done. }
  assert (np_get2 (LUT_HOLE_CARDS_2_IDX self) c 0 = Some c) as Hcell.
  { rewrite H4. unfold np_get2, Leduc.get_hole_card_2_idx_LUT, np_expand_dims, np_arange.
    rewrite (np_get_fmap_range (λ x, [x])) by done. done. }
  split; [done|]. split; [done|]. split; [done|].
  destruct (Hinv1 c Hc) as (rank & suit & Hget & _ & Hr & Hs & Hback).
  exists (rank, suit). split; [done|]. split.
  - unfold Leduc_get_range_idx_from_hole_cards.
    destruct (get_1d_cards_entries tk rules self Htk Hshape [(rank, suit)])
      as (out & -> & Hout).
    { constructor; [right; done|constructor]. }
    simpl. apply Forall2_cons_inv_l in Hout as (v & out' & Hv & ->%Forall2_nil_inv_l & ->).
    destruct Hv as [[Htok _]|(_ & _ & Hv)].
    + destruct Htk as [Hneg H2d]. rewrite H2d in Htok. simplify_eq. lia.
    + simpl in Hv. rewrite Hback in Hv. injection Hv as <-.
      by rewrite np_get_in by (simpl; lia).
  - unfold Leduc_get_2d_hole_cards_from_range_idx, np_get2.
    rewrite Hrow, bind_Some_eq. cbv beta.
    rewrite np_get_in by (simpl; lia). simpl.
    by rewrite Hget.
Qed.


(** ** Combinations *)

Lemma combinations_0 {A} (l : list A) : combinations 0 l = [[]].
Proof. by destruct l. Qed.

Lemma combinations_S_cons {A} r (x : A) l :
  combinations (S r) (x :: l) = ((x ::.) <$> combinations r l) ++ combinations (S r) l.
Proof. done. Qed.

Lemma binom_lt n k : (n < k)%nat → binom n k = 0.
Proof.
  revert k. induction n as [|n IH]; intros [|k] Hk; try done; try lia.
  change (binom (S n) (S k)) with (binom n k + binom n (S k)).
  rewrite !IH by lia. done.
Qed.

Lemma binom_nonneg n k : 0 ≤ binom n k.
Proof.
  revert k. induction n as [|n IH]; intros [|k]; try done.
  change (binom (S n) (S k)) with (binom n k + binom n (S k)).
  pose proof (IH k). pose proof (IH (S k)). lia.
Qed.

Lemma comb_binom (N : Z) (k : nat) :
  0 ≤ N → comb N (Z.of_nat k) = binom (Z.to_nat N) k.
Proof.
  intros. unfold comb. rewrite Nat2Z.id. case_bool_decide as Hd; [|done].
  symmetry. apply binom_lt. lia.
Qed.

Lemma length_combinations {A} r (l : list A) :
  Z.of_nat (length (combinations r l)) = binom (length l) r.
Proof.
  revert r. induction l as [|x l IH]; intros [|r]; try done.
  rewrite combinations_S_cons, length_app, length_fmap, Nat2Z.inj_add, !IH.
  done.
Qed.

Lemma length_combinations_range (k : nat) N :
  0 ≤ N → Z.of_nat (length (combinations k (range 0 N))) = comb N (Z.of_nat k).
Proof.
  intros. rewrite length_combinations, length_range, comb_binom by done.
  by rewrite Z.sub_0_r.
Qed.

(** The first card of a combination of a range is any card [i] of the range,
    the others are a combination of the cards after [i]: the nested loops. *)
Lemma combinations_range_S r a b :
  combinations (S r) (range a b)
  = range a b ≫= λ i, (i ::.) <$> combinations r (range (i + 1) b).
Proof.
  remember (Z.to_nat (b - a)) as n eqn:Hn. revert a Hn.
  induction n as [|n IH]; intros a Hn.
  - by rewrite range_nil by lia.
  - rewrite (range_cons a b) by lia.
    rewrite combinations_S_cons, bind_cons. f_equal. apply IH. lia.
Qed.

Lemma for_each_combinations_0 {A St} (l : list A) (body : list A → St → option St) s :
  for_each (combinations 0 l) body s = body [] s.
Proof. rewrite combinations_0. simpl. by destruct (body [] s). Qed.

Lemma for_each_combinations_S {St} r a b (body : list Z → St → option St) s :
  for_each (combinations (S r) (range a b)) body s
  = for_each (range a b)
      (λ i, for_each (combinations r (range (i + 1) b)) (λ key, body (i :: key))) s.
Proof.
  rewrite combinations_range_S, for_each_bind. apply for_each_ext.
  intros i s' _. apply for_each_fmap.
Qed.

Lemma elem_of_combinations_range r a b h :
  h ∈ combinations r (range a b)
  ↔ length h = r ∧ StronglySorted Z.lt h ∧ Forall (λ c, a ≤ c < b) h.
Proof.
  revert a h. induction r as [|r IH]; intros a h.
  - rewrite combinations_0, list_elem_of_singleton. split.
    + intros ->. repeat split; constructor.
    + intros (Hl & _ & _). by destruct h.
  - rewrite combinations_range_S, list_elem_of_bind. split.
    + intros (i & (h' & -> & Hh')%list_elem_of_fmap & Hi%elem_of_range).
      apply IH in Hh' as (Hl & Hs & Hb). split; [simpl; lia|]. split.
      * constructor; [done|]. eapply Forall_impl; [exact Hb|]. simpl. lia.
      * constructor; [lia|]. eapply Forall_impl; [exact Hb|]. simpl. lia.
    + intros (Hl & Hs & Hb). destruct h as [|i h']; [done|].
      apply StronglySorted_cons in Hs as [Hlt Hs].
      apply Forall_cons in Hb as [Hi Hb].
      exists i. split; [|by apply elem_of_range].
      apply list_elem_of_fmap. exists h'. split; [done|].
      apply IH. split; [simpl in Hl; lia|]. split; [done|].
      apply Forall_forall. intros c Hc.
      pose proof (proj1 (Forall_forall _ _) Hlt c Hc).
      pose proof (proj1 (Forall_forall _ _) Hb c Hc). simpl in *. lia.
Qed.

Lemma NoDup_combinations_range r a b : NoDup (combinations r (range a b)).
Proof.
  revert a. induction r as [|r IH]; intros a.
  - rewrite combinations_0. apply NoDup_singleton.
  - rewrite combinations_range_S. apply NoDup_bind.
    + intros i1 i2 h _ _ (h1 & -> & _)%list_elem_of_fmap (h2 & [= -> _] & _)%list_elem_of_fmap.
      done.
    + intros i _. apply NoDup_fmap_2; [|apply IH]. by intros ?? [=].
    + apply NoDup_range.
Qed.

Lemma combinations_head {A} r (l : list A) h :
  h ∈ combinations (S r) l → ∃ y h', h = y :: h' ∧ y ∈ l.
Proof.
  induction l as [|x l IH]; [by intros ?%elem_of_nil|].
  rewrite combinations_S_cons, elem_of_app.
  intros [(h' & -> & _)%list_elem_of_fmap|Hh].
  - exists x, h'. split; [done|left].
  - destruct (IH Hh) as (y & h' & -> & Hy). exists y, h'. split; [done|by right].
Qed.

Lemma lex_lt_combinations r (l : list Z) :
  StronglySorted Z.lt l → StronglySorted lex_lt (combinations r l).
Proof.
  intros Hl. revert r. induction Hl as [|x l Hl IH Hx]; intros [|r].
  - repeat constructor.
  - constructor.
  - rewrite combinations_0. repeat constructor.
  - rewrite combinations_S_cons. apply StronglySorted_app_2.
    + intros h1 h2 (h1' & -> & _)%list_elem_of_fmap Hh2.
      destruct (combinations_head _ _ _ Hh2) as (y & h2' & -> & Hy).
      simpl. left. by apply (proj1 (Forall_forall _ _) Hx).
    + apply (StronglySorted_fmap _ lex_lt lex_lt); [|apply IH].
      intros h1 h2 Hlt. simpl. by right.
    + apply IH.
Qed.

Lemma StronglySorted_range a b : StronglySorted Z.lt (range a b).
Proof.
  remember (Z.to_nat (b - a)) as n eqn:Hn. revert a Hn.
  induction n as [|n IH]; intros a Hn.
  - rewrite range_nil by lia. constructor.
  - rewrite range_cons by lia. constructor; [apply IH; lia|].
    apply Forall_forall. intros c Hc%elem_of_range. lia.
Qed.

Lemma StronglySorted_lookup_lt {A} (R : relation A) (l : list A) (i j : nat) x y :
  StronglySorted R l → (i < j)%nat → l !! i = Some x → l !! j = Some y → R x y.
Proof.
  intros Hl. revert i j. induction Hl as [|z l Hl IH Hz]; intros i j Hij Hi Hj.
  - done.
  - destruct j as [|j]; [lia|]. simpl in Hj. destruct i as [|i].
    + simpl in Hi. injection Hi as ->.
      eapply (proj1 (Forall_forall _ _) Hz), list_elem_of_lookup_2, Hj.
    + simpl in Hi. apply (IH i j); [lia|done..].
Qed.

(** ** Numbering the keys of a dense table *)

Lemma nd_key_in_shape shape key :
  in_shape shape key → nd_key shape key = Some (Z.to_nat <$> key).
Proof.
  induction 1 as [|n i shape key Hi _ IH]; [done|]. simpl.
  rewrite np_norm_in by lia. simpl. by rewrite IH.
Qed.

Lemma in_shape_to_nat_inj shape k1 k2 :
  in_shape shape k1 → in_shape shape k2 →
  Z.to_nat <$> k1 = Z.to_nat <$> k2 → k1 = k2.
Proof.
  intros H1. revert k2. induction H1 as [|n i shape k1 Hi _ IH]; intros k2 H2 Heq.
  - by inversion H2.
  - inversion H2 as [|n' j shape' k2' Hj H2']; subst. simpl in Heq.
    injection Heq as Hij Heq. f_equal; [lia|by apply IH].
Qed.

Lemma in_shape_replicate (k : nat) N key :
  length key = k → Forall (λ c, 0 ≤ c < N) key → in_shape (replicate k N) key.
Proof.
  intros <- Hkey. induction Hkey; constructor; done.
Qed.

Lemma store_next_all cast keys lut0 n0 :
  (∀ key, key ∈ keys → in_shape (nd_shape lut0) key) → NoDup keys →
  ∃ lut,
    for_each keys (store_next cast) (lut0, n0)
    = Some (lut, n0 + Z.of_nat (length keys))
    ∧ nd_shape lut = nd_shape lut0
    ∧ (∀ (i : nat) key, keys !! i = Some key →
         nd_get lut key = Some (cast (n0 + Z.of_nat i)))
    ∧ (∀ key, in_shape (nd_shape lut0) key → key ∉ keys →
         nd_get lut key = nd_get lut0 key).
Proof.
  revert lut0 n0. induction keys as [|key keys IH]; intros lut0 n0 Hin Hnd.
  - exists lut0. simpl. rewrite Z.add_0_r. repeat split; done.
  - apply NoDup_cons in Hnd as [Hkey Hnd].
    assert (in_shape (nd_shape lut0) key) as Hk by (apply Hin; left).
    set (lut1 := mk_ndarray (nd_shape lut0) (nd_fill lut0)
                   (<[Z.to_nat <$> key := cast n0]> (nd_data lut0))).
    destruct (IH lut1 (n0 + 1)) as (lut & Hrun & Hshape & Hhit & Hmiss).
    { intros key' Hkey'. apply Hin. by right. }
    { done. }
    exists lut. split; [|split; [done|split]].
    + assert (store_next cast key (lut0, n0) = Some (lut1, n0 + 1)) as Hstep.
      { unfold store_next, nd_set. simpl. by rewrite nd_key_in_shape by done. }
      rewrite for_each_cons, Hstep, bind_Some_eq, Hrun. do 2 f_equal.
      simpl length. lia.
    + intros [|i] key' Hlook; simpl in Hlook.
      * injection Hlook as <-. rewrite Hmiss by done.
        unfold nd_get. simpl. rewrite nd_key_in_shape by done. simpl.
        by rewrite lookup_insert_eq, Z.add_0_r.
      * rewrite (Hhit i key' Hlook). do 2 f_equal. lia.
    + intros key' Hk' [Hne Hnotin]%not_elem_of_cons.
      rewrite Hmiss by done. unfold nd_get. simpl.
      rewrite !nd_key_in_shape by done. simpl.
      rewrite lookup_insert_ne; [done|].
      intros Heq. apply Hne. symmetry. by eapply in_shape_to_nat_inj.
Qed.

(** Numbering the combinations of [k] cards out of [0 .. N-1] in the order
    they are listed gives the two tables of a bijection. *)
Lemma numbering_bijection (N : Z) (k : nat) cast lut0 st :
  0 ≤ N → nd_shape lut0 = replicate k N →
  (∀ i, 0 ≤ i < comb N (Z.of_nat k) → cast i = i) →
  for_each (combinations k (range 0 N)) (store_next cast) (lut0, 0) = Some st →
  hole_card_bijection (comb N (Z.of_nat k)) N k
    (np_get (combinations k (range 0 N))) (nd_get st.1).
Proof.
  intros HN Hshape Hcast Hrun.
  set (keys := combinations k (range 0 N)) in *.
  assert (∀ key, key ∈ keys → ascending_hand N k key) as Hasc.
  { intros key Hkey. by apply elem_of_combinations_range in Hkey. }
  assert (∀ key, ascending_hand N k key → in_shape (nd_shape lut0) key) as Hin.
  { intros key (Hl & _ & Hb). rewrite Hshape. by apply in_shape_replicate. }
  destruct (store_next_all cast keys lut0 0) as (lut & Hrun' & _ & Hhit & _).
  { intros key Hkey. by apply Hin, Hasc. }
  { apply NoDup_combinations_range. }
  rewrite Hrun' in Hrun. injection Hrun as <-. simpl.
  pose proof (length_combinations_range k N HN) as Hlen. fold keys in Hlen.
  split; [|split].
  - intros i Hi.
    destruct (lookup_lt_is_Some_2 keys (Z.to_nat i)) as [h Hh]; [lia|].
    exists h. split; [rewrite np_get_in by lia; done|].
    split; [eapply Hasc, list_elem_of_lookup_2, Hh|].
    rewrite (Hhit _ _ Hh), Z.add_0_l, Z2Nat.id by lia. f_equal. by apply Hcast.
  - intros h Hh.
    assert (h ∈ keys) as (i & Hi)%list_elem_of_lookup_1
      by (by apply elem_of_combinations_range).
    pose proof (lookup_lt_Some _ _ _ Hi) as Hlt.
    exists (Z.of_nat i). rewrite (Hhit _ _ Hi), Z.add_0_l.
    split; [f_equal; apply Hcast; lia|]. split; [lia|].
    by apply np_get_nat.
  - intros i j hi hj Hi Hij Hgi Hgj.
    assert (0 ≤ j < Z.of_nat (length keys)) as Hj.
    { split; [lia|]. unfold np_get in Hgj.
      destruct (np_norm (length keys) j) as [j'|] eqn:Hn; [|done].
      unfold np_norm in Hn. repeat case_bool_decide; simplify_eq; lia. }
    rewrite np_get_in in Hgi, Hgj by lia.
    eapply (StronglySorted_lookup_lt lex_lt keys (Z.to_nat i) (Z.to_nat j));
      [|lia|done..].
    apply lex_lt_combinations, StronglySorted_range.
Qed.

(** ** The hole-card tables of the three variants *)

Lemma np_get_Some_bounds {A} (a : list A) i x :
  0 ≤ i → np_get a i = Some x → i < Z.of_nat (length a).
Proof.
  intros Hi. unfold np_get, np_norm. repeat case_bool_decide; simpl; try done; lia.
Qed.

Lemma Leduc_hole_card_bijection rules :
  0 ≤ N_CARDS_IN_DECK rules → N_HOLE_CARDS rules = 1 →
  hole_card_bijection (RANGE_SIZE rules) (N_CARDS_IN_DECK rules) 1
    (np_get (Leduc.get_idx_2_hole_card_LUT rules))
    (Leduc_hole_card_2_idx (Leduc.get_hole_card_2_idx_LUT rules)).
Proof.
  intros HN Hk.
  assert (RANGE_SIZE rules = N_CARDS_IN_DECK rules) as ->.
  { unfold RANGE_SIZE, get_range_size. rewrite Hk. by apply comb_1. }
  unfold Leduc.get_idx_2_hole_card_LUT, Leduc.get_hole_card_2_idx_LUT,
    np_expand_dims, np_arange.
  assert (∀ c, 0 ≤ c < N_CARDS_IN_DECK rules →
    Leduc_hole_card_2_idx ((λ x, [x]) <$> range 0 (N_CARDS_IN_DECK rules)) [c] = Some c)
    as Hcell.
  { intros c Hc. unfold Leduc_hole_card_2_idx, np_get2.
    by rewrite (np_get_fmap_range (λ x, [x])) by done. }
  split; [|split].
  - intros i Hi. exists [i].
    split; [by apply (np_get_fmap_range (λ x, [x]))|].
    split; [|by apply Hcell].
    split; [done|]. split; repeat constructor; lia.
  - intros h (Hl & _ & Hb). destruct h as [|c [|]]; try done.
    apply Forall_cons in Hb as [Hc _]. exists c.
    split; [by apply Hcell|]. split; [done|].
    by apply (np_get_fmap_range (λ x, [x])).
  - intros i j hi hj Hi Hij Hgi Hgj.
    pose proof (np_get_Some_bounds _ _ _ Hi Hgi) as Hi'.
    assert (0 ≤ j) as Hj by lia.
    pose proof (np_get_Some_bounds _ _ _ Hj Hgj) as Hj'.
    rewrite length_fmap, length_range in Hi', Hj'.
    rewrite (np_get_fmap_range (λ x, [x])) in Hgi, Hgj by lia.
    injection Hgi as <-. injection Hgj as <-. simpl. by left.
Qed.

Lemma fmap_bind_list {A B C} (f : B → C) (g : A → list B) (l : list A) :
  f <$> (l ≫= g) = l ≫= λ x, f <$> g x.
Proof.
  induction l as [|x l IH]; [done|].
  by rewrite !bind_cons, fmap_app, IH.
Qed.

Lemma Holdem_spec_idx_2_hole_card_combinations N :
  Holdem.spec_idx_2_hole_card_lut N = combinations 2 (range 0 N).
Proof.
  unfold Holdem.spec_idx_2_hole_card_lut. rewrite combinations_range_S.
  apply list_bind_ext; [|done]. intros c1.
  rewrite combinations_range_S, fmap_bind_list.
  apply list_bind_ext; [|done]. intros c2.
  by rewrite combinations_0.
Qed.

Lemma Holdem_spec_hole_card_2_idx_run N lut0 :
  for_each (range 0 N)
    (λ c1, for_each (range (c1 + 1) N)
       (λ c2 (st : ndarray * Z), lut' ← nd_set st.1 [c1; c2] st.2; Some (lut', st.2 + 1)))
    (lut0, 0)
  = for_each (combinations 2 (range 0 N)) (store_next id) (lut0, 0).
Proof.
  rewrite for_each_combinations_S. apply for_each_ext. intros c1 s1 _.
  rewrite for_each_combinations_S. apply for_each_ext. intros c2 s2 _.
  by rewrite for_each_combinations_0.
Qed.

Lemma PLO_hole_card_2_idx_run N lut0 :
  for_each (range 0 N)
    (λ i1, for_each (range (i1 + 1) N)
       (λ i2, for_each (range (i2 + 1) N)
          (λ i3, for_each (range (i3 + 1) N)
             (λ i4 (st : ndarray * Z),
                lut' ← nd_set st.1 [i1; i2; i3; i4] (int32 st.2);
                Some (lut', st.2 + 1)))))
    (lut0, 0)
  = for_each (combinations 4 (range 0 N)) (store_next int32) (lut0, 0).
Proof.
  rewrite for_each_combinations_S. apply for_each_ext. intros i1 s1 _.
  rewrite for_each_combinations_S. apply for_each_ext. intros i2 s2 _.
  rewrite for_each_combinations_S. apply for_each_ext. intros i3 s3 _.
  rewrite for_each_combinations_S. apply for_each_ext. intros i4 s4 _.
  by rewrite for_each_combinations_0.
Qed.

Lemma numbering_runs (N : Z) (k : nat) cast lut0 :
  nd_shape lut0 = replicate k N →
  is_Some (for_each (combinations k (range 0 N)) (store_next cast) (lut0, 0)).
Proof.
  intros Hshape.
  destruct (store_next_all cast (combinations k (range 0 N)) lut0 0)
    as (lut & -> & _); [| |by eexists].
  - intros key (Hl & _ & Hb)%elem_of_combinations_range.
    rewrite Hshape. by apply in_shape_replicate.
  - apply NoDup_combinations_range.
Qed.

Lemma Holdem_spec_hole_card_bijection rules :
  0 ≤ N_CARDS_IN_DECK rules → N_HOLE_CARDS rules = 2 →
  ∃ lut, Holdem.spec_hole_card_2_idx_lut (N_CARDS_IN_DECK rules) = Some lut
    ∧ hole_card_bijection (RANGE_SIZE rules) (N_CARDS_IN_DECK rules) 2
        (np_get (Holdem.spec_idx_2_hole_card_lut (N_CARDS_IN_DECK rules)))
        (nd_get lut).
Proof.
  intros HN Hk. set (N := N_CARDS_IN_DECK rules) in *.
  set (lut0 := mk_ndarray [N; N] (-2) ∅).
  destruct (numbering_runs N 2 id lut0) as [st Hst]; [done|].
  exists st.1. split.
  - unfold Holdem.spec_hole_card_2_idx_lut, nd_full.
    rewrite bool_decide_eq_true_2 by (repeat constructor; lia).
    rewrite bind_Some_eq. fold lut0.
    by rewrite Holdem_spec_hole_card_2_idx_run, Hst.
  - rewrite Holdem_spec_idx_2_hole_card_combinations.
    unfold RANGE_SIZE, get_range_size. rewrite Hk. fold N.
    by apply (numbering_bijection N 2 id lut0).
Qed.

Lemma comb_52_4 : comb 52 4 = 270725.
Proof. vm_compute. reflexivity. Qed.

Lemma PLO_hole_card_bijection rules :
  N_CARDS_IN_DECK rules = 52 → N_HOLE_CARDS rules = 4 →
  ∃ lut, PLO.get_hole_card_2_idx_LUT rules = Some lut
    ∧ hole_card_bijection (RANGE_SIZE rules) (N_CARDS_IN_DECK rules) 4
        (np_get PLO.get_idx_2_hole_card_LUT) (nd_get lut).
Proof.
  intros HN Hk.
  set (lut0 := mk_ndarray [52; 52; 52; 52] (int32 (-2)) ∅).
  destruct (numbering_runs 52 4 int32 lut0) as [st Hst]; [done|].
  exists st.1. split.
  - unfold PLO.get_hole_card_2_idx_LUT, nd_full. rewrite HN.
    rewrite bool_decide_eq_true_2 by (repeat constructor; lia).
    rewrite bind_Some_eq. fold lut0.
    by rewrite PLO_hole_card_2_idx_run, Hst.
  - unfold RANGE_SIZE, get_range_size, PLO.get_idx_2_hole_card_LUT.
    rewrite Hk, HN.
    apply (numbering_bijection 52 4 int32 lut0); [lia|done| |done].
    intros i Hi. change (Z.of_nat 4) with 4 in Hi. rewrite comb_52_4 in Hi.
    apply int32_small. lia.
Qed.

(** C1. The hole-card tables of each variant are the two directions of a
    bijection between the range indices [0, RANGE_SIZE) and the ascending
    hands of N_HOLE_CARDS distinct card ids: looking index i up in the
    index-to-hole-card table and the hand found in the hole-card-to-index
    table gives i back; looking an ascending hand up in the
    hole-card-to-index table and the index found in the other table gives
    the hand back; and the hands are listed in lexicographic order. For the
    single-card getter and the four-card getter (whose deck is the fixed
    range of 52 card ids) the tables are those of the file; for the two-card
    getter they are the tables of the native backend as the spec describes
    them. *)
Theorem hole_card_index_bijection (rules : Rules) :
  0 ≤ N_CARDS_IN_DECK rules →
  (N_HOLE_CARDS rules = 1 →
     hole_card_bijection (RANGE_SIZE rules) (N_CARDS_IN_DECK rules) 1
       (np_get (Leduc.get_idx_2_hole_card_LUT rules))
       (Leduc_hole_card_2_idx (Leduc.get_hole_card_2_idx_LUT rules)))
  ∧ (N_HOLE_CARDS rules = 2 →
     ∃ lut, Holdem.spec_hole_card_2_idx_lut (N_CARDS_IN_DECK rules) = Some lut
       ∧ hole_card_bijection (RANGE_SIZE rules) (N_CARDS_IN_DECK rules) 2
           (np_get (Holdem.spec_idx_2_hole_card_lut (N_CARDS_IN_DECK rules)))
           (nd_get lut))
  ∧ (N_HOLE_CARDS rules = 4 → N_CARDS_IN_DECK rules = 52 →
     ∃ lut, PLO.get_hole_card_2_idx_LUT rules = Some lut
       ∧ hole_card_bijection (RANGE_SIZE rules) (N_CARDS_IN_DECK rules) 4
           (np_get PLO.get_idx_2_hole_card_LUT) (nd_get lut)).
Proof.
  intros HN. split; [|split].
  - by apply Leduc_hole_card_bijection.
  - by apply Holdem_spec_hole_card_bijection.
  - intros Hk H52. by apply PLO_hole_card_bijection.
Qed.

Lemma hole_card_index_bijection_witness :
  hole_card_bijection (RANGE_SIZE leduc_rules) (N_CARDS_IN_DECK leduc_rules) 1
    (np_get (Leduc.get_idx_2_hole_card_LUT leduc_rules))
    (Leduc_hole_card_2_idx (Leduc.get_hole_card_2_idx_LUT leduc_rules))
  ∧ (∃ lut, Holdem.spec_hole_card_2_idx_lut (N_CARDS_IN_DECK holdem_rules) = Some lut
       ∧ hole_card_bijection (RANGE_SIZE holdem_rules) (N_CARDS_IN_DECK holdem_rules) 2
           (np_get (Holdem.spec_idx_2_hole_card_lut (N_CARDS_IN_DECK holdem_rules)))
           (nd_get lut))
  ∧ (∃ lut, PLO.get_hole_card_2_idx_LUT plo_rules = Some lut
       ∧ hole_card_bijection (RANGE_SIZE plo_rules) (N_CARDS_IN_DECK plo_rules) 4
           (np_get PLO.get_idx_2_hole_card_LUT) (nd_get lut)).
Proof.
  assert (0 ≤ 6) as H6 by lia. assert (0 ≤ 52) as H52 by lia.
  split; [|split].
  - exact (proj1 (hole_card_index_bijection leduc_rules H6) eq_refl).
  - exact (proj1 (proj2 (hole_card_index_bijection holdem_rules H52)) eq_refl).
  - exact (proj2 (proj2 (hole_card_index_bijection plo_rules H52)) eq_refl eq_refl).
Defined.

(** ** Counting the hands that hold a card *)

Lemma combinations_subset {A} r (l : list A) h y :
  h ∈ combinations r l → y ∈ h → y ∈ l.
Proof.
  revert r h. induction l as [|x l IH]; intros [|r] h.
  - intros ->%list_elem_of_singleton Hy. by apply elem_of_nil in Hy.
  - by intros ?%elem_of_nil.
  - rewrite combinations_0. intros ->%list_elem_of_singleton Hy.
    by apply elem_of_nil in Hy.
  - rewrite combinations_S_cons, elem_of_app.
    intros [(h' & -> & Hh')%list_elem_of_fmap|Hh] Hy.
    + apply elem_of_cons in Hy as [->|Hy]; [left|right; by eapply IH].
    + right. by eapply IH.
Qed.

Lemma length_filter_all {A} (P : A → Prop) `{∀ x, Decision (P x)} (l : list A) :
  (∀ x, x ∈ l → P x) → filter P l = l.
Proof.
  induction l as [|x l IH]; intros HP; [done|].
  rewrite filter_cons_True by (apply HP; left). f_equal.
  apply IH. intros. apply HP. by right.
Qed.

Lemma length_filter_none {A} (P : A → Prop) `{∀ x, Decision (P x)} (l : list A) :
  (∀ x, x ∈ l → ¬ P x) → filter P l = [].
Proof.
  induction l as [|x l IH]; intros HP; [done|].
  rewrite filter_cons_False by (apply HP; left).
  apply IH. intros. apply HP. by right.
Qed.

Lemma filter_ext_in {A} (P Q : A → Prop) `{∀ x, Decision (P x)} `{∀ x, Decision (Q x)}
    (l : list A) :
  (∀ x, x ∈ l → P x ↔ Q x) → filter P l = filter Q l.
Proof.
  induction l as [|x l IH]; intros HPQ; [done|].
  rewrite !filter_cons.
  destruct (decide (P x)) as [HP|HP], (decide (Q x)) as [HQ|HQ].
  - f_equal. apply IH. intros. apply HPQ. by right.
  - exfalso. apply HQ, HPQ; [left|done].
  - exfalso. apply HP, HPQ; [left|done].
  - apply IH. intros. apply HPQ. by right.
Qed.

Lemma filter_fmap_cons_other (c x : Z) (l : list (list Z)) :
  c ≠ x →
  length (filter (λ h, c ∈ h) ((x ::.) <$> l)) = length (filter (λ h, c ∈ h) l).
Proof.
  intros Hne. induction l as [|h l IH]; [done|]. rewrite fmap_cons, !filter_cons.
  destruct (decide (c ∈ x :: h)) as [Hin|Hin], (decide (c ∈ h)) as [Hin'|Hin'];
    simpl; try (by rewrite IH).
  - apply elem_of_cons in Hin as [?|?]; done.
  - exfalso. apply Hin. by right.
Qed.

(** Of the hands of r + 1 cards drawn from [l], C(|l| - 1, r) hold a given
    card of [l]. *)
Lemma count_combinations_containing r (l : list Z) c :
  NoDup l → c ∈ l →
  Z.of_nat (length (filter (λ h, c ∈ h) (combinations (S r) l)))
  = binom (length l - 1) r.
Proof.
  intros Hnd. revert r. induction Hnd as [|x l Hx Hnd IH]; intros r Hc.
  - by apply elem_of_nil in Hc.
  - rewrite combinations_S_cons, filter_app, length_app, Nat2Z.inj_add.
    replace (length (x :: l) - 1)%nat with (length l) by (simpl; lia).
    destruct (decide (c = x)) as [->|Hne].
    + rewrite length_filter_all.
      2:{ intros h (h' & -> & _)%list_elem_of_fmap. left. }
      rewrite (length_filter_none _ (combinations (S r) l)).
      2:{ intros h Hh Hxh. apply Hx. by eapply combinations_subset. }
      rewrite length_fmap, length_combinations. simpl. lia.
    + apply elem_of_cons in Hc as [?|Hc]; [done|].
      rewrite filter_fmap_cons_other by done.
      rewrite (IH r Hc).
      assert (∃ n, length l = S n) as [n Hn].
      { destruct l; [by apply elem_of_nil in Hc|by eexists]. }
      rewrite Hn. replace (S n - 1)%nat with n by lia.
      destruct r as [|r].
      * rewrite combinations_0.
        rewrite (length_filter_none _ [[]]).
        2:{ intros h ->%list_elem_of_singleton Hh. by apply elem_of_nil in Hh. }
        simpl. by rewrite !binom_0.
      * rewrite (IH r Hc), Hn. replace (S n - 1)%nat with n by lia. done.
Qed.

Lemma rows_containing_snoc c hcs hc :
  rows_containing c (hcs ++ [hc])
  = rows_containing c hcs
    ++ (if decide (c ∈ hc) then [Z.of_nat (length hcs)] else []).
Proof.
  unfold rows_containing. rewrite length_app. simpl length.
  replace (Z.of_nat (length hcs + 1)) with (0 + Z.of_nat (S (length hcs))) by lia.
  rewrite range_snoc, filter_app, Z.add_0_l. f_equal.
  - apply filter_ext_in. intros i Hi%elem_of_range.
    by rewrite lookup_app_l by lia.
  - rewrite filter_cons, filter_nil, Nat2Z.id.
    rewrite lookup_app_r, Nat.sub_diag by lia. simpl.
    by destruct (decide (c ∈ hc)).
Qed.

Lemma length_rows_containing c hcs :
  length (rows_containing c hcs) = length (filter (λ h, c ∈ h) hcs).
Proof.
  induction hcs as [|hc hcs IH] using rev_ind; [done|].
  rewrite rows_containing_snoc, filter_app, !length_app, IH. f_equal.
  rewrite filter_cons, filter_nil. by destruct (decide (c ∈ hc)).
Qed.

Lemma elem_of_rows_containing c hcs idx :
  idx ∈ rows_containing c hcs
  ↔ 0 ≤ idx ∧ ∃ hc, np_get hcs idx = Some hc ∧ c ∈ hc.
Proof.
  unfold rows_containing. rewrite list_elem_of_filter, elem_of_range. split.
  - intros [Hin Hidx]. split; [lia|].
    destruct (lookup_lt_is_Some_2 hcs (Z.to_nat idx)) as [hc Hhc]; [lia|].
    exists hc. rewrite np_get_in by lia. split; [done|]. by rewrite Hhc in Hin.
  - intros (Hidx & hc & Hget & Hin).
    pose proof (np_get_Some_bounds _ _ _ Hidx Hget).
    rewrite np_get_in in Hget by lia. rewrite Hget. split; [done|lia].
Qed.

Lemma rows_containing_bounds c hcs idx :
  idx ∈ rows_containing c hcs → 0 ≤ idx < Z.of_nat (length hcs).
Proof.
  unfold rows_containing. rewrite list_elem_of_filter, elem_of_range. lia.
Qed.

(** ** The card-membership tables *)

(** A loop whose pass for [c] replaces row [c] and relies only on row [c]
    being still untouched. *)
Lemma fill_prefix_with {A} (body : Z → list A → option (list A)) (f : Z → A)
    (lut0 : list A) (k : nat) :
  (k ≤ length lut0)%nat →
  (∀ (c : nat) lut, (c < k)%nat → length lut = length lut0 → lut !! c = lut0 !! c →
     body (Z.of_nat c) lut = Some (<[c := f (Z.of_nat c)]> lut)) →
  for_each (range 0 (Z.of_nat k)) body lut0
  = Some ((f <$> range 0 (Z.of_nat k)) ++ drop k lut0).
Proof.
  induction k as [|k IH]; intros Hk Hbody.
  - by rewrite range_nil.
  - change (Z.of_nat (S k)) with (0 + Z.of_nat (S k)).
    rewrite range_snoc, for_each_app, Z.add_0_l, IH by (lia || auto with lia).
    rewrite bind_Some_eq. simpl.
    assert (length (f <$> range 0 (Z.of_nat k)) = k) as Hlen
      by (rewrite length_fmap, length_range; lia).
    rewrite Hbody.
    2:{ lia. }
    2:{ rewrite length_app, Hlen, length_drop. lia. }
    2:{ rewrite lookup_app_r, Hlen, Nat.sub_diag, lookup_drop by lia.
        f_equal. lia. }
    f_equal. rewrite fmap_app, <- app_assoc. simpl.
    rewrite insert_app_r_alt, Hlen, Nat.sub_diag by lia.
    f_equal.
    destruct (drop k lut0) as [|y l'] eqn:Hd.
    { apply (f_equal length) in Hd. rewrite length_drop in Hd. simpl in Hd. lia. }
    simpl. f_equal.
    replace (S k) with (k + 1)%nat by lia. rewrite <- drop_drop, Hd. done.
Qed.

Lemma fill_all_with {A} (body : Z → list A → option (list A)) (f : Z → A)
    (lut0 : list A) (n : Z) :
  Z.of_nat (length lut0) = n →
  (∀ c lut, 0 ≤ c < n → length lut = length lut0 →
     lut !! Z.to_nat c = lut0 !! Z.to_nat c →
     body c lut = Some (<[Z.to_nat c := f c]> lut)) →
  for_each (range 0 n) body lut0 = Some (f <$> range 0 n).
Proof.
  intros <- Hbody. rewrite (fill_prefix_with body f).
  - by rewrite drop_all, app_nil_r.
  - lia.
  - intros c lut Hc Hlen Hrow. rewrite Hbody, ?Nat2Z.id; try done; try lia.
    by rewrite Nat2Z.id.
Qed.

(** The inner loop of the two-card getter over the first [j] range indices:
    the matches so far fill the front of the card's row. *)
Lemma Holdem_scan_prefix (c : Z) (hcs : list (list Z)) (lut : list (list Z))
    (row : list Z) (j : nat) :
  0 ≤ c → lut !! Z.to_nat c = Some row → (j ≤ length hcs)%nat →
  (length (rows_containing c (take j hcs)) ≤ length row)%nat →
  for_each (range 0 (Z.of_nat j))
    (λ range_idx (st : list (list Z) * Z),
       hc ← np_get hcs range_idx;
       if bool_decide (c ∈ hc)
       then lut' ← np_set2 st.1 c st.2 (int32 range_idx); Some (lut', st.2 + 1)
       else Some st)
    (lut, 0)
  = Some (<[Z.to_nat c := (int32 <$> rows_containing c (take j hcs))
                          ++ drop (length (rows_containing c (take j hcs))) row]> lut,
          Z.of_nat (length (rows_containing c (take j hcs)))).
Proof.
  intros Hc Hrow. pose proof (lookup_lt_Some _ _ _ Hrow) as Hclt.
  induction j as [|j IH]; intros Hj Hfit.
  - rewrite range_nil by lia. simpl. by rewrite drop_0, list_insert_id.
  - destruct (lookup_lt_is_Some_2 hcs j) as [hc Hhc]; [lia|].
    rewrite (take_S_r _ _ _ Hhc) in Hfit |- *.
    rewrite rows_containing_snoc in Hfit |- *.
    rewrite length_take_le in Hfit |- * by lia.
    set (M := rows_containing c (take j hcs)) in *.
    rewrite length_app in Hfit.
    change (Z.of_nat (S j)) with (0 + Z.of_nat (S j)).
    rewrite range_snoc, for_each_app, Z.add_0_l, IH by lia.
    rewrite bind_Some_eq. simpl for_each.
    rewrite (np_get_nat _ _ _ Hhc), bind_Some_eq. cbv beta.
    destruct (decide (c ∈ hc)) as [Hin|Hin].
    + rewrite bool_decide_eq_true_2 by done. simpl in Hfit. simpl fst. simpl snd.
      erewrite np_set2_in; [|by apply list_lookup_insert_eq|lia|].
      2:{ rewrite length_app, length_fmap, length_drop. lia. }
      simpl. f_equal. f_equal.
      * rewrite list_insert_insert_eq. f_equal. rewrite Nat2Z.id.
        rewrite insert_app_r_alt by (rewrite length_fmap; lia).
        rewrite length_fmap, Nat.sub_diag, fmap_app, <- app_assoc. f_equal.
        destruct (drop (length M) row) as [|y l'] eqn:Hd.
        { apply (f_equal length) in Hd. rewrite length_drop in Hd. simpl in Hd. lia. }
        simpl. f_equal. rewrite length_app. simpl.
        rewrite <- drop_drop, Hd. done.
      * rewrite length_app. simpl. lia.
    + rewrite bool_decide_eq_false_2 by done. by rewrite !app_nil_r.
Qed.

Lemma int32_rows_containing c hcs :
  Z.of_nat (length hcs) ≤ 2147483648 →
  int32 <$> rows_containing c hcs = rows_containing c hcs.
Proof.
  intros Hlen. rewrite <- (list_fmap_id (rows_containing c hcs)) at 2.
  apply Forall_fmap_ext_1, Forall_forall. intros idx Hidx%rows_containing_bounds.
  unfold id. apply int32_small. lia.
Qed.

Lemma NoDup_combination {A} r (l : list A) h :
  NoDup l → h ∈ combinations r l → NoDup h.
Proof.
  intros Hnd. revert r h. induction Hnd as [|x l Hx Hnd IH]; intros [|r] h.
  - intros ->%list_elem_of_singleton. constructor.
  - by intros ?%elem_of_nil.
  - rewrite combinations_0. intros ->%list_elem_of_singleton. constructor.
  - rewrite combinations_S_cons, elem_of_app.
    intros [(h' & -> & Hh')%list_elem_of_fmap|Hh]; [|by eapply IH].
    constructor; [|by eapply IH].
    intros Hxh. apply Hx. by eapply combinations_subset.
Qed.

Lemma filter_eq_NoDup (c : Z) (row : list Z) :
  NoDup row → filter (λ x, x = c) row = if decide (c ∈ row) then [c] else [].
Proof.
  induction 1 as [|x row Hx Hnd IH]; [done|].
  rewrite filter_cons, IH. destruct (decide (x = c)) as [->|Hne].
  - rewrite decide_False by done. rewrite decide_True by left. done.
  - destruct (decide (c ∈ row)) as [Hin|Hin].
    + rewrite decide_True by (by right). done.
    + rewrite decide_False; [done|]. intros [?|?]%elem_of_cons; done.
Qed.

Lemma np_where_rows_containing c hcs :
  Forall NoDup hcs → PLO.np_where_rows c hcs = rows_containing c hcs.
Proof.
  induction hcs as [|hc hcs IH] using rev_ind; intros Hnd; [done|].
  apply Forall_app in Hnd as [Hnd [Hhc _]%Forall_cons].
  rewrite rows_containing_snoc, <- IH by done.
  unfold PLO.np_where_rows. rewrite imap_app, join_app. f_equal.
  simpl. rewrite app_nil_r, Nat.add_0_r, filter_eq_NoDup by done.
  by destruct (decide (c ∈ hc)).
Qed.

(** The table that lists, for every card, the rows of [hcs] that hold it. *)
Lemma membership_table N k hcs :
  0 ≤ N →
  (∀ c, 0 ≤ c < N → Z.of_nat (length (rows_containing c hcs)) = comb (N - 1) (k - 1)) →
  card_membership N k hcs ((λ c, rows_containing c hcs) <$> range 0 N).
Proof.
  intros HN Hcount. split; [rewrite length_fmap, length_range; lia|].
  intros c Hc. exists (rows_containing c hcs).
  split; [by apply (np_get_fmap_range (λ c, rows_containing c hcs))|].
  split; [by apply Hcount|]. split; [|split].
  - intros idx. by rewrite elem_of_rows_containing.
  - intros idx hc Hidx Hget Hin. apply elem_of_rows_containing. eauto.
  - intros Hin%rows_containing_bounds. lia.
Qed.

Lemma membership_table_filled N hcs :
  bool_decide (Exists (λ row, -2 ∈ row) ((λ c, rows_containing c hcs) <$> range 0 N))
  = false.
Proof.
  apply bool_decide_eq_false_2. rewrite Exists_exists.
  intros (row & (c & -> & _)%list_elem_of_fmap & Hin%rows_containing_bounds). lia.
Qed.

Lemma Holdem_card_in_what_range_idxs rules cpp_backend :
  1 ≤ N_CARDS_IN_DECK rules → N_HOLE_CARDS rules = 2 →
  RANGE_SIZE rules ≤ 2147483648 →
  cpp_get_idx_2_hole_card_lut cpp_backend
  = Holdem.spec_idx_2_hole_card_lut (N_CARDS_IN_DECK rules) →
  Holdem.get_card_in_what_range_idxs_LUT rules cpp_backend
  = Some ((λ c, rows_containing c (Holdem.spec_idx_2_hole_card_lut (N_CARDS_IN_DECK rules)))
            <$> range 0 (N_CARDS_IN_DECK rules))
  ∧ ∀ c, 0 ≤ c < N_CARDS_IN_DECK rules →
      Z.of_nat (length (rows_containing c
                          (Holdem.spec_idx_2_hole_card_lut (N_CARDS_IN_DECK rules))))
      = comb (N_CARDS_IN_DECK rules - 1) (N_HOLE_CARDS rules - 1).
Proof.
  intros HN Hk Hfit Hcpp. set (N := N_CARDS_IN_DECK rules) in *.
  rewrite Holdem_spec_idx_2_hole_card_combinations in *.
  set (hcs := combinations 2 (range 0 N)) in *.
  assert (RANGE_SIZE rules = Z.of_nat (length hcs)) as Hsize.
  { unfold RANGE_SIZE, get_range_size. rewrite Hk. fold N.
    symmetry. apply (length_combinations_range 2). lia. }
  assert (∀ c, 0 ≤ c < N → Z.of_nat (length (rows_containing c hcs)) = N - 1) as Hcount.
  { intros c Hc. rewrite length_rows_containing.
    unfold hcs. rewrite count_combinations_containing;
      [|apply NoDup_range|by apply elem_of_range].
    rewrite binom_1, length_range. lia. }
  split.
  2:{ intros c Hc. rewrite Hk, Hcount by done. symmetry. apply comb_1. lia. }
  unfold Holdem.get_card_in_what_range_idxs_LUT, Holdem.get_idx_2_hole_card_LUT.
  rewrite Hcpp. fold N. unfold np_full2, np_full1.
  rewrite !bool_decide_eq_true_2 by lia. rewrite !bind_Some_eq.
  set (fill := replicate (Z.to_nat (N - 1)) (int32 (-2))).
  set (lut0 := replicate (Z.to_nat N) fill).
  rewrite Hsize.
  rewrite (fill_all_with _ (λ c, rows_containing c hcs) lut0 N).
  - rewrite bind_Some_eq. by rewrite membership_table_filled.
  - unfold lut0. rewrite length_replicate. lia.
  - intros c lut Hc Hlen Hrow.
    assert (lut !! Z.to_nat c = Some fill) as Hrow'.
    { rewrite Hrow. unfold lut0. apply lookup_replicate_2. lia. }
    rewrite (Holdem_scan_prefix c hcs lut fill (length hcs));
      [|lia|done|lia|].
    + rewrite bind_Some_eq. simpl. rewrite take_ge by lia. f_equal. f_equal.
      rewrite int32_rows_containing by lia.
      rewrite drop_ge, app_nil_r; [done|].
      unfold fill. rewrite length_replicate.
      pose proof (Hcount c). lia.
    + rewrite take_ge by lia. unfold fill. rewrite length_replicate.
      pose proof (Hcount c). lia.
Qed.

Lemma binom_51_3 : binom 51 3 = 20825.
Proof. vm_compute. reflexivity. Qed.

Lemma PLO_card_in_what_range_idxs rules :
  N_CARDS_IN_DECK rules = 52 →
  PLO.get_card_in_what_range_idxs_LUT rules
  = Some ((λ c, rows_containing c PLO.get_idx_2_hole_card_LUT) <$> range 0 52)
  ∧ ∀ c, 0 ≤ c < 52 →
      Z.of_nat (length (rows_containing c PLO.get_idx_2_hole_card_LUT)) = 20825.
Proof.
  intros HN. unfold PLO.get_idx_2_hole_card_LUT.
  set (hcs := combinations 4 (range 0 52)).
  assert (Z.of_nat (length hcs) = 270725) as Hsize.
  { unfold hcs. rewrite (length_combinations_range 4) by lia. apply comb_52_4. }
  assert (∀ c, 0 ≤ c < 52 → Z.of_nat (length (rows_containing c hcs)) = 20825) as Hcount.
  { intros c Hc. rewrite length_rows_containing.
    unfold hcs. rewrite count_combinations_containing;
      [|apply NoDup_range|by apply elem_of_range].
    rewrite length_range. apply binom_51_3. }
  split; [|done].
  unfold PLO.get_card_in_what_range_idxs_LUT, PLO.get_idx_2_hole_card_LUT.
  fold hcs. rewrite HN. unfold np_full2, np_full1.
  rewrite !bool_decide_eq_true_2 by lia. rewrite !bind_Some_eq.
  erewrite for_each_ext.
  - rewrite (fill_all (λ c, rows_containing c hcs))
      by (rewrite length_replicate; lia).
    rewrite bind_Some_eq. by rewrite membership_table_filled.
  - intros c lut Hc%elem_of_range. simpl.
    rewrite np_where_rows_containing.
    2:{ apply Forall_forall. intros h Hh.
        eapply NoDup_combination; [apply NoDup_range|exact Hh]. }
    rewrite int32_rows_containing by lia.
    unfold PLO.np_broadcast_to.
    by rewrite bool_decide_eq_true_2 by (by apply Hcount).
Qed.

Lemma Leduc_card_in_what_range_idxs rules :
  1 ≤ N_CARDS_IN_DECK rules → N_HOLE_CARDS rules = 1 →
  card_membership (N_CARDS_IN_DECK rules) (N_HOLE_CARDS rules)
    (Leduc.get_idx_2_hole_card_LUT rules)
    (Leduc.get_card_in_what_range_idxs_LUT rules).
Proof.
  intros HN Hk.
  unfold Leduc.get_card_in_what_range_idxs_LUT, Leduc.get_idx_2_hole_card_LUT,
    np_expand_dims, np_arange.
  assert (RANGE_SIZE rules = N_CARDS_IN_DECK rules) as ->.
  { unfold RANGE_SIZE, get_range_size. rewrite Hk. apply comb_1. lia. }
  split; [rewrite length_fmap, length_range; lia|].
  intros c Hc. exists [c].
  split; [by apply (np_get_fmap_range (λ x, [x]))|].
  split; [rewrite Hk; symmetry; apply comb_0; lia|].
  split; [|split].
  - intros idx ->%list_elem_of_singleton. split; [lia|]. exists [c].
    split; [by apply (np_get_fmap_range (λ x, [x]))|]. by left.
  - intros idx hc Hidx Hget Hin.
    pose proof (np_get_Some_bounds _ _ _ Hidx Hget) as Hlt.
    rewrite length_fmap, length_range in Hlt.
    rewrite (np_get_fmap_range (λ x, [x])) in Hget by lia.
    injection Hget as <-. apply list_elem_of_singleton in Hin as ->. left.
  - intros Heq%list_elem_of_singleton. lia.
Qed.

(** C4. The card-membership table of every variant is built (the final
    assertion included, so no [-2] is left), has one row per card, and for
    every card c of the deck its row has exactly
    C(N_CARDS_IN_DECK - 1, N_HOLE_CARDS - 1) entries, which are exactly the
    range indices whose hole cards contain c. For the four-card game with its
    52-card deck the row length is C(51, 3) = 20825, the width the getter
    allocates. The two-card getter reads the hole-card table of the native
    backend, taken as the spec describes it; the other two read the tables of
    the file. *)
Theorem card_in_what_range_idxs_rows (rules : Rules) :
  1 ≤ N_CARDS_IN_DECK rules →
  (N_HOLE_CARDS rules = 1 →
     card_membership (N_CARDS_IN_DECK rules) (N_HOLE_CARDS rules)
       (Leduc.get_idx_2_hole_card_LUT rules)
       (Leduc.get_card_in_what_range_idxs_LUT rules))
  ∧ (N_HOLE_CARDS rules = 2 → RANGE_SIZE rules ≤ 2147483648 →
     ∀ cpp_backend,
       cpp_get_idx_2_hole_card_lut cpp_backend
       = Holdem.spec_idx_2_hole_card_lut (N_CARDS_IN_DECK rules) →
       ∃ lut, Holdem.get_card_in_what_range_idxs_LUT rules cpp_backend = Some lut
         ∧ card_membership (N_CARDS_IN_DECK rules) (N_HOLE_CARDS rules)
             (Holdem.get_idx_2_hole_card_LUT cpp_backend) lut)
  ∧ (N_HOLE_CARDS rules = 4 → N_CARDS_IN_DECK rules = 52 →
     ∃ lut, PLO.get_card_in_what_range_idxs_LUT rules = Some lut
       ∧ card_membership (N_CARDS_IN_DECK rules) (N_HOLE_CARDS rules)
           PLO.get_idx_2_hole_card_LUT lut
       ∧ comb (N_CARDS_IN_DECK rules - 1) (N_HOLE_CARDS rules - 1) = 20825).
Proof.
  intros HN. split; [|split].
  - by apply Leduc_card_in_what_range_idxs.
  - intros Hk Hfit cpp_backend Hcpp.
    destruct (Holdem_card_in_what_range_idxs rules cpp_backend HN Hk Hfit Hcpp)
      as [Hlut Hcount].
    eexists. split; [exact Hlut|].
    unfold Holdem.get_idx_2_hole_card_LUT. rewrite Hcpp.
    apply membership_table; [lia|done].
  - intros Hk H52.
    destruct (PLO_card_in_what_range_idxs rules H52) as [Hlut Hcount].
    assert (comb (52 - 1) (4 - 1) = 20825) as Hc by (vm_compute; reflexivity).
    eexists. split; [exact Hlut|]. rewrite Hk, H52. split; [|done].
    apply membership_table; [lia|].
    intros c Hc'. rewrite Hc. by apply Hcount.
Qed.

Lemma card_in_what_range_idxs_rows_witness :
  card_membership (N_CARDS_IN_DECK leduc_rules) (N_HOLE_CARDS leduc_rules)
    (Leduc.get_idx_2_hole_card_LUT leduc_rules)
    (Leduc.get_card_in_what_range_idxs_LUT leduc_rules)
  ∧ (∃ lut, Holdem.get_card_in_what_range_idxs_LUT holdem_rules
              (rank_major_backend holdem_rules) = Some lut
       ∧ card_membership (N_CARDS_IN_DECK holdem_rules) (N_HOLE_CARDS holdem_rules)
           (Holdem.get_idx_2_hole_card_LUT (rank_major_backend holdem_rules)) lut)
  ∧ (∃ lut, PLO.get_card_in_what_range_idxs_LUT plo_rules = Some lut
       ∧ card_membership (N_CARDS_IN_DECK plo_rules) (N_HOLE_CARDS plo_rules)
           PLO.get_idx_2_hole_card_LUT lut
       ∧ comb (N_CARDS_IN_DECK plo_rules - 1) (N_HOLE_CARDS plo_rules - 1) = 20825).
Proof.
  assert (1 ≤ 6) as H6 by lia. assert (1 ≤ 52) as H52 by lia.
  assert (RANGE_SIZE holdem_rules ≤ 2147483648) as Hfit by (by vm_compute).
  split; [|split].
  - exact (proj1 (card_in_what_range_idxs_rows leduc_rules H6) eq_refl).
  - exact (proj1 (proj2 (card_in_what_range_idxs_rows holdem_rules H52)) eq_refl Hfit
             (rank_major_backend holdem_rules) eq_refl).
  - exact (proj2 (proj2 (card_in_what_range_idxs_rows plo_rules H52)) eq_refl eq_refl).
Defined.

Example card_in_what_range_idxs_leduc :
  Leduc.get_card_in_what_range_idxs_LUT leduc_rules = [[0]; [1]; [2]; [3]; [4]; [5]].
Proof. vm_compute. reflexivity. Qed.

(** ** Private observations of the four-card getter *)

(** A loop over [enumerate(d2)] that stores one computed row per entry. *)
Lemma enumerate_rows {E} (g : nat → E → option (list Z)) (d2 : list E)
    (lut0 : list (list Z)) :
  (length d2 ≤ length lut0)%nat →
  (∀ i el, d2 !! i = Some el → is_Some (g i el)) →
  ∃ rows,
    for_each (imap (λ i element, (i, element)) d2)
      (λ '(range_idx, element) lut,
         priv_o ← g range_idx element; np_set lut (Z.of_nat range_idx) priv_o)
      lut0
    = Some (rows ++ drop (length d2) lut0)
    ∧ length rows = length d2
    ∧ ∀ i el, d2 !! i = Some el → rows !! i = g i el.
Proof.
  induction d2 as [|el d2 IH] using rev_ind; intros Hlen Hg.
  - exists []. by rewrite drop_0.
  - rewrite length_app in Hlen. simpl in Hlen.
    destruct IH as (rows & Hrun & Hrows & Hlook); [lia| |].
    { intros i el' Hi. apply Hg. by apply lookup_app_l_Some. }
    destruct (Hg (length d2) el) as [row Hrow].
    { by rewrite lookup_app_r, Nat.sub_diag by lia. }
    exists (rows ++ [row]).
    rewrite imap_app, for_each_app, Hrun, bind_Some_eq. simpl.
    rewrite Nat.add_0_r, Hrow. simpl.
    rewrite np_set_in by (rewrite length_app, length_drop; lia).
    split; [|split].
    + f_equal. rewrite Nat2Z.id, insert_app_r_alt, Hrows, Nat.sub_diag by lia.
      rewrite <- app_assoc. f_equal.
      destruct (drop (length d2) lut0) as [|y l'] eqn:Hd.
      { apply (f_equal length) in Hd. rewrite length_drop in Hd. simpl in Hd. lia. }
      simpl. f_equal. rewrite length_app. simpl.
      rewrite <- drop_drop, Hd. done.
    + rewrite !length_app, Hrows. done.
    + intros i el' Hi. destruct (decide (i < length d2)%nat) as [Hlt|Hge].
      * rewrite lookup_app_l in Hi by done.
        rewrite lookup_app_l by lia. by apply Hlook.
      * pose proof (lookup_lt_Some _ _ _ Hi) as Hi'.
        rewrite length_app in Hi'. simpl in Hi'.
        assert (i = length d2) as -> by lia.
        rewrite lookup_app_r, Nat.sub_diag in Hi by lia. injection Hi as <-.
        rewrite lookup_app_r, Hrows, Nat.sub_diag by lia. done.
Qed.

Lemma plo_card_table :
  PLO.get_1d_card_2_2d_card_LUT plo_rules (rank_major_backend plo_rules)
  = Some (rank_major_card <$> range 0 52).
Proof. vm_compute. reflexivity. Qed.

Lemma rank_major_card_valid c : 0 ≤ c < 52 → is_card_2d plo_rules (rank_major_card c).
Proof.
  intros Hc. unfold is_card_2d, rank_major_card. simpl.
  pose proof (Z.mod_pos_bound c 4).
  assert (0 ≤ c `div` 4 < 13); [|lia].
  split; [apply Z.div_pos; lia|apply Z.div_lt_upper_bound; lia].
Qed.

Lemma mapM_np_get_fmap_range {A} (f : Z → A) n (hand : list Z) :
  Forall (λ c, 0 ≤ c < n) hand →
  mapM (np_get (f <$> range 0 n)) hand = Some (f <$> hand).
Proof.
  induction 1 as [|c hand Hc _ IH]; [done|]. simpl.
  rewrite np_get_fmap_range by done. simpl. rewrite IH. done.
Qed.

Lemma mapM_mapM_np_get_fmap_range {A} (f : Z → A) n (hcs : list (list Z)) :
  Forall (Forall (λ c, 0 ≤ c < n)) hcs →
  mapM (mapM (np_get (f <$> range 0 n))) hcs
  = Some ((λ hand : list Z, f <$> hand) <$> hcs).
Proof.
  induction 1 as [|hand hcs Hhand _ IH]; [done|]. simpl.
  rewrite mapM_np_get_fmap_range by done. simpl. rewrite IH. done.
Qed.

Lemma PLO_private_obs_row_is_Some mem i e0 e1 e2 e3 :
  is_card_2d plo_rules e0 → is_card_2d plo_rules e1 →
  is_card_2d plo_rules e2 → is_card_2d plo_rules e3 →
  is_Some (PLO.private_obs_row plo_rules mem i [e0; e1; e2; e3])
  ∧ is_Some (PLO.private_obs_row_bucketed plo_rules mem i [e0; e1; e2; e3]).
Proof.
  unfold is_card_2d. cbn [N_RANKS N_SUITS plo_rules].
  intros [? ?] [? ?] [? ?] [? ?].
  unfold PLO.private_obs_row, PLO.private_obs_row_bucketed, np_empty1.
  cbn [N_RANKS N_SUITS N_HOLE_CARDS plo_rules].
  rewrite !bool_decide_eq_true_2 by lia. rewrite !bind_Some_eq.
  rewrite !np_get_in by (simpl; lia).
  change (Z.to_nat 0) with 0%nat. change (Z.to_nat 1) with 1%nat.
  change (Z.to_nat 2) with 2%nat. change (Z.to_nat 3) with 3%nat.
  cbn [lookup list_lookup]. rewrite !bind_Some_eq.
  split.
  - repeat (rewrite np_set_in, bind_Some_eq
              by (rewrite ?length_insert, length_fmap, length_seq; lia)).
    rewrite np_set_in by (rewrite ?length_insert, length_fmap, length_seq; lia).
    by eexists.
  - repeat (rewrite np_set_in, bind_Some_eq
              by (rewrite ?length_insert, length_fmap, length_seq; lia)).
    rewrite np_set_in by (rewrite ?length_insert, length_fmap, length_seq; lia).
    by eexists.
Qed.

(** Row by row, the table of the override is what the loop body leaves in
    the buffer [np.empty] handed out for that row. *)
Lemma PLO_private_obs_rows mem bucketing :
  ∃ rows,
    PLO.get_range_idx_to_private_obs_LUT plo_rules (rank_major_backend plo_rules)
      mem bucketing = Some rows
    ∧ Z.of_nat (length rows) = RANGE_SIZE plo_rules
    ∧ ∀ i hand, PLO.get_idx_2_hole_card_LUT !! i = Some hand →
        rows !! i
        = (if negb bucketing then PLO.private_obs_row else PLO.private_obs_row_bucketed)
            plo_rules mem i (rank_major_card <$> hand).
Proof.
  unfold PLO.get_range_idx_to_private_obs_LUT.
  rewrite plo_card_table, bind_Some_eq.
  change (RANGE_SIZE plo_rules) with (comb 52 4). rewrite comb_52_4.
  unfold PLO.get_idx_2_hole_card_LUT.
  assert (∀ hand, hand ∈ combinations 4 (range 0 52) →
            ∃ a b c d, hand = [a; b; c; d] ∧ Forall (λ c, 0 ≤ c < 52) hand) as Hhands.
  { intros hand (Hl & _ & Hb)%elem_of_combinations_range.
    destruct hand as [|a [|b [|c [|d [|]]]]]; simpl in Hl; try lia.
    exists a, b, c, d. split; [reflexivity|exact Hb]. }
  assert (Z.of_nat (length (combinations 4 (range 0 52))) = 270725) as Hsize.
  { rewrite (length_combinations_range 4) by lia. apply comb_52_4. }
  set (hcs := combinations 4 (range 0 52)) in *. clearbody hcs.
  unfold np_empty2. cbn [N_SUITS N_RANKS N_HOLE_CARDS plo_rules].
  rewrite bool_decide_eq_true_2 by lia. rewrite bind_Some_eq.
  rewrite mapM_mapM_np_get_fmap_range, bind_Some_eq.
  2:{ apply Forall_forall. intros hand Hh.
      by destruct (Hhands hand Hh) as (a & b & c & d & _ & Hb). }
  set (lut0 := (λ i : nat, junk_lut mem i <$> seq 0 (Z.to_nat ((4 + 13) * 4)))
                 <$> seq 0 (Z.to_nat 270725)).
  set (d2 := (λ hand : list Z, rank_major_card <$> hand) <$> hcs).
  assert (length d2 = length lut0) as Hlen.
  { unfold d2, lut0. rewrite !length_fmap, length_seq. lia. }
  destruct (enumerate_rows
    ((if negb bucketing then PLO.private_obs_row else PLO.private_obs_row_bucketed)
       plo_rules mem) d2 lut0) as (rows & Hrun & Hrows & Hlook).
  { lia. }
  { intros i el. unfold d2. rewrite list_lookup_fmap.
    destruct (hcs !! i) as [hand|] eqn:Hi; simpl; [|done]. intros [= <-].
    destruct (Hhands hand) as (a & b & c & d & -> & Hb);
      [by eapply list_elem_of_lookup_2|].
    apply Forall_cons in Hb as [Ha Hb]. apply Forall_cons in Hb as [Hb Hc].
    apply Forall_cons in Hc as [Hc Hd]. apply Forall_cons in Hd as [Hd _].
    simpl. destruct (PLO_private_obs_row_is_Some mem i
      (rank_major_card a) (rank_major_card b) (rank_major_card c) (rank_major_card d))
      as [Hrow Hpf]; try (by apply rank_major_card_valid).
    by destruct bucketing. }
  rewrite drop_ge, app_nil_r in Hrun by lia.
  exists rows. split; [|split].
  - by destruct bucketing.
  - rewrite Hrows. unfold d2. rewrite length_fmap. lia.
  - intros i hand Hi. rewrite (Hlook i (rank_major_card <$> hand)); [done|].
    unfold d2. by rewrite list_lookup_fmap, Hi.
Qed.

Lemma PLO_second_hand : PLO.get_idx_2_hole_card_LUT !! 1%nat = Some [0; 1; 2; 4].
Proof. lazy. reflexivity. Qed.

(** C2. In the table the four-card getter builds, with and without
    bucketing, the row of range index 1 (hand 0, 1, 2, 4) keeps whatever its
    [np.empty] buffer held in the slots the loop does not assign. When that
    buffer is the recycled buffer of range index 0, the row without
    bucketing has five rank bits and five suit bits set instead of four and
    four, and the row with bucketing has five rank bits and four suit bits
    set instead of four and none. *)
Theorem plo_private_obs_keeps_buffer_content :
  ∃ lut lut_pf row row_pf,
    PLO.get_range_idx_to_private_obs_LUT plo_rules (rank_major_backend plo_rules)
      recycled_buffer false = Some lut
    ∧ PLO.get_range_idx_to_private_obs_LUT plo_rules (rank_major_backend plo_rules)
        recycled_buffer true = Some lut_pf
    ∧ np_get lut 1 = Some row ∧ np_get lut_pf 1 = Some row_pf
    ∧ np_get PLO.get_idx_2_hole_card_LUT 1 = Some [0; 1; 2; 4]
    ∧ N_HOLE_CARDS plo_rules = 4
    ∧ rank_bits_set plo_rules row = 5%nat
    ∧ suit_bits_set plo_rules row = 5%nat
    ∧ rank_bits_set plo_rules row_pf = 5%nat
    ∧ suit_bits_set plo_rules row_pf = 4%nat.
Proof.
  destruct (PLO_private_obs_rows recycled_buffer false) as (lut & Hlut & Hlen & Hrows).
  destruct (PLO_private_obs_rows recycled_buffer true) as (lut_pf & Hpf & Hlen' & Hrows').
  pose proof (Hrows _ _ PLO_second_hand) as Hrow.
  pose proof (Hrows' _ _ PLO_second_hand) as Hrow'.
  change (RANGE_SIZE plo_rules) with (comb 52 4) in Hlen, Hlen'.
  rewrite comb_52_4 in Hlen, Hlen'.
  eexists lut, lut_pf, _, _.
  split; [done|]. split; [done|].
  split; [rewrite np_get_in by lia; exact Hrow|].
  split; [rewrite np_get_in by lia; exact Hrow'|].
  split.
  { pose proof (lookup_lt_Some _ _ _ PLO_second_hand).
    rewrite np_get_in by lia. exact PLO_second_hand. }
  repeat split; vm_compute; reflexivity.
Qed.

(** ** Private observations of the base getter *)

Lemma length_one_hot_block rules suits_on card :
  length (one_hot_block rules suits_on card) = Z.to_nat (N_SUITS rules + N_RANKS rules).
Proof. unfold one_hot_block. rewrite length_fmap, length_range. lia. Qed.

Lemma length_one_hot_hand rules suits_on cards :
  length (one_hot_hand rules suits_on cards)
  = (length cards * Z.to_nat (N_SUITS rules + N_RANKS rules))%nat.
Proof.
  unfold one_hot_hand. induction cards as [|card cards IH]; [done|].
  rewrite bind_cons, length_app, IH, length_one_hot_block. simpl. lia.
Qed.

(** The two assignments of one pass, made on a zeroed block. *)
Lemma one_hot_block_inserts rules (suits_on : bool) card :
  0 < N_RANKS rules → 0 < N_SUITS rules → is_card_2d rules card →
  (if suits_on
   then <[Z.to_nat (N_RANKS rules + card.2) := 1]>
          (<[Z.to_nat card.1 := 1]>
             (replicate (Z.to_nat (N_SUITS rules + N_RANKS rules)) 0))
   else <[Z.to_nat card.1 := 1]>
          (replicate (Z.to_nat (N_SUITS rules + N_RANKS rules)) 0))
  = one_hot_block rules suits_on card.
Proof.
  intros HR HS [Hr Hs]. apply list_eq. intros i. unfold one_hot_block.
  destruct (decide (i < Z.to_nat (N_SUITS rules + N_RANKS rules))%nat) as [Hi|Hi].
  - rewrite list_lookup_fmap, lookup_range by lia. simpl.
    destruct suits_on.
    + rewrite !list_lookup_insert, !length_insert, !length_replicate.
      rewrite lookup_replicate_2 by lia.
      repeat case_decide; case_bool_decide; try done; exfalso; lia.
    + rewrite !list_lookup_insert, !length_replicate.
      rewrite lookup_replicate_2 by lia.
      repeat case_decide; case_bool_decide; try done; exfalso;
        try lia; naive_solver lia.
  - rewrite (lookup_ge_None_2 (_ <$> _)) by (rewrite length_fmap, length_range; lia).
    apply lookup_ge_None_2.
    destruct suits_on; rewrite ?length_insert, length_replicate; lia.
Qed.

Lemma insert_middle {A} (pre block post : list A) (j : nat) (v : A) :
  (j < length block)%nat →
  <[(length pre + j)%nat := v]> (pre ++ block ++ post) = pre ++ <[j := v]> block ++ post.
Proof.
  intros Hj. rewrite insert_app_r_alt by lia.
  replace (length pre + j - length pre)%nat with j by lia.
  by rewrite insert_app_l.
Qed.

(** The inner loop of the base getter over the first [k] cards of a hand. *)
Lemma base_priv_o_prefix rules range_idx_to_hc_lut hc_1d_to_2d_lut
    (preflop_suit_bucketing : bool) (range_idx : Z) (hand : list Z) (k : nat) :
  obs_tables_ok rules range_idx_to_hc_lut hc_1d_to_2d_lut →
  0 ≤ range_idx → range_idx_to_hc_lut !! Z.to_nat range_idx = Some hand →
  (k ≤ length hand)%nat →
  for_each (range 0 (Z.of_nat k))
    (λ c_id priv_o,
       c ← np_get2 range_idx_to_hc_lut range_idx c_id;
       card ← np_get hc_1d_to_2d_lut c;
       priv_o ← np_set priv_o ((N_SUITS rules + N_RANKS rules) * c_id + card.1) 1;
       if SUITS_MATTER rules then
         if negb preflop_suit_bucketing
         then np_set priv_o
                ((N_SUITS rules + N_RANKS rules) * c_id + N_RANKS rules + card.2) 1
         else Some priv_o
       else Some priv_o)
    (replicate (length hand * Z.to_nat (N_SUITS rules + N_RANKS rules)) 0)
  = Some (one_hot_hand rules (SUITS_MATTER rules && negb preflop_suit_bucketing)
            (take k (cards_of_hand hc_1d_to_2d_lut hand))
          ++ replicate ((length hand - k) * Z.to_nat (N_SUITS rules + N_RANKS rules)) 0).
Proof.
  intros (HR & HS & HNH & Hrows & Hhands & Hcards) Hidx Hhand.
  set (D := N_SUITS rules + N_RANKS rules). set (Dn := Z.to_nat D).
  set (suits_on := SUITS_MATTER rules && negb preflop_suit_bucketing).
  assert (Forall (λ c, 0 ≤ c < Z.of_nat (length hc_1d_to_2d_lut)) hand) as Hbounds.
  { eapply (proj1 (Forall_forall _ _) Hhands), list_elem_of_lookup_2, Hhand. }
  induction k as [|k IH]; intros Hk.
  - rewrite range_nil by lia. simpl. by rewrite Nat.sub_0_r.
  - change (Z.of_nat (S k)) with (0 + Z.of_nat (S k)).
    rewrite range_snoc, for_each_app, Z.add_0_l, IH by lia.
    rewrite bind_Some_eq. simpl for_each.
    destruct (lookup_lt_is_Some_2 hand k) as [c Hc]; [lia|].
    assert (0 ≤ c < Z.of_nat (length hc_1d_to_2d_lut)) as Hcb.
    { eapply (proj1 (Forall_forall _ _) Hbounds), list_elem_of_lookup_2, Hc. }
    destruct (lookup_lt_is_Some_2 hc_1d_to_2d_lut (Z.to_nat c)) as [card Hcard]; [lia|].
    assert (is_card_2d rules card) as [Hr Hs].
    { eapply (proj1 (Forall_forall _ _) Hcards), list_elem_of_lookup_2, Hcard. }
    erewrite np_get2_in; [|exact Hhand|lia|lia].
    rewrite Nat2Z.id, Hc, bind_Some_eq.
    rewrite np_get_in, Hcard, bind_Some_eq by lia.
    assert (take (S k) (cards_of_hand hc_1d_to_2d_lut hand)
            = take k (cards_of_hand hc_1d_to_2d_lut hand) ++ [card]) as ->.
    { apply take_S_r. unfold cards_of_hand.
      by rewrite list_lookup_fmap, Hc; simpl; rewrite Hcard. }
    set (pre := one_hot_hand rules suits_on (take k (cards_of_hand hc_1d_to_2d_lut hand))).
    assert (length pre = (k * Dn)%nat) as Hpre.
    { unfold pre. rewrite length_one_hot_hand, length_take.
      unfold cards_of_hand. rewrite length_fmap. fold D Dn. lia. }
    replace (length hand - k)%nat with (S (length hand - S k)) by lia.
    rewrite Nat.mul_succ_l, (Nat.add_comm _ Dn), replicate_add.
    set (post := replicate ((length hand - S k) * Dn) 0).
    assert (∀ block j v, length block = Dn → 0 ≤ j < D →
      np_set (pre ++ block ++ post) (D * Z.of_nat k + j) v
      = Some (pre ++ <[Z.to_nat j := v]> block ++ post)) as Hset.
    { intros block j v Hb Hj.
      rewrite np_set_in by (rewrite !length_app, Hpre, Hb; unfold Dn; nia).
      f_equal. replace (Z.to_nat (D * Z.of_nat k + j)) with (length pre + Z.to_nat j)%nat
        by (rewrite Hpre; unfold Dn; nia).
      apply insert_middle. unfold Dn in Hb. lia. }
    rewrite Hset, bind_Some_eq by (rewrite ?length_replicate; unfold D; lia).
    pose proof (one_hot_block_inserts rules suits_on card HR HS (conj Hr Hs)) as Hblock.
    fold D Dn in Hblock.
    unfold one_hot_hand. rewrite bind_app. fold (one_hot_hand rules suits_on).
    fold pre. simpl. rewrite app_nil_r, <- app_assoc.
    unfold suits_on in *.
    destruct (SUITS_MATTER rules), preflop_suit_bucketing; simpl in *;
      try (by rewrite <- Hblock).
    rewrite <- Z.add_assoc.
    rewrite Hset by (rewrite ?length_insert, ?length_replicate; unfold D; lia).
    by rewrite <- Hblock.
Qed.

Lemma fmap_range_lookup {A B} (g : A → B) (d : A) (l : list A) :
  (λ i, g (default d (l !! Z.to_nat i))) <$> range 0 (Z.of_nat (length l)) = g <$> l.
Proof.
  apply list_eq. intros i. rewrite !list_lookup_fmap.
  destruct (decide (i < length l)%nat) as [Hi|Hi].
  - rewrite lookup_range by lia. simpl. rewrite Z.add_0_l, Nat2Z.id.
    destruct (lookup_lt_is_Some_2 l i Hi) as [x ->]. done.
  - rewrite (lookup_ge_None_2 (range _ _)) by (rewrite length_range; lia).
    by rewrite (lookup_ge_None_2 l) by lia.
Qed.

(** The table of the base getter: row by row the one-hot vector of the
    hand. *)
Lemma base_private_obs_table rules range_idx_to_hc_lut hc_1d_to_2d_lut
    (preflop_suit_bucketing : bool) :
  obs_tables_ok rules range_idx_to_hc_lut hc_1d_to_2d_lut →
  get_range_idx_to_private_obs_LUT rules range_idx_to_hc_lut hc_1d_to_2d_lut
    preflop_suit_bucketing
  = Some ((λ hand, one_hot_hand rules (SUITS_MATTER rules && negb preflop_suit_bucketing)
                     (cards_of_hand hc_1d_to_2d_lut hand))
            <$> range_idx_to_hc_lut).
Proof.
  intros Hok. pose proof Hok as (HR & HS & HNH & Hrows & Hhands & Hcards).
  unfold get_range_idx_to_private_obs_LUT.
  set (D := N_SUITS rules + N_RANKS rules).
  set (suits_on := SUITS_MATTER rules && negb preflop_suit_bucketing).
  unfold np_full2, np_full1.
  rewrite !bool_decide_eq_true_2 by (unfold D; nia). rewrite !bind_Some_eq.
  rewrite <- (fmap_range_lookup _ []), Hrows.
  apply fill_all_with; [rewrite length_replicate; lia|].
  intros range_idx lut Hidx Hlen _. rewrite length_replicate in Hlen.
  rewrite bind_Some_eq.
  destruct (lookup_lt_is_Some_2 range_idx_to_hc_lut (Z.to_nat range_idx)) as [hand Hhand];
    [lia|].
  assert (Z.of_nat (length hand) = N_HOLE_CARDS rules) as Hl.
  { eapply (proj1 (Forall_forall _ _) Hhands), list_elem_of_lookup_2, Hhand. }
  rewrite Hhand. simpl default.
  replace (Z.to_nat (N_HOLE_CARDS rules * D))
    with (length hand * Z.to_nat D)%nat by (unfold D; nia).
  rewrite <- Hl.
  unfold D. rewrite (base_priv_o_prefix rules _ _ _ range_idx hand (length hand) Hok);
    [|lia|done|lia].
  rewrite bind_Some_eq, Nat.sub_diag. simpl replicate. rewrite app_nil_r.
  rewrite take_ge by (unfold cards_of_hand; rewrite length_fmap; lia).
  apply np_set_in. lia.
Qed.

Lemma length_filter_fmap {A B} (f : A → B) (P : B → Prop) `{∀ y, Decision (P y)}
    (l : list A) :
  length (filter P (f <$> l)) = length (filter (λ x, P (f x)) l).
Proof.
  induction l as [|x l IH]; [done|]. rewrite fmap_cons, !filter_cons.
  destruct (decide (P (f x))); simpl; by rewrite IH.
Qed.

Lemma filter_eq_range (r n : Z) :
  0 ≤ r < n → filter (λ j, j = r) (range 0 n) = [r].
Proof.
  intros Hr. rewrite filter_eq_NoDup by apply NoDup_range.
  rewrite decide_True; [done|]. by apply elem_of_range.
Qed.

Section bit_counts.
Context (rules : Rules).
Hypothesis HR : 0 < N_RANKS rules.
Hypothesis HS : 0 < N_SUITS rules.

Lemma lookup_one_hot_block (suits_on : bool) card (j : Z) :
  0 ≤ j < N_SUITS rules + N_RANKS rules →
  one_hot_block rules suits_on card !! Z.to_nat j
  = Some (if bool_decide (j = card.1 ∨ (suits_on = true ∧ j = N_RANKS rules + card.2))
          then 1 else 0).
Proof.
  intros Hj. unfold one_hot_block.
  rewrite list_lookup_fmap, lookup_range by lia. simpl.
  by rewrite Z.add_0_l, Z2Nat.id by lia.
Qed.

Lemma rank_bits_block (suits_on : bool) card :
  is_card_2d rules card → rank_bits_set rules (one_hot_block rules suits_on card) = 1%nat.
Proof.
  intros [Hr Hs]. unfold rank_bits_set.
  rewrite length_one_hot_block, Z2Nat.id by lia.
  rewrite (filter_ext_in _ (λ j, j = card.1)).
  { rewrite filter_eq_range by lia. done. }
  intros j Hj%elem_of_range. rewrite lookup_one_hot_block by done.
  unfold is_rank_slot. rewrite Z.mod_small by lia.
  case_bool_decide as Hd; split.
  - intros [Hlt _]. destruct Hd as [?|[_ ?]]; lia.
  - intros ->. split; [lia|done].
  - by intros [_ [=]].
  - intros ->. exfalso. apply Hd. by left.
Qed.

Lemma suit_bits_block (suits_on : bool) card :
  is_card_2d rules card →
  suit_bits_set rules (one_hot_block rules suits_on card)
  = if suits_on then 1%nat else 0%nat.
Proof.
  intros [Hr Hs]. unfold suit_bits_set.
  rewrite length_one_hot_block, Z2Nat.id by lia.
  destruct suits_on.
  - rewrite (filter_ext_in _ (λ j, j = N_RANKS rules + card.2)).
    { rewrite filter_eq_range by lia. done. }
    intros j Hj%elem_of_range. rewrite lookup_one_hot_block by done.
    unfold is_rank_slot. rewrite Z.mod_small by lia.
    case_bool_decide as Hd; split.
    + intros [Hge _]. destruct Hd as [?|[_ ?]]; lia.
    + intros ->. split; [lia|done].
    + by intros [_ [=]].
    + intros ->. exfalso. apply Hd. by right.
  - rewrite length_filter_none; [done|].
    intros j Hj%elem_of_range. rewrite lookup_one_hot_block by done.
    unfold is_rank_slot. rewrite Z.mod_small by lia.
    intros [Hge Hv]. case_bool_decide as Hd; [|done].
    destruct Hd as [?|[? _]]; [lia|done].
Qed.

(** Counting in a vector that starts with a whole block. *)
Lemma bits_app (P : Z → Prop) `{∀ j, Decision (P j)} (block rest : list Z) :
  Z.of_nat (length block) = N_SUITS rules + N_RANKS rules →
  (∀ j, P (j + (N_SUITS rules + N_RANKS rules)) ↔ P j) →
  length (filter (λ j, P j ∧ (block ++ rest) !! Z.to_nat j = Some 1)
            (range 0 (Z.of_nat (length (block ++ rest)))))
  = Nat.add
      (length (filter (λ j, P j ∧ block !! Z.to_nat j = Some 1)
                 (range 0 (Z.of_nat (length block)))))
      (length (filter (λ j, P j ∧ rest !! Z.to_nat j = Some 1)
                 (range 0 (Z.of_nat (length rest))))).
Proof.
  intros Hb HP. set (D := N_SUITS rules + N_RANKS rules) in *.
  rewrite length_app, Nat2Z.inj_add.
  rewrite (range_app 0 (Z.of_nat (length block))), filter_app, length_app by lia.
  f_equal.
  - f_equal. apply filter_ext_in. intros j Hj%elem_of_range.
    by rewrite lookup_app_l by lia.
  - pose proof (range_shift (Z.of_nat (length block)) 0 (Z.of_nat (length rest))) as Hsh.
    rewrite !Z.add_0_r, Z.add_0_l in Hsh. rewrite Hsh.
    rewrite length_filter_fmap. f_equal.
    apply filter_ext_in. intros j Hj%elem_of_range.
    rewrite lookup_app_r by lia.
    replace (Z.to_nat (Z.of_nat (length block) + j) - length block)%nat
      with (Z.to_nat j) by lia.
    rewrite Hb, (Z.add_comm D j), HP. done.
Qed.

Lemma is_rank_slot_shift j :
  is_rank_slot rules (j + (N_SUITS rules + N_RANKS rules)) ↔ is_rank_slot rules j.
Proof.
  unfold is_rank_slot.
  rewrite <- (Z.mul_1_l (N_SUITS rules + N_RANKS rules)) at 1.
  by rewrite Z.mod_add by lia.
Qed.

Lemma bits_one_hot_hand (suits_on : bool) cards :
  Forall (is_card_2d rules) cards →
  rank_bits_set rules (one_hot_hand rules suits_on cards) = length cards
  ∧ suit_bits_set rules (one_hot_hand rules suits_on cards)
    = (if suits_on then length cards else 0%nat)
  ∧ Forall (λ v, v = 0 ∨ v = 1) (one_hot_hand rules suits_on cards).
Proof.
  induction 1 as [|card cards Hcard _ (IHr & IHs & IHv)].
  - split; [done|]. split; [by destruct suits_on|constructor].
  - unfold one_hot_hand. rewrite bind_cons. fold (one_hot_hand rules suits_on cards).
    assert (Z.of_nat (length (one_hot_block rules suits_on card))
            = N_SUITS rules + N_RANKS rules) as Hb
      by (rewrite length_one_hot_block; lia).
    split; [|split].
    + unfold rank_bits_set. rewrite (bits_app (is_rank_slot rules)); [|done|].
      2:{ apply is_rank_slot_shift. }
      fold (rank_bits_set rules (one_hot_block rules suits_on card)).
      fold (rank_bits_set rules (one_hot_hand rules suits_on cards)).
      rewrite rank_bits_block, IHr by done. done.
    + unfold suit_bits_set.
      rewrite (bits_app (λ j, ¬ is_rank_slot rules j)); [|done|].
      2:{ intros j. by rewrite is_rank_slot_shift. }
      fold (suit_bits_set rules (one_hot_block rules suits_on card)).
      fold (suit_bits_set rules (one_hot_hand rules suits_on cards)).
      rewrite suit_bits_block, IHs by done. by destruct suits_on.
    + apply Forall_app. split; [|done].
      unfold one_hot_block. apply Forall_fmap, Forall_forall. intros j _. simpl.
      case_bool_decide; auto.
Qed.

End bit_counts.

(** X11. What the base getter builds from sound tables: one row per range
    index, each a 0/1 vector of N_HOLE_CARDS blocks with exactly N_HOLE_CARDS
    rank slots at 1 and, when suits matter and bucketing is off, exactly
    N_HOLE_CARDS suit slots at 1, none otherwise. *)
Theorem base_private_obs_bits rules range_idx_to_hc_lut hc_1d_to_2d_lut
    (preflop_suit_bucketing : bool) :
  obs_tables_ok rules range_idx_to_hc_lut hc_1d_to_2d_lut →
  ∃ lut,
    get_range_idx_to_private_obs_LUT rules range_idx_to_hc_lut hc_1d_to_2d_lut
      preflop_suit_bucketing = Some lut
    ∧ Z.of_nat (length lut) = RANGE_SIZE rules
    ∧ ∀ range_idx, 0 ≤ range_idx < RANGE_SIZE rules →
        ∃ priv_o, np_get lut range_idx = Some priv_o
          ∧ Z.of_nat (length priv_o)
            = N_HOLE_CARDS rules * (N_SUITS rules + N_RANKS rules)
          ∧ Z.of_nat (rank_bits_set rules priv_o) = N_HOLE_CARDS rules
          ∧ Z.of_nat (suit_bits_set rules priv_o)
            = (if SUITS_MATTER rules && negb preflop_suit_bucketing
               then N_HOLE_CARDS rules else 0)
          ∧ Forall (λ v, v = 0 ∨ v = 1) priv_o.
Proof.
  intros Hok. pose proof Hok as (HR & HS & HNH & Hrows & Hhands & Hcards).
  eexists. split; [by apply base_private_obs_table|].
  split; [by rewrite length_fmap|].
  intros range_idx Hidx.
  destruct (lookup_lt_is_Some_2 range_idx_to_hc_lut (Z.to_nat range_idx)) as [hand Hhand];
    [lia|].
  destruct (proj1 (Forall_forall _ _) Hhands hand) as [Hl Hb];
    [by eapply list_elem_of_lookup_2|].
  eexists. split.
  { rewrite np_get_in by (rewrite length_fmap; lia).
    by rewrite list_lookup_fmap, Hhand. }
  assert (length (cards_of_hand hc_1d_to_2d_lut hand) = length hand) as Hlc
    by (unfold cards_of_hand; by rewrite length_fmap).
  assert (Forall (is_card_2d rules) (cards_of_hand hc_1d_to_2d_lut hand)) as Hvalid.
  { unfold cards_of_hand. apply Forall_fmap, Forall_forall. intros c Hc. simpl.
    pose proof (proj1 (Forall_forall _ _) Hb c Hc) as Hcb. simpl in Hcb.
    destruct (lookup_lt_is_Some_2 hc_1d_to_2d_lut (Z.to_nat c)) as [card Hcard]; [lia|].
    rewrite Hcard. simpl.
    eapply (proj1 (Forall_forall _ _) Hcards), list_elem_of_lookup_2, Hcard. }
  destruct (bits_one_hot_hand rules HR HS
    (SUITS_MATTER rules && negb preflop_suit_bucketing) _ Hvalid) as (Hrk & Hst & Hv).
  split; [rewrite length_one_hot_hand, Hlc; nia|].
  split; [rewrite Hrk, Hlc; lia|].
  split; [|done].
  rewrite Hst, Hlc. by destruct (SUITS_MATTER rules && negb preflop_suit_bucketing).
Qed.

Lemma Leduc_obs_tables_ok rules :
  deck_ok rules → N_HOLE_CARDS rules = 1 →
  obs_tables_ok rules (Leduc.get_idx_2_hole_card_LUT rules)
    (Leduc._get_2d_card rules <$> range 0 (N_CARDS_IN_DECK rules)).
Proof.
  intros Hok Hk. pose proof Hok as (HR & HS & HN & H8).
  unfold obs_tables_ok, Leduc.get_idx_2_hole_card_LUT, np_expand_dims, np_arange.
  rewrite !length_fmap, !length_range.
  split; [done|]. split; [done|]. split; [lia|]. split; [|split].
  - unfold RANGE_SIZE, get_range_size. rewrite Hk, comb_1 by nia. nia.
  - apply Forall_fmap, Forall_forall. intros c Hc%elem_of_range. simpl.
    split; [lia|]. constructor; [lia|constructor].
  - apply Forall_fmap, Forall_forall. intros c Hc%elem_of_range. simpl.
    destruct (Leduc_get_2d_card_range rules c Hok Hc) as (-> & Hr & Hs). done.
Qed.

(** The single-card holder can always be built from well-formed rules. *)
Lemma LutHolderLeduc_is_Some rules : leduc_like rules → is_Some (LutHolderLeduc rules).
Proof.
  intros (Hok & Hk & Hbefore). pose proof Hok as (HR & HS & HN & H8).
  unfold LutHolderLeduc, _LutHolderBase_init. simpl.
  rewrite Leduc_1d_2_2d_table by nia. rewrite bind_Some_eq.
  rewrite Leduc_2d_2_1d_table by lia. rewrite bind_Some_eq.
  rewrite !bind_Some_eq. cbv beta.
  rewrite !(base_private_obs_table rules) by (by apply Leduc_obs_tables_ok).
  rewrite !bind_Some_eq. cbv beta.
  destruct (n_boards_LUT_entries rules) as (boards & -> & _).
  destruct (n_board_branches_total rules Hbefore) as (branches & ->).
  by eexists.
Qed.

(** C8. In the single-card variant the range is the deck: the holder is
    built, RANGE_SIZE equals N_CARDS_IN_DECK, the index-to-hole-card table has
    that many rows, and for every card id c of the deck row c of that table
    is [c], cell (c, 0) of the inverse table is c, and the holder maps the
    one-card hand holding c to range index c and range index c back to that
    hand. *)
Theorem leduc_range_idx_is_card_id (tk : Tokens) (rules : Rules) :
  tokens_ok tk → leduc_like rules →
  ∃ self, LutHolderLeduc rules = Some self
  ∧ RANGE_SIZE rules = N_CARDS_IN_DECK rules
  ∧ Z.of_nat (length (LUT_IDX_2_HOLE_CARDS self)) = N_CARDS_IN_DECK rules
  ∧ ∀ c, 0 ≤ c < N_CARDS_IN_DECK rules →
      np_get (LUT_IDX_2_HOLE_CARDS self) c = Some [c]
      ∧ np_get2 (LUT_HOLE_CARDS_2_IDX self) c 0 = Some c
      ∧ get_1d_hole_cards_from_range_idx self c = Some [c]
      ∧ ∃ card, np_get (LUT_1DCARD_2_2DCARD self) c = Some card
                ∧ Leduc_get_range_idx_from_hole_cards tk self (Entries [card]) = Some c
                ∧ Leduc_get_2d_hole_cards_from_range_idx self c = Some [card].
Proof.
  intros Htk Hrules. destruct (LutHolderLeduc_is_Some rules Hrules) as [self Hself].
  destruct Hrules as (Hok & Hk & _).
  exists self. split; [done|]. by apply leduc_holder_identity.
Qed.

Lemma leduc_range_idx_is_card_id_witness :
  ∃ self, LutHolderLeduc leduc_rules = Some self
  ∧ RANGE_SIZE leduc_rules = N_CARDS_IN_DECK leduc_rules
  ∧ Z.of_nat (length (LUT_IDX_2_HOLE_CARDS self)) = N_CARDS_IN_DECK leduc_rules
  ∧ ∀ c, 0 ≤ c < N_CARDS_IN_DECK leduc_rules →
      np_get (LUT_IDX_2_HOLE_CARDS self) c = Some [c]
      ∧ np_get2 (LUT_HOLE_CARDS_2_IDX self) c 0 = Some c
      ∧ get_1d_hole_cards_from_range_idx self c = Some [c]
      ∧ ∃ card, np_get (LUT_1DCARD_2_2DCARD self) c = Some card
                ∧ Leduc_get_range_idx_from_hole_cards poker_tokens self
                    (Entries [card]) = Some c
                ∧ Leduc_get_2d_hole_cards_from_range_idx self c = Some [card].
Proof.
  apply (leduc_range_idx_is_card_id poker_tokens leduc_rules).
  - unfold tokens_ok. simpl. split; [lia|reflexivity].
  - split; [unfold deck_ok; simpl; lia|]. split; [reflexivity|].
    intros r Hr Hne. simpl in Hr.
    apply elem_of_cons in Hr as [->|Hr]; [done|].
    apply elem_of_cons in Hr as [->|Hr]; [vm_compute; eauto|].
    by apply elem_of_nil in Hr.
Defined.

Example leduc_holder_hole_cards :
  LUT_IDX_2_HOLE_CARDS leduc_holder = [[0]; [1]; [2]; [3]; [4]; [5]]
  ∧ Leduc_get_range_idx_from_hole_cards poker_tokens leduc_holder (Entries [(2, 1)])
    = Some 5
  ∧ get_1d_hole_cards_from_range_idx leduc_holder 5 = Some [5].
Proof. repeat split. Qed.

(** ** Small decks *)

(** The two-card tables on a deck of four cards. *)
Example four_card_holdem_tables :
  Holdem.spec_idx_2_hole_card_lut 4 = [[0; 1]; [0; 2]; [0; 3]; [1; 2]; [1; 3]; [2; 3]]
  ∧ (Holdem.spec_hole_card_2_idx_lut 4 ≫= λ lut, nd_get lut [1; 3]) = Some 4
  ∧ (Holdem.spec_hole_card_2_idx_lut 4 ≫= λ lut, nd_get lut [3; 1]) = Some (-2)
  ∧ Holdem.get_card_in_what_range_idxs_LUT four_card_holdem_rules
      (rank_major_backend four_card_holdem_rules)
    = Some [[0; 1; 2]; [0; 3; 4]; [1; 3; 5]; [2; 4; 5]].
Proof. repeat split; vm_compute; reflexivity. Qed.

(** The four-card getter lists the hands of a 52-card deck whatever the rules
    say, while its inverse table is sized and numbered by N_CARDS_IN_DECK:
    on a deck of six cards range index 3 is the hand 0, 1, 2, 6, which is
    outside the inverse table, and the hand 0, 1, 3, 4, numbered 3 by the
    inverse table, is not at index 3. *)
Example PLO_tables_need_52_cards :
  PLO.get_idx_2_hole_card_LUT !! 3%nat = Some [0; 1; 2; 6]
  ∧ (PLO.get_hole_card_2_idx_LUT six_card_plo_rules ≫= λ lut, nd_get lut [0; 1; 2; 6])
    = None
  ∧ (PLO.get_hole_card_2_idx_LUT six_card_plo_rules ≫= λ lut, nd_get lut [0; 1; 3; 4])
    = Some 3.
Proof.
  split; [lazy; reflexivity|]. split; vm_compute; reflexivity.
Qed.

(** * Further properties of the getters and holders *)

(** ** Round tables *)

Lemma for_each_None {X S} (xs : list X) (body : X → S → option S) (x : X) (s : S) :
  x ∈ xs → (∀ s', body x s' = None) → for_each xs body s = None.
Proof.
  revert s. induction xs as [|y xs IH]; intros s Hx Hbody.
  - by apply elem_of_nil in Hx.
  - simpl. apply elem_of_cons in Hx as [->|Hx].
    + by rewrite Hbody.
    + destruct (body y s) as [s'|]; simpl; [by apply IH|done].
Qed.

(** X1. The board-count table is always built. Its keys are exactly the
    rounds of ALL_ROUNDS_LIST, and the entry of a round is the number of ways
    to pick, out of N_RANKS * N_SUITS cards, as many cards as are dealt in
    the transition to that round. *)
Theorem n_boards_table (rules : Rules) :
  ∃ lut, get_n_boards_LUT rules = Some lut
    ∧ (∀ r, r ∈ ALL_ROUNDS_LIST rules →
         ∃ k, get_n_cards_dealt_in_transition_to_LUT rules !! r = Some k
              ∧ lut !! r = Some (comb (N_RANKS rules * N_SUITS rules) k))
    ∧ (∀ r, r ∉ ALL_ROUNDS_LIST rules → lut !! r = None).
Proof.
  destruct (for_each_store
    (λ r, k ← get_n_cards_dealt_in_transition_to_LUT rules !! r;
          Some (comb (N_RANKS rules * N_SUITS rules) k))
    (ALL_ROUNDS_LIST rules) ∅) as (m & Hm & Hin & Hout).
  { intros r _. rewrite n_cards_dealt_in_transition_to_total. by eexists. }
  exists m. split; [|split].
  - unfold get_n_boards_LUT. rewrite <- Hm. apply for_each_ext.
    intros r lut _. by destruct (_ !! r).
  - intros r Hr. rewrite (Hin r Hr), n_cards_dealt_in_transition_to_total.
    by eexists.
  - intros r Hr. by rewrite (Hout r Hr).
Qed.

(** X2. The two card-count tables agree: the number of cards out at a round
    is the sum of the cards dealt in the transitions to the rounds up to and
    including it, and both tables have an entry for each of the four
    rounds. *)
Theorem n_cards_out_is_running_total (rules : Rules) (r : Round) :
  ∃ out dealt,
    get_n_cards_out_at_LUT rules !! r = Some out
    ∧ mapM (λ r', get_n_cards_dealt_in_transition_to_LUT rules !! r') (rounds_through r)
      = Some dealt
    ∧ out = foldr Z.add 0 dealt.
Proof.
  destruct r; eexists _, _; (split; [reflexivity|]); (split; [reflexivity|]);
    simpl; lia.
Qed.

Lemma ROUND_BEFORE_cases (rules : Rules) (f : Round → option Z) :
  (∀ r, r ∈ filter (λ _r, _r ≠ PREFLOP) (ALL_ROUNDS_LIST rules) → is_Some (f r))
  ∨ (∃ r, r ∈ filter (λ _r, _r ≠ PREFLOP) (ALL_ROUNDS_LIST rules) ∧ f r = None).
Proof.
  induction (filter (λ _r, _r ≠ PREFLOP) (ALL_ROUNDS_LIST rules)) as [|x xs IH].
  - left. by intros r ?%elem_of_nil.
  - destruct (f x) as [v|] eqn:Hx.
    + destruct IH as [Hall|(r & Hr & Hnone)].
      * left. intros r [->|Hr]%elem_of_cons; [by eexists|by apply Hall].
      * right. exists r. split; [by right|done].
    + right. exists x. split; [left|done].
Qed.

(** X3. The board-branch table is built exactly when every round of
    ALL_ROUNDS_LIST other than PREFLOP has an entry in ROUND_BEFORE (a
    missing one is a KeyError). When it is built, PREFLOP has the entry 0
    whether or not it is listed, and a round that is neither PREFLOP nor
    listed has no entry. *)
Theorem n_board_branches_defined (rules : Rules) :
  (is_Some (get_n_board_branches_LUT rules)
   ↔ ∀ r, r ∈ ALL_ROUNDS_LIST rules → r ≠ PREFLOP → is_Some (ROUND_BEFORE rules !! r))
  ∧ ∀ lut, get_n_board_branches_LUT rules = Some lut →
      lut !! PREFLOP = Some 0
      ∧ ∀ r, r ≠ PREFLOP → r ∉ ALL_ROUNDS_LIST rules → lut !! r = None.
Proof.
  set (f := λ r : Round,
    before ← ROUND_BEFORE rules !! r;
    out ← get_n_cards_out_at_LUT rules !! before;
    k ← get_n_cards_dealt_in_transition_to_LUT rules !! r;
    Some (get_range_size k (N_CARDS_IN_DECK rules - out - N_HOLE_CARDS rules))).
  assert (get_n_board_branches_LUT rules
          = for_each (filter (λ _r, _r ≠ PREFLOP) (ALL_ROUNDS_LIST rules))
              (λ r lut, v ← f r; Some (<[r:=v]> lut)) {[ PREFLOP := 0 ]}) as Hloop.
  { unfold get_n_board_branches_LUT. apply for_each_ext. intros r lut _. unfold f.
    destruct (ROUND_BEFORE rules !! r); simpl; [|done].
    destruct (get_n_cards_out_at_LUT rules !! _); simpl; [|done].
    by destruct (get_n_cards_dealt_in_transition_to_LUT rules !! r). }
  split; [split|].
  - intros Hsome r Hr Hne.
    destruct (ROUND_BEFORE rules !! r) as [b|] eqn:Hb; [by eexists|].
    rewrite Hloop in Hsome.
    rewrite (for_each_None _ _ r) in Hsome; [by destruct Hsome| |].
    + by apply list_elem_of_filter.
    + intros lut. unfold f. by rewrite Hb.
  - apply n_board_branches_total.
  - intros lut Hlut. rewrite Hloop in Hlut.
    destruct (ROUND_BEFORE_cases rules f) as [Hall|(r & Hr & Hnone)].
    + destruct (for_each_store f (filter (λ _r, _r ≠ PREFLOP) (ALL_ROUNDS_LIST rules))
        {[ PREFLOP := 0 ]} Hall) as (m & Hm & _ & Hout).
      rewrite Hm in Hlut. injection Hlut as <-. split.
      * rewrite Hout; [apply lookup_singleton_eq|].
        by intros [Hne _]%list_elem_of_filter.
      * intros r Hne Hr. rewrite Hout; [by apply lookup_singleton_ne|].
        by intros [_ ?]%list_elem_of_filter.
    + rewrite (for_each_None _ _ r) in Hlut; [done|done|].
      intros lut'. by rewrite Hnone.
Qed.

Example n_board_branches_missing_predecessor :
  get_n_board_branches_LUT rules_without_turn_predecessor = None
  ∧ (get_n_board_branches_LUT leduc_rules ≫= λ lut, Some (lut !! TURN)) = Some None.
Proof. split; vm_compute; reflexivity. Qed.

(** ** More on the batch conversions *)

Lemma np_get_is_Some {A} (a : list A) (i : Z) :
  is_Some (np_get a i) ↔ - Z.of_nat (length a) ≤ i < Z.of_nat (length a).
Proof.
  unfold np_get, np_norm. split.
  - intros [x Hx]. repeat case_bool_decide; simpl in Hx; try done; lia.
  - intros Hi. destruct (decide (0 ≤ i)) as [Hpos|Hneg].
    + rewrite bool_decide_eq_true_2 by lia. simpl.
      apply lookup_lt_is_Some_2. lia.
    + rewrite bool_decide_eq_false_2, bool_decide_eq_true_2 by lia. simpl.
      apply lookup_lt_is_Some_2. lia.
Qed.

Lemma zip_with_length_l {A B C} (f : A → B → C) (l : list A) (k : list B) :
  length l = length k → length (zip_with f l k) = length l.
Proof. intros. rewrite length_zip_with. lia. Qed.

(** X4. [get_2d_cards] returns a result exactly when every entry is the
    token or a legal index of the card table, that is within
    [-N_CARDS_IN_DECK, N_CARDS_IN_DECK): an id at or past the deck size
    raises, while a negative id other than the token is taken from the end
    of the table. The result has one pair per entry. *)
Theorem get_2d_cards_defined {HC2IDX} (tk : Tokens) (self : LutHolder HC2IDX)
    (cards_1d : list Z) :
  (0 < length (LUT_1DCARD_2_2DCARD self))%nat →
  (is_Some (get_2d_cards tk self (Entries cards_1d))
   ↔ Forall (λ c, c = CARD_NOT_DEALT_TOKEN_1D tk
                  ∨ - Z.of_nat (length (LUT_1DCARD_2_2DCARD self)) ≤ c
                    < Z.of_nat (length (LUT_1DCARD_2_2DCARD self))) cards_1d)
  ∧ (∀ out, get_2d_cards tk self (Entries cards_1d) = Some out →
       length out = length cards_1d
       ∧ ∀ (i : nat) c, cards_1d !! i = Some c → c ≠ CARD_NOT_DEALT_TOKEN_1D tk →
           out !! i = Some
             (default (0, 0)
                (LUT_1DCARD_2_2DCARD self
                 !! Z.to_nat (if bool_decide (0 ≤ c) then c
                              else Z.of_nat (length (LUT_1DCARD_2_2DCARD self)) + c)))).
Proof.
  intros Hn.
  assert (∀ c, is_Some (np_get (LUT_1DCARD_2_2DCARD self) (mask_token tk c))
            ↔ c = CARD_NOT_DEALT_TOKEN_1D tk
              ∨ - Z.of_nat (length (LUT_1DCARD_2_2DCARD self)) ≤ c
                < Z.of_nat (length (LUT_1DCARD_2_2DCARD self))) as Hmask.
  { intros c. rewrite np_get_is_Some. unfold mask_token.
    case_bool_decide as Hc; [split; [by left|lia]|].
    split; [by right|]. by intros [?|?]. }
  assert (is_Some (mapM (np_get (LUT_1DCARD_2_2DCARD self)) (mask_token tk <$> cards_1d))
          ↔ Forall (λ c, c = CARD_NOT_DEALT_TOKEN_1D tk
                         ∨ - Z.of_nat (length (LUT_1DCARD_2_2DCARD self)) ≤ c
                           < Z.of_nat (length (LUT_1DCARD_2_2DCARD self))) cards_1d)
    as Hiff.
  { rewrite mapM_is_Some, Forall_fmap. apply Forall_iff. intros c. apply Hmask. }
  assert (get_2d_cards tk self (Entries cards_1d)
          = cards_2d ← mapM (np_get (LUT_1DCARD_2_2DCARD self)) (mask_token tk <$> cards_1d);
            Some (zip_with
                    (λ c card, if bool_decide (c = CARD_NOT_DEALT_TOKEN_1D tk)
                               then CARD_NOT_DEALT_TOKEN_2D tk else card)
                    cards_1d cards_2d)) as ->.
  { by destruct cards_1d. }
  rewrite <- Hiff.
  destruct (mapM (np_get (LUT_1DCARD_2_2DCARD self)) (mask_token tk <$> cards_1d))
    as [looked|] eqn:Hlooked; simpl.
  2:{ split; [done|]. by intros out. }
  split; [split; intros _; by eexists|].
  intros out [= <-].
  apply mapM_Some_1, Forall2_fmap_l in Hlooked.
  pose proof (Forall2_length _ _ _ Hlooked) as Hlen.
  split; [by apply zip_with_length_l|].
  intros i c Hi Hne.
  destruct (Forall2_lookup_l _ _ _ _ _ Hlooked Hi) as (card & Hcard & Hget).
  rewrite lookup_zip_with, Hi, Hcard. simpl.
  rewrite bool_decide_eq_false_2 by done. f_equal.
  cbv beta in Hget. unfold compose, mask_token in Hget.
  rewrite bool_decide_eq_false_2 in Hget by done.
  unfold np_get, np_norm in Hget.
  repeat case_bool_decide; simpl in Hget; try done; try lia; by rewrite Hget.
Qed.

Lemma get_2d_cards_defined_witness :
  (is_Some (get_2d_cards poker_tokens leduc_holder (Entries [-1; 5; -2]))
   ↔ Forall (λ c, c = CARD_NOT_DEALT_TOKEN_1D poker_tokens
                  ∨ - Z.of_nat (length (LUT_1DCARD_2_2DCARD leduc_holder)) ≤ c
                    < Z.of_nat (length (LUT_1DCARD_2_2DCARD leduc_holder))) [-1; 5; -2])
  ∧ (∀ out, get_2d_cards poker_tokens leduc_holder (Entries [-1; 5; -2]) = Some out →
       length out = length [-1; 5; -2]
       ∧ ∀ (i : nat) c, [-1; 5; -2] !! i = Some c →
           c ≠ CARD_NOT_DEALT_TOKEN_1D poker_tokens →
           out !! i = Some
             (default (0, 0)
                (LUT_1DCARD_2_2DCARD leduc_holder
                 !! Z.to_nat (if bool_decide (0 ≤ c) then c
                              else Z.of_nat (length (LUT_1DCARD_2_2DCARD leduc_holder)) + c)))).
Proof.
  apply (get_2d_cards_defined poker_tokens leduc_holder [-1; 5; -2]). simpl. lia.
Defined.

Example get_2d_cards_bounds :
  get_2d_cards poker_tokens leduc_holder (Entries [0; 6]) = None
  ∧ get_2d_cards poker_tokens leduc_holder (Entries [-1; 5; -2])
    = Some [(-1, -1); (2, 1); (2, 0)].
Proof. split; vm_compute; reflexivity. Qed.

Lemma Forall2_compose_eq {A B} (R1 : A → B → Prop) (R2 : B → A → Prop)
    (l : list A) (k : list B) (m : list A) :
  (∀ x y z, R1 x y → R2 y z → z = x) →
  Forall2 R1 l k → Forall2 R2 k m → m = l.
Proof.
  intros HR H1. revert m. induction H1 as [|x y l k Hxy _ IH]; intros m H2.
  - by apply Forall2_nil_inv_l in H2.
  - apply Forall2_cons_inv_l in H2 as (z & m' & Hyz & Hm & ->).
    f_equal; [by eapply HR|by apply IH].
Qed.

Lemma Leduc_tables_inverse rules self :
  deck_ok rules → LutHolderLeduc rules = Some self → card_tables_inverse rules self.
Proof.
  intros Hok Hself.
  destruct (LutHolderLeduc_tables rules self Hself) as (H1 & H2 & _).
  destruct (card_conversions_tables rules _ _ Hok H1 H2) as (Hto & Hfrom).
  split.
  - intros c Hc. destruct (Hto c Hc) as (rank & suit & Hget & _ & Hr & Hs & Hback).
    exists (rank, suit). split; [done|]. split; [by split|done].
  - intros [rank suit] [Hr Hs]. simpl in Hr, Hs.
    destruct (Hfrom rank suit Hr Hs) as (c & Hget & _ & Hc & Hback).
    exists c. split; [done|]. split; done.
Qed.

(** X5. On a holder whose two card tables have the prescribed shape and are
    inverse to each other, the batch conversions undo each other on every
    sequence of cards and "not dealt" tokens, the empty sequence included:
    converting ids to pairs and back returns the ids, and converting pairs to
    ids and back returns the pairs. *)
Theorem batch_conversions_round_trip {HC2IDX} (tk : Tokens) (rules : Rules)
    (self : LutHolder HC2IDX) :
  tokens_ok tk → card_tables_shaped rules self → card_tables_inverse rules self →
  (∀ cards_1d,
     Forall (λ c, c = CARD_NOT_DEALT_TOKEN_1D tk ∨ 0 ≤ c < N_CARDS_IN_DECK rules) cards_1d →
     ∃ cards_2d, get_2d_cards tk self (Entries cards_1d) = Some cards_2d
       ∧ get_1d_cards tk self (Entries cards_2d) = Some cards_1d)
  ∧ (∀ cards_2d,
       Forall (λ card, card = CARD_NOT_DEALT_TOKEN_2D tk ∨ is_card_2d rules card) cards_2d →
       ∃ cards_1d, get_1d_cards tk self (Entries cards_2d) = Some cards_1d
         ∧ get_2d_cards tk self (Entries cards_1d) = Some cards_2d).
Proof.
  intros Htk Hshape [Hto Hfrom]. pose proof Htk as [Hneg H2d]. split.
  - intros cards_1d Hcards.
    destruct (get_2d_cards_entries tk rules self Htk Hshape cards_1d Hcards)
      as (cards_2d & Hrun & Hconv).
    exists cards_2d. split; [done|].
    destruct (get_1d_cards_entries tk rules self Htk Hshape cards_2d)
      as (back & Hrun' & Hconv').
    { clear Hrun. induction Hconv as [|c card l k Hc _ IH]; constructor.
      - destruct Hc as [[_ ->]|(Hc & _ & Hget)]; [by left|right].
        destruct (Hto c Hc) as (card' & Hget' & Hcard & _). congruence.
      - apply IH. by apply Forall_cons in Hcards as [_ ?]. }
    rewrite Hrun'. f_equal.
    eapply Forall2_compose_eq; [|exact Hconv|exact Hconv'].
    intros c card z [[-> ->]|(Hc & Hne & Hget)] [[Hcard ->]|(Hcard & Hne' & Hget')];
      try done.
    + destruct (Hto c Hc) as (card' & Hget'' & [Hr _] & _).
      assert (card' = card) as -> by congruence.
      rewrite Hcard, H2d in Hr. simpl in Hr. lia.
    + destruct (Hto c Hc) as (card' & Hget'' & _ & Hback).
      assert (card' = card) as -> by congruence. congruence.
  - intros cards_2d Hcards.
    destruct (get_1d_cards_entries tk rules self Htk Hshape cards_2d Hcards)
      as (cards_1d & Hrun & Hconv).
    exists cards_1d. split; [done|].
    destruct (get_2d_cards_entries tk rules self Htk Hshape cards_1d)
      as (back & Hrun' & Hconv').
    { clear Hrun. induction Hconv as [|card c l k Hc _ IH]; constructor.
      - destruct Hc as [[_ ->]|(Hcard & _ & Hget)]; [by left|right].
        destruct (Hfrom card Hcard) as (c' & Hget' & Hc' & _). congruence.
      - apply IH. by apply Forall_cons in Hcards as [_ ?]. }
    rewrite Hrun'. f_equal.
    eapply Forall2_compose_eq; [|exact Hconv|exact Hconv'].
    intros card c z [[-> ->]|(Hcard & Hne & Hget)] [[Hc ->]|(Hc & Hne' & Hget')];
      try done.
    + destruct (Hfrom card Hcard) as (c' & Hget'' & Hc' & _).
      assert (c' = c) as -> by congruence. lia.
    + destruct (Hfrom card Hcard) as (c' & Hget'' & _ & Hback).
      assert (c' = c) as -> by congruence. congruence.
Qed.

Lemma batch_conversions_round_trip_witness :
  (∀ cards_1d,
     Forall (λ c, c = CARD_NOT_DEALT_TOKEN_1D poker_tokens
                  ∨ 0 ≤ c < N_CARDS_IN_DECK leduc_rules) cards_1d →
     ∃ cards_2d, get_2d_cards poker_tokens leduc_holder (Entries cards_1d) = Some cards_2d
       ∧ get_1d_cards poker_tokens leduc_holder (Entries cards_2d) = Some cards_1d)
  ∧ (∀ cards_2d,
       Forall (λ card, card = CARD_NOT_DEALT_TOKEN_2D poker_tokens
                       ∨ is_card_2d leduc_rules card) cards_2d →
       ∃ cards_1d, get_1d_cards poker_tokens leduc_holder (Entries cards_2d) = Some cards_1d
         ∧ get_2d_cards poker_tokens leduc_holder (Entries cards_1d) = Some cards_2d).
Proof.
  apply (batch_conversions_round_trip poker_tokens leduc_rules leduc_holder).
  - unfold tokens_ok. simpl. split; [lia|reflexivity].
  - unfold card_tables_shaped. simpl. repeat split; try lia. repeat constructor.
  - apply Leduc_tables_inverse; [unfold deck_ok; simpl; lia|].
    vm_compute. reflexivity.
Defined.

(** X6. On tokens and cards the batch conversion [get_1d_cards] does, entry
    by entry, what the single conversion [get_1d_card] does. *)
Theorem get_1d_cards_elementwise {HC2IDX} (tk : Tokens) (rules : Rules)
    (self : LutHolder HC2IDX) (cards_2d : list (Z * Z)) :
  tokens_ok tk → card_tables_shaped rules self →
  Forall (λ card, card = CARD_NOT_DEALT_TOKEN_2D tk ∨ is_card_2d rules card) cards_2d →
  is_Some (get_1d_cards tk self (Entries cards_2d))
  ∧ get_1d_cards tk self (Entries cards_2d) = mapM (get_1d_card tk self) cards_2d.
Proof.
  intros Htk Hshape Hcards. pose proof Htk as [Hneg H2d].
  destruct (get_1d_cards_entries tk rules self Htk Hshape cards_2d Hcards)
    as (out & Hrun & Hconv).
  rewrite Hrun. split; [by eexists|]. symmetry. apply mapM_Some_2.
  eapply Forall2_impl; [exact Hconv|].
  intros card c [[-> ->]|([Hr Hs] & Hne & Hget)]; unfold get_1d_card.
  - rewrite H2d. simpl. by rewrite bool_decide_eq_true_2.
  - by rewrite bool_decide_eq_false_2 by lia.
Qed.

Lemma get_1d_cards_elementwise_witness :
  is_Some (get_1d_cards poker_tokens leduc_holder (Entries [(1, 0); (-1, -1); (2, 1)]))
  ∧ get_1d_cards poker_tokens leduc_holder (Entries [(1, 0); (-1, -1); (2, 1)])
    = mapM (get_1d_card poker_tokens leduc_holder) [(1, 0); (-1, -1); (2, 1)].
Proof.
  apply (get_1d_cards_elementwise poker_tokens leduc_rules leduc_holder).
  - unfold tokens_ok. simpl. split; [lia|reflexivity].
  - unfold card_tables_shaped. simpl. repeat split; try lia. repeat constructor.
  - unfold is_card_2d.
    repeat (apply Forall_cons; split;
            [first [left; reflexivity | right; simpl; lia]|]).
    apply Forall_nil_2.
Defined.

(** Off that domain the two differ: for a pair with a legal rank and the
    token as suit the single conversion reads the last column of the table
    and the batch conversion column 0. *)
Example get_1d_card_token_suit :
  get_1d_card poker_tokens leduc_holder (1, -1) = Some 3
  ∧ get_1d_cards poker_tokens leduc_holder (Entries [(1, -1)]) = Some [2].
Proof. split; vm_compute; reflexivity. Qed.

(** ** Card tables read from the native backend *)

Lemma Holdem_1d_2_2d_table rules cpp_backend :
  0 ≤ N_CARDS_IN_DECK rules →
  Holdem.get_1d_card_2_2d_card_LUT rules cpp_backend
  = Some ((λ c, (int8 (cpp_get_2d_card cpp_backend c).1,
                 int8 (cpp_get_2d_card cpp_backend c).2))
            <$> range 0 (N_CARDS_IN_DECK rules)).
Proof.
  intros. unfold Holdem.get_1d_card_2_2d_card_LUT, np_full1.
  rewrite bool_decide_eq_true_2 by done. rewrite bind_Some_eq.
  apply (fill_all (λ c, (int8 (cpp_get_2d_card cpp_backend c).1,
                         int8 (cpp_get_2d_card cpp_backend c).2))).
  rewrite length_replicate. lia.
Qed.

Lemma Holdem_2d_2_1d_table rules cpp_backend :
  0 ≤ N_RANKS rules → 0 ≤ N_SUITS rules →
  Holdem.get_2d_card_2_1d_card_LUT rules cpp_backend
  = Some ((λ r, (λ s, int8 (cpp_get_1d_card cpp_backend (int8 r, int8 s)))
                  <$> range 0 (N_SUITS rules)) <$> range 0 (N_RANKS rules)).
Proof.
  intros. unfold Holdem.get_2d_card_2_1d_card_LUT, np_full2, np_full1.
  rewrite !bool_decide_eq_true_2 by done. rewrite !bind_Some_eq.
  apply (fill_rows (λ r s, int8 (cpp_get_1d_card cpp_backend (int8 r, int8 s)))).
  - rewrite length_replicate. lia.
  - apply Forall_replicate. rewrite length_replicate. lia.
Qed.

Lemma backend_tables rules cpp_backend lut_1d_2d lut_2d_1d :
  backend_cards_ok rules cpp_backend →
  Holdem.get_1d_card_2_2d_card_LUT rules cpp_backend = Some lut_1d_2d →
  Holdem.get_2d_card_2_1d_card_LUT rules cpp_backend = Some lut_2d_1d →
  Z.of_nat (length lut_1d_2d) = N_CARDS_IN_DECK rules
  ∧ Z.of_nat (length lut_2d_1d) = N_RANKS rules
  ∧ Forall (λ row, Z.of_nat (length row) = N_SUITS rules) lut_2d_1d
  ∧ (∀ c, 0 ≤ c < N_CARDS_IN_DECK rules →
       np_get lut_1d_2d c = Some (cpp_get_2d_card cpp_backend c))
  ∧ (∀ card, is_card_2d rules card →
       np_get2 lut_2d_1d card.1 card.2 = Some (cpp_get_1d_card cpp_backend card)).
Proof.
  intros (HN & HR & HS & Hto & Hfrom) H1 H2.
  rewrite Holdem_1d_2_2d_table in H1 by lia.
  rewrite Holdem_2d_2_1d_table in H2 by lia.
  injection H1 as <-. injection H2 as <-.
  rewrite !length_fmap, !length_range.
  split; [lia|]. split; [lia|]. split; [|split].
  - apply Forall_fmap, Forall_forall. intros r _. simpl.
    rewrite length_fmap, length_range. lia.
  - intros c Hc. rewrite np_get_fmap_range by done.
    destruct (Hto c Hc) as [[Hr Hs] _].
    rewrite !int8_small by lia. by destruct (cpp_get_2d_card cpp_backend c).
  - intros [r s] [Hr Hs]. simpl in *.
    rewrite (np_get2_fmap_range
      (λ r s, int8 (cpp_get_1d_card cpp_backend (int8 r, int8 s)))) by done.
    rewrite (int8_small r), (int8_small s) by lia.
    destruct (Hfrom (r, s)) as [Hc _]; [done|].
    by rewrite int8_small by lia.
Qed.

Lemma rank_major_backend_ok rules :
  deck_ok rules → backend_cards_ok rules (rank_major_backend rules).
Proof.
  intros Hok. pose proof Hok as (HR & HS & HN & H8).
  assert (N_SUITS rules ≤ 128) by nia.
  assert (N_RANKS rules ≤ 128) by nia.
  split; [nia|]. split; [lia|]. split; [lia|]. simpl. split.
  - intros c Hc. destruct (Leduc_get_2d_card_range rules c Hok Hc) as (E & Hr & Hs).
    split; [by rewrite E|]. by apply Leduc_1d_2d_1d.
  - intros [r s] [Hr Hs]. simpl in Hr, Hs.
    destruct (Leduc_get_1d_card_range rules r s Hok Hr Hs) as (E & Hc).
    split; [by rewrite E|]. by apply Leduc_2d_1d_2d.
Qed.

(** X7. The two-card and the four-card getter fill their card tables from
    the native backend (the same code in both). When the backend's two
    conversions are inverse to each other on the deck and the grid and stay
    within int8, both tables are built with the prescribed shape, hold the
    backend's answers unchanged, and are therefore inverse to each other. *)
Theorem backend_card_tables_inverse (rules : Rules) (cpp_backend : CppLibHoldemLuts) :
  backend_cards_ok rules cpp_backend →
  ∃ lut_1d_2d lut_2d_1d,
    Holdem.get_1d_card_2_2d_card_LUT rules cpp_backend = Some lut_1d_2d
    ∧ PLO.get_1d_card_2_2d_card_LUT rules cpp_backend = Some lut_1d_2d
    ∧ Holdem.get_2d_card_2_1d_card_LUT rules cpp_backend = Some lut_2d_1d
    ∧ PLO.get_2d_card_2_1d_card_LUT rules cpp_backend = Some lut_2d_1d
    ∧ Z.of_nat (length lut_1d_2d) = N_CARDS_IN_DECK rules
    ∧ Z.of_nat (length lut_2d_1d) = N_RANKS rules
    ∧ Forall (λ row, Z.of_nat (length row) = N_SUITS rules) lut_2d_1d
    ∧ (∀ c, 0 ≤ c < N_CARDS_IN_DECK rules →
         ∃ card, np_get lut_1d_2d c = Some card
           ∧ card = cpp_get_2d_card cpp_backend c
           ∧ is_card_2d rules card
           ∧ np_get2 lut_2d_1d card.1 card.2 = Some c)
    ∧ (∀ card, is_card_2d rules card →
         ∃ c, np_get2 lut_2d_1d card.1 card.2 = Some c
           ∧ c = cpp_get_1d_card cpp_backend card
           ∧ 0 ≤ c < N_CARDS_IN_DECK rules
           ∧ np_get lut_1d_2d c = Some card).
Proof.
  intros Hok. pose proof Hok as (HN & HR & HS & Hto & Hfrom).
  eexists _, _.
  split; [apply Holdem_1d_2_2d_table; lia|].
  split; [apply Holdem_1d_2_2d_table; lia|].
  split; [apply Holdem_2d_2_1d_table; lia|].
  split; [apply Holdem_2d_2_1d_table; lia|].
  destruct (backend_tables rules cpp_backend _ _ Hok
              (Holdem_1d_2_2d_table rules cpp_backend (proj1 HN))
              (Holdem_2d_2_1d_table rules cpp_backend (proj1 HR) (proj1 HS)))
    as (Hl1 & Hl2 & Hrows & Hget1 & Hget2).
  split; [done|]. split; [done|]. split; [done|]. split.
  - intros c Hc. destruct (Hto c Hc) as [Hcard Hback].
    exists (cpp_get_2d_card cpp_backend c).
    split; [by apply Hget1|]. split; [done|]. split; [done|].
    by rewrite Hget2, Hback.
  - intros card Hcard. destruct (Hfrom card Hcard) as [Hc Hback].
    exists (cpp_get_1d_card cpp_backend card).
    split; [by apply Hget2|]. split; [done|]. split; [done|].
    by rewrite Hget1, Hback.
Qed.

Lemma backend_card_tables_inverse_witness :
  ∃ lut_1d_2d lut_2d_1d,
    Holdem.get_1d_card_2_2d_card_LUT plo_rules (rank_major_backend plo_rules) = Some lut_1d_2d
    ∧ PLO.get_1d_card_2_2d_card_LUT plo_rules (rank_major_backend plo_rules) = Some lut_1d_2d
    ∧ Holdem.get_2d_card_2_1d_card_LUT plo_rules (rank_major_backend plo_rules) = Some lut_2d_1d
    ∧ PLO.get_2d_card_2_1d_card_LUT plo_rules (rank_major_backend plo_rules) = Some lut_2d_1d
    ∧ Z.of_nat (length lut_1d_2d) = N_CARDS_IN_DECK plo_rules
    ∧ Z.of_nat (length lut_2d_1d) = N_RANKS plo_rules
    ∧ Forall (λ row, Z.of_nat (length row) = N_SUITS plo_rules) lut_2d_1d
    ∧ (∀ c, 0 ≤ c < N_CARDS_IN_DECK plo_rules →
         ∃ card, np_get lut_1d_2d c = Some card
           ∧ card = cpp_get_2d_card (rank_major_backend plo_rules) c
           ∧ is_card_2d plo_rules card
           ∧ np_get2 lut_2d_1d card.1 card.2 = Some c)
    ∧ (∀ card, is_card_2d plo_rules card →
         ∃ c, np_get2 lut_2d_1d card.1 card.2 = Some c
           ∧ c = cpp_get_1d_card (rank_major_backend plo_rules) card
           ∧ 0 ≤ c < N_CARDS_IN_DECK plo_rules
           ∧ np_get lut_1d_2d c = Some card).
Proof.
  apply (backend_card_tables_inverse plo_rules (rank_major_backend plo_rules)).
  apply rank_major_backend_ok. unfold deck_ok. simpl. lia.
Defined.

(** ** The hole-card tables of the four-card getter on any deck *)

Lemma nd_get_full shape v key :
  in_shape shape key → nd_get (mk_ndarray shape v ∅) key = Some v.
Proof.
  intros Hin. unfold nd_get. simpl. rewrite nd_key_in_shape by done. simpl.
  by rewrite lookup_empty.
Qed.

(** X8. Whatever the size N of the deck (as long as the count of hands fits
    int32), the four-card getter builds its hole-card-to-index table with
    shape N x N x N x N: the ascending hands of four cards out of N are
    numbered 0, 1, 2, ... in the lexicographic order of
    [combinations(range(N), 4)], one-to-one, and every other cell of the
    table still holds the fill value -2. *)
Theorem PLO_hole_card_2_idx_cells (rules : Rules) :
  0 ≤ N_CARDS_IN_DECK rules → comb (N_CARDS_IN_DECK rules) 4 ≤ 2147483648 →
  ∃ lut, PLO.get_hole_card_2_idx_LUT rules = Some lut
    ∧ nd_shape lut = replicate 4 (N_CARDS_IN_DECK rules)
    ∧ hole_card_bijection (comb (N_CARDS_IN_DECK rules) 4) (N_CARDS_IN_DECK rules) 4
        (np_get (combinations 4 (range 0 (N_CARDS_IN_DECK rules)))) (nd_get lut)
    ∧ ∀ key, in_shape (replicate 4 (N_CARDS_IN_DECK rules)) key →
        ¬ ascending_hand (N_CARDS_IN_DECK rules) 4 key →
        nd_get lut key = Some (-2).
Proof.
  intros HN Hfit. set (N := N_CARDS_IN_DECK rules) in *.
  set (lut0 := mk_ndarray [N; N; N; N] (int32 (-2)) ∅).
  destruct (store_next_all int32 (combinations 4 (range 0 N)) lut0 0)
    as (lut & Hrun & Hshape & _ & Hmiss).
  { intros key (Hl & _ & Hb)%elem_of_combinations_range.
    by apply (in_shape_replicate 4). }
  { apply NoDup_combinations_range. }
  exists lut. split; [|split; [done|split]].
  - unfold PLO.get_hole_card_2_idx_LUT, nd_full. fold N.
    rewrite bool_decide_eq_true_2 by (repeat constructor; lia).
    rewrite bind_Some_eq. fold lut0.
    by rewrite PLO_hole_card_2_idx_run, Hrun.
  - apply (numbering_bijection N 4 int32 lut0 (lut, 0 + Z.of_nat
             (length (combinations 4 (range 0 N))))); [done|done| |done].
    intros i Hi. change (Z.of_nat 4) with 4 in Hi. apply int32_small. lia.
  - intros key Hin Hna. rewrite Hmiss; [by apply nd_get_full|done|].
    intros Hkey. apply Hna. by apply elem_of_combinations_range in Hkey.
Qed.

Lemma PLO_hole_card_2_idx_cells_witness :
  ∃ lut, PLO.get_hole_card_2_idx_LUT six_card_plo_rules = Some lut
    ∧ nd_shape lut = replicate 4 (N_CARDS_IN_DECK six_card_plo_rules)
    ∧ hole_card_bijection (comb (N_CARDS_IN_DECK six_card_plo_rules) 4)
        (N_CARDS_IN_DECK six_card_plo_rules) 4
        (np_get (combinations 4 (range 0 (N_CARDS_IN_DECK six_card_plo_rules))))
        (nd_get lut)
    ∧ ∀ key, in_shape (replicate 4 (N_CARDS_IN_DECK six_card_plo_rules)) key →
        ¬ ascending_hand (N_CARDS_IN_DECK six_card_plo_rules) 4 key →
        nd_get lut key = Some (-2).
Proof.
  apply (PLO_hole_card_2_idx_cells six_card_plo_rules).
  - simpl. lia.
  - vm_compute. discriminate.
Defined.

(** On a deck of six cards: fifteen hands; the hand 1, 2, 4, 5 is number 12,
    and the same cards out of order, or with a card repeated, give -2. *)
Example PLO_hole_card_2_idx_six_cards :
  (PLO.get_hole_card_2_idx_LUT six_card_plo_rules ≫= λ lut, nd_get lut [1; 2; 4; 5])
  = Some 12
  ∧ (PLO.get_hole_card_2_idx_LUT six_card_plo_rules ≫= λ lut, nd_get lut [2; 1; 4; 5])
    = Some (-2)
  ∧ (PLO.get_hole_card_2_idx_LUT six_card_plo_rules ≫= λ lut, nd_get lut [1; 1; 4; 5])
    = Some (-2).
Proof. repeat split; vm_compute; reflexivity. Qed.

(** ** The card-membership table of the four-card getter on any deck *)

Lemma PLO_card_in_what_range_idxs_upto rules :
  0 ≤ N_CARDS_IN_DECK rules ≤ 52 →
  PLO.get_card_in_what_range_idxs_LUT rules
  = Some ((λ c, rows_containing c PLO.get_idx_2_hole_card_LUT)
            <$> range 0 (N_CARDS_IN_DECK rules))
  ∧ ∀ c, 0 ≤ c < 52 →
      Z.of_nat (length (rows_containing c PLO.get_idx_2_hole_card_LUT)) = 20825.
Proof.
  intros HN. unfold PLO.get_idx_2_hole_card_LUT.
  set (hcs := combinations 4 (range 0 52)).
  assert (Z.of_nat (length hcs) = 270725) as Hsize.
  { unfold hcs. rewrite (length_combinations_range 4) by lia. apply comb_52_4. }
  assert (∀ c, 0 ≤ c < 52 → Z.of_nat (length (rows_containing c hcs)) = 20825) as Hcount.
  { intros c Hc. rewrite length_rows_containing.
    unfold hcs. rewrite count_combinations_containing;
      [|apply NoDup_range|by apply elem_of_range].
    rewrite length_range. apply binom_51_3. }
  split; [|done].
  unfold PLO.get_card_in_what_range_idxs_LUT, PLO.get_idx_2_hole_card_LUT.
  fold hcs. unfold np_full2, np_full1.
  rewrite !bool_decide_eq_true_2 by lia. rewrite !bind_Some_eq.
  erewrite for_each_ext.
  - rewrite (fill_all (λ c, rows_containing c hcs))
      by (rewrite length_replicate; lia).
    rewrite bind_Some_eq. by rewrite membership_table_filled.
  - intros c lut Hc%elem_of_range. simpl.
    rewrite np_where_rows_containing.
    2:{ apply Forall_forall. intros h Hh.
        eapply NoDup_combination; [apply NoDup_range|exact Hh]. }
    rewrite int32_rows_containing by lia.
    unfold PLO.np_broadcast_to.
    by rewrite bool_decide_eq_true_2 by (apply Hcount; lia).
Qed.

Lemma rows_containing_absent c hcs :
  (∀ hc, hc ∈ hcs → c ∉ hc) → rows_containing c hcs = [].
Proof.
  intros Habs. destruct (rows_containing c hcs) as [|idx l] eqn:Hrows; [done|].
  assert (idx ∈ rows_containing c hcs) as Hin by (rewrite Hrows; left).
  apply elem_of_rows_containing in Hin as (_ & hc & Hget & Hc).
  apply np_get_elem_of in Hget. by destruct (Habs hc Hget).
Qed.

Lemma PLO_card_in_what_range_idxs_outside rules :
  ¬ (0 ≤ N_CARDS_IN_DECK rules ≤ 52) →
  PLO.get_card_in_what_range_idxs_LUT rules = None.
Proof.
  intros HN.
  assert (Forall NoDup PLO.get_idx_2_hole_card_LUT) as Hnd.
  { unfold PLO.get_idx_2_hole_card_LUT. apply Forall_forall. intros h Hh.
    eapply NoDup_combination; [apply NoDup_range|exact Hh]. }
  assert (∀ hc, hc ∈ PLO.get_idx_2_hole_card_LUT → 52 ∉ hc) as Habs.
  { unfold PLO.get_idx_2_hole_card_LUT.
    intros hc (_ & _ & Hb)%elem_of_combinations_range Hc.
    pose proof (proj1 (Forall_forall _ _) Hb 52 Hc) as H52.
    cbv beta in H52. lia. }
  unfold PLO.get_card_in_what_range_idxs_LUT.
  set (hcs := PLO.get_idx_2_hole_card_LUT) in *. clearbody hcs.
  unfold np_full2, np_full1.
  rewrite (bool_decide_eq_true_2 (0 ≤ 20825)) by lia. rewrite bind_Some_eq.
  destruct (decide (N_CARDS_IN_DECK rules < 0)) as [Hneg|Hpos].
  - by rewrite bool_decide_eq_false_2 by lia.
  - rewrite bool_decide_eq_true_2 by lia. rewrite !bind_Some_eq.
    rewrite (for_each_None _ _ 52); [done|apply elem_of_range; lia|].
    intros lut. cbv beta zeta.
    rewrite np_where_rows_containing by done.
    by rewrite rows_containing_absent.
Qed.

(** X9. The card-membership table of the four-card getter is built exactly
    when the deck has between 0 and 52 cards: a negative size is refused by
    [np.full], and with more than 52 cards card 52 is in none of the hands of
    the fixed 52-card hand table, so that its empty row cannot be stored in
    the 20825 cells of the table. When it is built, the table has one row for
    each card of the deck, each with 20825 entries: the range indices of the
    hands that hold the card, in ascending order. *)
Theorem PLO_card_in_what_range_idxs_defined (rules : Rules) :
  (is_Some (PLO.get_card_in_what_range_idxs_LUT rules)
   ↔ 0 ≤ N_CARDS_IN_DECK rules ≤ 52)
  ∧ ∀ lut, PLO.get_card_in_what_range_idxs_LUT rules = Some lut →
      lut = (λ c, rows_containing c PLO.get_idx_2_hole_card_LUT)
              <$> range 0 (N_CARDS_IN_DECK rules)
      ∧ Forall (λ row, Z.of_nat (length row) = 20825) lut.
Proof.
  destruct (decide (0 ≤ N_CARDS_IN_DECK rules ≤ 52)) as [HN|HN].
  - destruct (PLO_card_in_what_range_idxs_upto rules HN) as [Hlut Hcount].
    rewrite Hlut. split; [split; [done|by eexists]|].
    intros lut [= <-].
    split; [done|]. apply Forall_fmap, Forall_forall.
    intros c Hc%elem_of_range. unfold compose. cbv beta. apply Hcount. lia.
  - rewrite (PLO_card_in_what_range_idxs_outside rules HN).
    split; [|done]. split; [by intros [? ?]|done].
Qed.

(** ** The slots of the private observations *)

Lemma base_private_obs_bits_witness :
  ∃ lut,
    get_range_idx_to_private_obs_LUT leduc_rules (Leduc.get_idx_2_hole_card_LUT leduc_rules)
      (Leduc._get_2d_card leduc_rules <$> range 0 (N_CARDS_IN_DECK leduc_rules))
      false = Some lut
    ∧ Z.of_nat (length lut) = RANGE_SIZE leduc_rules
    ∧ ∀ range_idx, 0 ≤ range_idx < RANGE_SIZE leduc_rules →
        ∃ priv_o, np_get lut range_idx = Some priv_o
          ∧ Z.of_nat (length priv_o)
            = N_HOLE_CARDS leduc_rules * (N_SUITS leduc_rules + N_RANKS leduc_rules)
          ∧ Z.of_nat (rank_bits_set leduc_rules priv_o) = N_HOLE_CARDS leduc_rules
          ∧ Z.of_nat (suit_bits_set leduc_rules priv_o)
            = (if SUITS_MATTER leduc_rules && negb false
               then N_HOLE_CARDS leduc_rules else 0)
          ∧ Forall (λ v, v = 0 ∨ v = 1) priv_o.
Proof.
  apply (base_private_obs_bits leduc_rules).
  apply Leduc_obs_tables_ok; [apply leduc_rules_ok|reflexivity].
Defined.

Lemma lookup_bind_blocks {A B} (f : A → list B) (d : nat) (xs : list A) (k i : nat) x :
  (∀ y, length (f y) = d) → xs !! k = Some x → (i < d)%nat →
  (xs ≫= f) !! (k * d + i)%nat = f x !! i.
Proof.
  intros Hlen. revert k. induction xs as [|y xs IH]; intros k Hk Hi; [done|].
  rewrite bind_cons. destruct k as [|k]; simpl in Hk.
  - injection Hk as ->. simpl. rewrite lookup_app_l; [done|]. by rewrite Hlen.
  - rewrite lookup_app_r by (rewrite Hlen; simpl; lia).
    rewrite Hlen. replace (S k * d + i - d)%nat with (k * d + i)%nat by (simpl; lia).
    by apply IH.
Qed.

Lemma elem_of_one_hot_slots rules suits_on cards j :
  j ∈ one_hot_slots rules suits_on cards
  ↔ ∃ (k : nat) card, cards !! k = Some card
      ∧ (j = (N_SUITS rules + N_RANKS rules) * Z.of_nat k + card.1
         ∨ (suits_on = true
            ∧ j = (N_SUITS rules + N_RANKS rules) * Z.of_nat k + N_RANKS rules + card.2)).
Proof.
  unfold one_hot_slots. rewrite list_elem_of_join. split.
  - intros (l & Hj & (k & card & -> & Hk)%elem_of_lookup_imap).
    exists k, card. split; [done|].
    apply elem_of_cons in Hj as [->|Hj]; [by left|].
    destruct suits_on; [|by apply elem_of_nil in Hj].
    apply list_elem_of_singleton in Hj as ->. by right.
  - intros (k & card & Hk & Hj). eexists. split; [|by eapply elem_of_lookup_imap_2].
    destruct Hj as [->|[-> ->]]; [left|right; left].
Qed.

Lemma lookup_one_hot_hand rules suits_on cards j :
  0 < N_RANKS rules → 0 < N_SUITS rules → Forall (is_card_2d rules) cards →
  0 ≤ j < Z.of_nat (length cards) * (N_SUITS rules + N_RANKS rules) →
  one_hot_hand rules suits_on cards !! Z.to_nat j
  = Some (if bool_decide (j ∈ one_hot_slots rules suits_on cards) then 1 else 0).
Proof.
  intros HR HS Hcards Hj. set (D := N_SUITS rules + N_RANKS rules) in *.
  assert (0 < D) as HD by (unfold D; lia).
  pose proof (Z.div_mod j D ltac:(lia)) as Hdm.
  pose proof (Z.mod_pos_bound j D HD) as Hmod.
  assert (0 ≤ j `div` D < Z.of_nat (length cards)) as Hdiv.
  { split; [apply Z.div_pos; lia|apply Z.div_lt_upper_bound; nia]. }
  destruct (lookup_lt_is_Some_2 cards (Z.to_nat (j `div` D))) as [card Hcard]; [lia|].
  replace (Z.to_nat j)
    with (Z.to_nat (j `div` D) * Z.to_nat D + Z.to_nat (j `mod` D))%nat by nia.
  unfold one_hot_hand.
  rewrite (lookup_bind_blocks _ (Z.to_nat D) _ _ _ card);
    [|intros; apply length_one_hot_block|done|lia].
  rewrite (lookup_one_hot_block rules HR HS) by done. f_equal.
  apply (f_equal (λ b : bool, if b then 1 else 0)).
  apply bool_decide_ext. rewrite elem_of_one_hot_slots. fold D. split.
  - intros Hslot. exists (Z.to_nat (j `div` D)), card. split; [done|].
    rewrite Z2Nat.id by lia.
    destruct Hslot as [Hslot|[Hon Hslot]]; [left; lia|right; split; [done|lia]].
  - intros (k & card' & Hk & Hslot).
    assert (is_card_2d rules card') as [Hr Hs].
    { eapply (proj1 (Forall_forall _ _) Hcards), list_elem_of_lookup_2, Hk. }
    assert (∀ x, 0 ≤ x < D → j = D * Z.of_nat k + x →
              card' = card ∧ x = j `mod` D) as Huniq.
    { intros x Hx Hjx.
      assert (Z.of_nat k = j `div` D) as Hkd.
      { apply (Z.div_unique_pos j D (Z.of_nat k) x); lia. }
      split; [|lia].
      rewrite <- Hkd, Nat2Z.id in Hcard. congruence. }
    destruct Hslot as [Hslot|[Hon Hslot]].
    + destruct (Huniq card'.1) as [-> ->]; [unfold D; lia|done|]. by left.
    + destruct (Huniq (N_RANKS rules + card'.2)) as [-> ->]; [unfold D; lia|lia|].
      by right.
Qed.

(** X10. The table the base getter builds from sound tables, slot by slot:
    in the row of a range index, slot j holds 1 exactly when, for some
    position k of the hand, j is the rank slot D * k + rank of the card at
    k, or, when suits matter and bucketing is off, its suit slot
    D * k + N_RANKS + suit; every other slot holds 0. *)
Theorem base_private_obs_slots (rules : Rules) (range_idx_to_hc_lut : list (list Z))
    (hc_1d_to_2d_lut : list (Z * Z)) (preflop_suit_bucketing : bool) :
  obs_tables_ok rules range_idx_to_hc_lut hc_1d_to_2d_lut →
  ∃ lut,
    get_range_idx_to_private_obs_LUT rules range_idx_to_hc_lut hc_1d_to_2d_lut
      preflop_suit_bucketing = Some lut
    ∧ Z.of_nat (length lut) = RANGE_SIZE rules
    ∧ ∀ range_idx, 0 ≤ range_idx < RANGE_SIZE rules →
        ∃ hand cards priv_o,
          np_get range_idx_to_hc_lut range_idx = Some hand
          ∧ mapM (np_get hc_1d_to_2d_lut) hand = Some cards
          ∧ np_get lut range_idx = Some priv_o
          ∧ Z.of_nat (length priv_o)
            = N_HOLE_CARDS rules * (N_SUITS rules + N_RANKS rules)
          ∧ ∀ j, 0 ≤ j < N_HOLE_CARDS rules * (N_SUITS rules + N_RANKS rules) →
              np_get priv_o j
              = Some (if bool_decide
                           (j ∈ one_hot_slots rules
                                  (SUITS_MATTER rules && negb preflop_suit_bucketing)
                                  cards)
                      then 1 else 0).
Proof.
  intros Hok. pose proof Hok as (HR & HS & HNH & Hrows & Hhands & Hcards).
  eexists. split; [by apply base_private_obs_table|].
  split; [by rewrite length_fmap|].
  intros range_idx Hidx.
  destruct (lookup_lt_is_Some_2 range_idx_to_hc_lut (Z.to_nat range_idx)) as [hand Hhand];
    [lia|].
  destruct (proj1 (Forall_forall _ _) Hhands hand) as [Hl Hb];
    [by eapply list_elem_of_lookup_2|].
  assert (mapM (np_get hc_1d_to_2d_lut) hand = Some (cards_of_hand hc_1d_to_2d_lut hand))
    as Hmap.
  { apply mapM_Some_2, Forall2_fmap_r, Forall_Forall2_diag, Forall_forall.
    intros c Hc. pose proof (proj1 (Forall_forall _ _) Hb c Hc) as Hcb. cbv beta in Hcb.
    unfold compose. cbv beta. rewrite np_get_in by done.
    destruct (lookup_lt_is_Some_2 hc_1d_to_2d_lut (Z.to_nat c)) as [card Hcard]; [lia|].
    by rewrite Hcard. }
  assert (length (cards_of_hand hc_1d_to_2d_lut hand) = length hand) as Hlc
    by (unfold cards_of_hand; by rewrite length_fmap).
  assert (Forall (is_card_2d rules) (cards_of_hand hc_1d_to_2d_lut hand)) as Hvalid.
  { unfold cards_of_hand. apply Forall_fmap, Forall_forall. intros c Hc. simpl.
    pose proof (proj1 (Forall_forall _ _) Hb c Hc) as Hcb. simpl in Hcb.
    destruct (lookup_lt_is_Some_2 hc_1d_to_2d_lut (Z.to_nat c)) as [card Hcard]; [lia|].
    rewrite Hcard. simpl.
    eapply (proj1 (Forall_forall _ _) Hcards), list_elem_of_lookup_2, Hcard. }
  exists hand, (cards_of_hand hc_1d_to_2d_lut hand). eexists.
  split; [by rewrite np_get_in by lia|]. split; [done|]. split.
  { rewrite np_get_in by (rewrite length_fmap; lia).
    by rewrite list_lookup_fmap, Hhand. }
  split; [rewrite length_one_hot_hand, Hlc; nia|].
  intros j Hj.
  rewrite np_get_in by (rewrite length_one_hot_hand, Hlc; nia).
  apply lookup_one_hot_hand; [done..|]. rewrite Hlc. lia.
Qed.

Lemma base_private_obs_slots_witness :
  ∃ lut,
    get_range_idx_to_private_obs_LUT leduc_rules (Leduc.get_idx_2_hole_card_LUT leduc_rules)
      (Leduc._get_2d_card leduc_rules <$> range 0 (N_CARDS_IN_DECK leduc_rules))
      true = Some lut
    ∧ Z.of_nat (length lut) = RANGE_SIZE leduc_rules
    ∧ ∀ range_idx, 0 ≤ range_idx < RANGE_SIZE leduc_rules →
        ∃ hand cards priv_o,
          np_get (Leduc.get_idx_2_hole_card_LUT leduc_rules) range_idx = Some hand
          ∧ mapM (np_get (Leduc._get_2d_card leduc_rules
                            <$> range 0 (N_CARDS_IN_DECK leduc_rules))) hand
            = Some cards
          ∧ np_get lut range_idx = Some priv_o
          ∧ Z.of_nat (length priv_o)
            = N_HOLE_CARDS leduc_rules * (N_SUITS leduc_rules + N_RANKS leduc_rules)
          ∧ ∀ j, 0 ≤ j
                 < N_HOLE_CARDS leduc_rules * (N_SUITS leduc_rules + N_RANKS leduc_rules) →
              np_get priv_o j
              = Some (if bool_decide
                           (j ∈ one_hot_slots leduc_rules
                                  (SUITS_MATTER leduc_rules && negb true) cards)
                      then 1 else 0).
Proof.
  apply (base_private_obs_slots leduc_rules).
  apply Leduc_obs_tables_ok; [apply leduc_rules_ok|reflexivity].
Defined.

(** The single-card game: card 3 is rank 1, suit 1, so its row has slots 1
    and 4 set out of five, and slot 1 only with bucketing. *)
Example base_private_obs_leduc :
  (get_range_idx_to_private_obs_LUT leduc_rules (Leduc.get_idx_2_hole_card_LUT leduc_rules)
     (Leduc._get_2d_card leduc_rules <$> range 0 6) false ≫= λ lut, np_get lut 3)
  = Some [0; 1; 0; 0; 1]
  ∧ (get_range_idx_to_private_obs_LUT leduc_rules (Leduc.get_idx_2_hole_card_LUT leduc_rules)
       (Leduc._get_2d_card leduc_rules <$> range 0 6) true ≫= λ lut, np_get lut 3)
    = Some [0; 1; 0; 0; 0].
Proof. split; vm_compute; reflexivity. Qed.

(** ** The override of the four-card getter *)

Lemma length_set_slots (slots : list Z) (l : list Z) :
  length (foldl (λ l s, <[Z.to_nat s := 1]> l) l slots) = length l.
Proof.
  revert l. induction slots as [|s slots IH]; intros l; [done|].
  simpl. by rewrite IH, length_insert.
Qed.

Lemma lookup_set_slots (slots : list Z) (l : list Z) (j : Z) :
  Forall (λ s, 0 ≤ s < Z.of_nat (length l)) slots → 0 ≤ j →
  foldl (λ l s, <[Z.to_nat s := 1]> l) l slots !! Z.to_nat j
  = if bool_decide (j ∈ slots) then Some 1 else l !! Z.to_nat j.
Proof.
  intros Hslots Hj. revert l Hslots.
  induction slots as [|s slots IH]; intros l Hslots; [done|].
  apply Forall_cons in Hslots as [Hs Hslots]. simpl.
  rewrite IH by (by rewrite length_insert).
  destruct (decide (j ∈ slots)) as [Hin|Hnin].
  - rewrite !bool_decide_eq_true_2; [done|by right|done].
  - rewrite (bool_decide_eq_false_2 (j ∈ slots)) by done.
    destruct (decide (j = s)) as [->|Hne].
    + rewrite bool_decide_eq_true_2 by left.
      apply list_lookup_insert_eq. lia.
    + rewrite bool_decide_eq_false_2 by (by intros [?|?]%elem_of_cons).
      apply list_lookup_insert_ne. lia.
Qed.

Lemma one_hot_slots_bounds rules suits_on cards s :
  0 < N_RANKS rules → 0 < N_SUITS rules → Forall (is_card_2d rules) cards →
  s ∈ one_hot_slots rules suits_on cards →
  0 ≤ s < Z.of_nat (length cards) * (N_SUITS rules + N_RANKS rules).
Proof.
  intros HR HS Hcards (k & card & Hk & Hs)%elem_of_one_hot_slots.
  pose proof (lookup_lt_Some _ _ _ Hk) as Hlt.
  assert (is_card_2d rules card) as [Hr Hsu].
  { eapply (proj1 (Forall_forall _ _) Hcards), list_elem_of_lookup_2, Hk. }
  destruct Hs as [->|[_ ->]]; nia.
Qed.

Lemma PLO_private_obs_row_eq rules mem i (bucketing : bool) e0 e1 e2 e3 :
  0 < N_RANKS rules → 0 < N_SUITS rules → N_HOLE_CARDS rules = 4 →
  is_card_2d rules e0 → is_card_2d rules e1 →
  is_card_2d rules e2 → is_card_2d rules e3 →
  (if negb bucketing then PLO.private_obs_row else PLO.private_obs_row_bucketed)
    rules mem i [e0; e1; e2; e3]
  = Some (foldl (λ l s, <[Z.to_nat s := 1]> l)
            (junk_priv_o mem i <$> seq 0 (Z.to_nat (4 * (N_SUITS rules + N_RANKS rules))))
            (one_hot_slots rules (negb bucketing) [e0; e1; e2; e3])).
Proof.
  unfold is_card_2d. intros HR HS Hk [? ?] [? ?] [? ?] [? ?].
  destruct bucketing; cbn [negb]; cbv iota;
    unfold PLO.private_obs_row, PLO.private_obs_row_bucketed, np_empty1;
    rewrite Hk;
    rewrite !bool_decide_eq_true_2 by lia; rewrite !bind_Some_eq;
    rewrite !np_get_in by (simpl; lia);
    change (Z.to_nat 0) with 0%nat; change (Z.to_nat 1) with 1%nat;
    change (Z.to_nat 2) with 2%nat; change (Z.to_nat 3) with 3%nat;
    cbn [lookup list_lookup]; rewrite !bind_Some_eq;
    repeat (rewrite np_set_in, bind_Some_eq
              by (rewrite ?length_insert, length_fmap, length_seq; lia));
    rewrite np_set_in by (rewrite ?length_insert, length_fmap, length_seq; lia);
    reflexivity.
Qed.

Lemma PLO_private_obs_row_slots rules mem i (bucketing : bool) e0 e1 e2 e3 :
  0 < N_RANKS rules → 0 < N_SUITS rules → N_HOLE_CARDS rules = 4 →
  Forall (is_card_2d rules) [e0; e1; e2; e3] →
  ∃ row,
    (if negb bucketing then PLO.private_obs_row else PLO.private_obs_row_bucketed)
      rules mem i [e0; e1; e2; e3] = Some row
    ∧ length row = Z.to_nat (4 * (N_SUITS rules + N_RANKS rules))
    ∧ ∀ j, 0 ≤ j < 4 * (N_SUITS rules + N_RANKS rules) →
        row !! Z.to_nat j
        = Some (if bool_decide (j ∈ one_hot_slots rules (negb bucketing) [e0; e1; e2; e3])
                then 1 else junk_priv_o mem i (Z.to_nat j)).
Proof.
  intros HR HS Hk Hcards. pose proof Hcards as Hcards'.
  apply Forall_cons in Hcards' as [H0 Hcards']. apply Forall_cons in Hcards' as [H1 Hcards'].
  apply Forall_cons in Hcards' as [H2 Hcards']. apply Forall_cons in Hcards' as [H3 _].
  eexists. split; [by apply PLO_private_obs_row_eq|].
  split; [by rewrite length_set_slots, length_fmap, length_seq|].
  intros j Hj. rewrite lookup_set_slots; [|apply Forall_forall|lia].
  - case_bool_decide; [done|].
    rewrite list_lookup_fmap, lookup_seq_lt by lia. done.
  - intros s Hs%one_hot_slots_bounds; [|done..].
    rewrite length_fmap, length_seq. simpl length in Hs. lia.
Qed.

Lemma backend_card_table rules cpp_backend :
  backend_cards_ok rules cpp_backend →
  Holdem.get_1d_card_2_2d_card_LUT rules cpp_backend
  = Some (cpp_get_2d_card cpp_backend <$> range 0 (N_CARDS_IN_DECK rules)).
Proof.
  intros (HN & HR & HS & Hto & _). rewrite Holdem_1d_2_2d_table by lia. f_equal.
  apply list_fmap_ext. intros k c Hc.
  apply list_elem_of_lookup_2, elem_of_range in Hc.
  destruct (Hto c Hc) as [[Hr Hs] _].
  rewrite !int8_small by lia. by destruct (cpp_get_2d_card cpp_backend c).
Qed.

Lemma backend_hand_valid rules cpp_backend (hand : list Z) :
  backend_cards_ok rules cpp_backend → N_CARDS_IN_DECK rules = 52 →
  Forall (λ c, 0 ≤ c < 52) hand →
  Forall (is_card_2d rules) (cpp_get_2d_card cpp_backend <$> hand).
Proof.
  intros (_ & _ & _ & Hto & _) HN Hb. apply Forall_fmap.
  eapply Forall_impl; [exact Hb|]. intros x Hx. cbv beta in Hx.
  unfold compose. apply Hto. lia.
Qed.

Lemma PLO_hands :
  Z.of_nat (length PLO.get_idx_2_hole_card_LUT) = 270725
  ∧ ∀ hand, hand ∈ PLO.get_idx_2_hole_card_LUT →
      ∃ a b c d, hand = [a; b; c; d] ∧ Forall (λ c, 0 ≤ c < 52) hand.
Proof.
  unfold PLO.get_idx_2_hole_card_LUT. split.
  - rewrite (length_combinations_range 4) by lia. apply comb_52_4.
  - intros hand (Hl & _ & Hb)%elem_of_combinations_range.
    destruct hand as [|a [|b [|c [|d [|]]]]]; simpl in Hl; try lia.
    exists a, b, c, d. split; [reflexivity|exact Hb].
Qed.

Lemma PLO_range_size rules :
  N_CARDS_IN_DECK rules = 52 → N_HOLE_CARDS rules = 4 → RANGE_SIZE rules = 270725.
Proof.
  intros HN Hk. unfold RANGE_SIZE, get_range_size. rewrite HN, Hk. apply comb_52_4.
Qed.

(** Row by row, the table of the override is what the loop body leaves in
    the buffer handed out for that row, for any sound backend. *)
Lemma PLO_private_obs_rows_gen rules cpp_backend mem (bucketing : bool) :
  N_CARDS_IN_DECK rules = 52 → N_HOLE_CARDS rules = 4 →
  backend_cards_ok rules cpp_backend →
  ∃ rows,
    PLO.get_range_idx_to_private_obs_LUT rules cpp_backend mem bucketing = Some rows
    ∧ Z.of_nat (length rows) = 270725
    ∧ ∀ i hand, PLO.get_idx_2_hole_card_LUT !! i = Some hand →
        rows !! i
        = (if negb bucketing then PLO.private_obs_row else PLO.private_obs_row_bucketed)
            rules mem i (cpp_get_2d_card cpp_backend <$> hand).
Proof.
  intros HN Hk Hok. pose proof Hok as (_ & HR & HS & Hto & _).
  assert (0 < N_RANKS rules ∧ 0 < N_SUITS rules) as [HR' HS'].
  { destruct (Hto 0) as [[? ?] _]; lia. }
  unfold PLO.get_range_idx_to_private_obs_LUT, PLO.get_1d_card_2_2d_card_LUT.
  rewrite backend_card_table, bind_Some_eq by done.
  rewrite (PLO_range_size rules HN Hk), HN, Hk.
  destruct PLO_hands as [Hsize Hhands].
  set (hcs := PLO.get_idx_2_hole_card_LUT) in *. clearbody hcs.
  unfold np_empty2.
  rewrite bool_decide_eq_true_2 by lia. rewrite bind_Some_eq.
  rewrite mapM_mapM_np_get_fmap_range, bind_Some_eq.
  2:{ apply Forall_forall. intros hand Hh.
      by destruct (Hhands hand Hh) as (a & b & c & d & _ & Hb). }
  set (lut0 := (λ i : nat, junk_lut mem i
                  <$> seq 0 (Z.to_nat ((N_SUITS rules + N_RANKS rules) * 4)))
                 <$> seq 0 (Z.to_nat 270725)).
  set (d2 := (λ hand : list Z, cpp_get_2d_card cpp_backend <$> hand) <$> hcs).
  assert (length d2 = length lut0) as Hlen.
  { unfold d2, lut0. rewrite !length_fmap, length_seq. lia. }
  destruct (enumerate_rows
    ((if negb bucketing then PLO.private_obs_row else PLO.private_obs_row_bucketed)
       rules mem) d2 lut0) as (rows & Hrun & Hrows & Hlook).
  { lia. }
  { intros i el. unfold d2. rewrite list_lookup_fmap.
    destruct (hcs !! i) as [hand|] eqn:Hi; simpl; [|done]. intros [= <-].
    destruct (Hhands hand) as (a & b & c & d & -> & Hb);
      [by eapply list_elem_of_lookup_2|].
    destruct (PLO_private_obs_row_slots rules mem i bucketing
      (cpp_get_2d_card cpp_backend a) (cpp_get_2d_card cpp_backend b)
      (cpp_get_2d_card cpp_backend c) (cpp_get_2d_card cpp_backend d))
      as (row & Hrow & _); [done..| |by eexists].
    by apply (backend_hand_valid rules cpp_backend [a; b; c; d]). }
  rewrite drop_ge, app_nil_r in Hrun by lia.
  exists rows. split; [|split].
  - by destruct bucketing.
  - rewrite Hrows. unfold d2. rewrite length_fmap. lia.
  - intros i hand Hi. rewrite (Hlook i (cpp_get_2d_card cpp_backend <$> hand)); [done|].
    unfold d2. by rewrite list_lookup_fmap, Hi.
Qed.

(** X12. The override of the four-card getter with any sound backend, slot
    by slot and for any content of the uninitialised storage: in the row of
    a range index, slot j holds 1 when, for some position k of the hand, j is
    the rank slot D * k + rank of the card at k or, with bucketing off, its
    suit slot D * k + N_RANKS + suit; every other slot holds whatever the
    buffer from [np.empty] held there. The table junk of [np.empty] never
    shows, since every row is overwritten. *)
Theorem PLO_private_obs_slots (rules : Rules) (cpp_backend : CppLibHoldemLuts)
    (mem : Uninit) (preflop_suit_bucketing : bool) :
  N_CARDS_IN_DECK rules = 52 → N_HOLE_CARDS rules = 4 →
  backend_cards_ok rules cpp_backend →
  ∃ lut,
    PLO.get_range_idx_to_private_obs_LUT rules cpp_backend mem preflop_suit_bucketing
    = Some lut
    ∧ Z.of_nat (length lut) = RANGE_SIZE rules
    ∧ ∀ range_idx, 0 ≤ range_idx < RANGE_SIZE rules →
        ∃ hand priv_o,
          np_get PLO.get_idx_2_hole_card_LUT range_idx = Some hand
          ∧ np_get lut range_idx = Some priv_o
          ∧ Z.of_nat (length priv_o)
            = N_HOLE_CARDS rules * (N_SUITS rules + N_RANKS rules)
          ∧ ∀ j, 0 ≤ j < N_HOLE_CARDS rules * (N_SUITS rules + N_RANKS rules) →
              np_get priv_o j
              = Some (if bool_decide
                           (j ∈ one_hot_slots rules (negb preflop_suit_bucketing)
                                  (cpp_get_2d_card cpp_backend <$> hand))
                      then 1
                      else junk_priv_o mem (Z.to_nat range_idx) (Z.to_nat j)).
Proof.
  intros HN Hk Hok. pose proof Hok as (_ & HR & HS & Hto & _).
  assert (0 < N_RANKS rules ∧ 0 < N_SUITS rules) as [HR' HS'].
  { destruct (Hto 0) as [[? ?] _]; lia. }
  destruct (PLO_private_obs_rows_gen rules cpp_backend mem preflop_suit_bucketing
              HN Hk Hok) as (rows & Hrows & Hlen & Hlook).
  rewrite (PLO_range_size rules HN Hk), Hk.
  destruct PLO_hands as [Hsize Hhands].
  set (hcs := PLO.get_idx_2_hole_card_LUT) in *. clearbody hcs.
  exists rows. split; [done|]. split; [done|].
  intros range_idx Hidx.
  destruct (lookup_lt_is_Some_2 hcs (Z.to_nat range_idx)) as [hand Hhand]; [lia|].
  destruct (Hhands hand) as (a & b & c & d & -> & Hb);
    [by eapply list_elem_of_lookup_2|].
  destruct (PLO_private_obs_row_slots rules mem (Z.to_nat range_idx)
    preflop_suit_bucketing
    (cpp_get_2d_card cpp_backend a) (cpp_get_2d_card cpp_backend b)
    (cpp_get_2d_card cpp_backend c) (cpp_get_2d_card cpp_backend d))
    as (row & Hrow & Hrowlen & Hslots); [done..| |].
  { by apply (backend_hand_valid rules cpp_backend [a; b; c; d]). }
  exists [a; b; c; d], row.
  split; [by rewrite np_get_in by lia|].
  split; [rewrite np_get_in by lia; by rewrite (Hlook _ _ Hhand)|].
  split; [lia|].
  intros j Hj. rewrite np_get_in by lia. by apply Hslots.
Qed.

Lemma PLO_private_obs_slots_witness :
  ∃ lut,
    PLO.get_range_idx_to_private_obs_LUT plo_rules (rank_major_backend plo_rules)
      recycled_buffer false
    = Some lut
    ∧ Z.of_nat (length lut) = RANGE_SIZE plo_rules
    ∧ ∀ range_idx, 0 ≤ range_idx < RANGE_SIZE plo_rules →
        ∃ hand priv_o,
          np_get PLO.get_idx_2_hole_card_LUT range_idx = Some hand
          ∧ np_get lut range_idx = Some priv_o
          ∧ Z.of_nat (length priv_o)
            = N_HOLE_CARDS plo_rules * (N_SUITS plo_rules + N_RANKS plo_rules)
          ∧ ∀ j, 0 ≤ j < N_HOLE_CARDS plo_rules * (N_SUITS plo_rules + N_RANKS plo_rules) →
              np_get priv_o j
              = Some (if bool_decide
                           (j ∈ one_hot_slots plo_rules (negb false)
                                  (cpp_get_2d_card (rank_major_backend plo_rules) <$> hand))
                      then 1
                      else junk_priv_o recycled_buffer (Z.to_nat range_idx) (Z.to_nat j)).
Proof.
  apply (PLO_private_obs_slots plo_rules (rank_major_backend plo_rules)
           recycled_buffer false).
  - reflexivity.
  - reflexivity.
  - apply rank_major_backend_ok. unfold deck_ok. simpl. lia.
Defined.

Lemma PLO_obs_tables_ok rules cpp_backend :
  N_CARDS_IN_DECK rules = 52 → N_HOLE_CARDS rules = 4 →
  backend_cards_ok rules cpp_backend →
  obs_tables_ok rules PLO.get_idx_2_hole_card_LUT
    (cpp_get_2d_card cpp_backend <$> range 0 (N_CARDS_IN_DECK rules)).
Proof.
  intros HN Hk Hok. pose proof Hok as (_ & HR & HS & Hto & _).
  assert (0 < N_RANKS rules ∧ 0 < N_SUITS rules) as [HR' HS'].
  { destruct (Hto 0) as [[? ?] _]; lia. }
  destruct PLO_hands as [Hsize Hhands].
  set (hcs := PLO.get_idx_2_hole_card_LUT) in *. clearbody hcs.
  split; [done|]. split; [done|]. split; [lia|]. split; [|split].
  - by rewrite (PLO_range_size rules HN Hk).
  - apply Forall_forall. intros hand Hh.
    destruct (Hhands hand Hh) as (a & b & c & d & -> & Hb).
    split; [by rewrite Hk|].
    rewrite length_fmap, length_range, HN. exact Hb.
  - apply Forall_fmap, Forall_forall. intros c Hc%elem_of_range.
    unfold compose. by apply Hto.
Qed.

Lemma cards_of_hand_backend rules cpp_backend (hand : list Z) :
  Forall (λ c, 0 ≤ c < N_CARDS_IN_DECK rules) hand →
  cards_of_hand (cpp_get_2d_card cpp_backend <$> range 0 (N_CARDS_IN_DECK rules)) hand
  = cpp_get_2d_card cpp_backend <$> hand.
Proof.
  intros Hb. unfold cards_of_hand. apply Forall_fmap_ext_1.
  eapply Forall_impl; [exact Hb|]. intros c Hc. cbv beta in Hc.
  rewrite list_lookup_fmap, lookup_range by lia. simpl.
  by rewrite Z.add_0_l, Z2Nat.id by lia.
Qed.

(** X13. With a sound backend and rules where suits matter, the override
    of the four-card getter returns exactly the table of the base getter on
    the same two tables, with and without bucketing, whenever every buffer
    that [np.empty] hands out for a row happens to be zeroed. *)
Theorem PLO_private_obs_zeroed_memory (rules : Rules) (cpp_backend : CppLibHoldemLuts)
    (mem : Uninit) (preflop_suit_bucketing : bool) :
  N_CARDS_IN_DECK rules = 52 → N_HOLE_CARDS rules = 4 → SUITS_MATTER rules = true →
  backend_cards_ok rules cpp_backend →
  (∀ range_idx j, junk_priv_o mem range_idx j = 0) →
  ∃ hc_1d_to_2d_lut lut,
    PLO.get_1d_card_2_2d_card_LUT rules cpp_backend = Some hc_1d_to_2d_lut
    ∧ PLO.get_range_idx_to_private_obs_LUT rules cpp_backend mem preflop_suit_bucketing
      = Some lut
    ∧ get_range_idx_to_private_obs_LUT rules PLO.get_idx_2_hole_card_LUT hc_1d_to_2d_lut
        preflop_suit_bucketing
      = Some lut.
Proof.
  intros HN Hk Hsuits Hok Hzero. pose proof Hok as (_ & HR & HS & Hto & _).
  assert (0 < N_RANKS rules ∧ 0 < N_SUITS rules) as [HR' HS'].
  { destruct (Hto 0) as [[? ?] _]; lia. }
  destruct (PLO_private_obs_rows_gen rules cpp_backend mem preflop_suit_bucketing
              HN Hk Hok) as (rows & Hrows & Hlen & Hlook).
  pose proof (base_private_obs_table rules _ _ preflop_suit_bucketing
                (PLO_obs_tables_ok rules cpp_backend HN Hk Hok)) as Hbase.
  rewrite Hsuits in Hbase. cbn [andb] in Hbase.
  exists (cpp_get_2d_card cpp_backend <$> range 0 (N_CARDS_IN_DECK rules)), rows.
  split; [by apply backend_card_table|]. split; [done|].
  rewrite Hbase. f_equal. symmetry.
  destruct PLO_hands as [Hsize Hhands].
  set (hcs := PLO.get_idx_2_hole_card_LUT) in *. clearbody hcs.
  apply list_eq. intros i. rewrite list_lookup_fmap.
  destruct (hcs !! i) as [hand|] eqn:Hhand; simpl.
  2:{ apply lookup_ge_None_2. apply lookup_ge_None_1 in Hhand. lia. }
  destruct (Hhands hand) as (a & b & c & d & -> & Hb);
    [by eapply list_elem_of_lookup_2|].
  pose proof (backend_hand_valid rules cpp_backend [a; b; c; d] Hok HN Hb) as Hvalid.
  destruct (PLO_private_obs_row_slots rules mem i preflop_suit_bucketing
    (cpp_get_2d_card cpp_backend a) (cpp_get_2d_card cpp_backend b)
    (cpp_get_2d_card cpp_backend c) (cpp_get_2d_card cpp_backend d))
    as (row & Hrow & Hrowlen & Hslots); [done..|].
  rewrite (Hlook _ _ Hhand). change (cpp_get_2d_card cpp_backend <$> [a; b; c; d])
    with [cpp_get_2d_card cpp_backend a; cpp_get_2d_card cpp_backend b;
          cpp_get_2d_card cpp_backend c; cpp_get_2d_card cpp_backend d].
  rewrite Hrow. f_equal.
  rewrite cards_of_hand_backend by (by rewrite HN).
  set (cards := cpp_get_2d_card cpp_backend <$> [a; b; c; d]) in *.
  assert (length cards = 4%nat) as Hcl by done.
  apply list_eq. intros n.
  destruct (decide (n < Z.to_nat (4 * (N_SUITS rules + N_RANKS rules)))%nat) as [Hn|Hn].
  - rewrite <- (Nat2Z.id n).
    rewrite Hslots, lookup_one_hot_hand by (rewrite ?Hcl; done || lia).
    rewrite Hzero. done.
  - rewrite !lookup_ge_None_2; [done| |lia].
    rewrite length_one_hot_hand, Hcl. lia.
Qed.

Lemma PLO_private_obs_zeroed_memory_witness :
  ∃ hc_1d_to_2d_lut lut,
    PLO.get_1d_card_2_2d_card_LUT plo_rules (rank_major_backend plo_rules)
    = Some hc_1d_to_2d_lut
    ∧ PLO.get_range_idx_to_private_obs_LUT plo_rules (rank_major_backend plo_rules)
        (mk_uninit (λ _ _, 7) (λ _ _, 0)) true
      = Some lut
    ∧ get_range_idx_to_private_obs_LUT plo_rules PLO.get_idx_2_hole_card_LUT
        hc_1d_to_2d_lut true
      = Some lut.
Proof.
  apply (PLO_private_obs_zeroed_memory plo_rules (rank_major_backend plo_rules)
           (mk_uninit (λ _ _, 7) (λ _ _, 0)) true).
  - reflexivity.
  - reflexivity.
  - reflexivity.
  - apply rank_major_backend_ok. unfold deck_ok. simpl. lia.
  - intros range_idx j. reflexivity.
Defined.

(** ** Hole cards and range indices in the multi-card holders *)

Lemma py_sort_sorted (h : list Z) : StronglySorted Z.lt h → py_sort h = h.
Proof.
  intros Hs. unfold py_sort. apply (StronglySorted_unique Z.le).
  - apply StronglySorted_merge_sort; apply _.
  - clear -Hs. induction Hs as [|x l _ IH Hx]; constructor; [done|].
    eapply Forall_impl; [exact Hx|]. intros y Hy. cbv beta in Hy. lia.
  - apply merge_sort_Permutation.
Qed.

Lemma holder_of_tables_inverse rules cpp_backend idx2hc hc2idx :
  backend_cards_ok rules cpp_backend →
  card_tables_inverse rules
    (holder_of_tables (Holdem.get_1d_card_2_2d_card_LUT rules cpp_backend)
       (Holdem.get_2d_card_2_1d_card_LUT rules cpp_backend) idx2hc hc2idx).
Proof.
  intros Hok. pose proof Hok as (HN & HR & HS & Hto & Hfrom).
  destruct (backend_tables rules cpp_backend _ _ Hok
              (Holdem_1d_2_2d_table rules cpp_backend (proj1 HN))
              (Holdem_2d_2_1d_table rules cpp_backend (proj1 HR) (proj1 HS)))
    as (_ & _ & _ & Hget1 & Hget2).
  unfold card_tables_inverse, holder_of_tables.
  cbn [LUT_1DCARD_2_2DCARD LUT_2DCARD_2_1DCARD].
  rewrite Holdem_1d_2_2d_table, Holdem_2d_2_1d_table by lia.
  cbn [default]. split.
  - intros c Hc. destruct (Hto c Hc) as [Hcard Hback].
    exists (cpp_get_2d_card cpp_backend c).
    split; [by apply Hget1|]. split; [done|]. by rewrite Hget2, Hback.
  - intros card Hcard. destruct (Hfrom card Hcard) as [Hc Hback].
    exists (cpp_get_1d_card cpp_backend card).
    split; [by apply Hget2|]. split; [done|]. by rewrite Hget1, Hback.
Qed.

Lemma hand_cards {HC2IDX} rules (self : LutHolder HC2IDX) (h : list Z) :
  card_tables_inverse rules self →
  Forall (λ c, 0 ≤ c < N_CARDS_IN_DECK rules) h →
  ∃ cards, mapM (np_get (LUT_1DCARD_2_2DCARD self)) h = Some cards
    ∧ mapM (λ c : Z * Z, np_get2 (LUT_2DCARD_2_1DCARD self) c.1 c.2) cards = Some h.
Proof.
  intros [Hto _]. induction 1 as [|c h Hc _ (cards & Hcards & Hback)].
  - by exists [].
  - destruct (Hto c Hc) as (card & Hcard & _ & Hc').
    exists (card :: cards). simpl. rewrite Hcard, Hc'. simpl.
    by rewrite Hcards, Hback.
Qed.

(** X14. The two-card holder, on any holder whose card tables are inverse
    to each other and whose hole-card tables are the two directions of a
    bijection: a range index is mapped to the two 2D cards of its hand, and
    these cards, in either order, are mapped back to the range index. *)
Theorem Holdem_hole_cards_round_trip (rules : Rules) (range_size : Z)
    (self : LutHolder ndarray) (range_idx : Z) :
  card_tables_inverse rules self →
  hole_card_bijection range_size (N_CARDS_IN_DECK rules) 2
    (np_get (LUT_IDX_2_HOLE_CARDS self)) (nd_get (LUT_HOLE_CARDS_2_IDX self)) →
  0 ≤ range_idx < range_size →
  ∃ hc_1d hc_2d,
    get_1d_hole_cards_from_range_idx self range_idx = Some hc_1d
    ∧ Holdem_get_2d_hole_cards_from_range_idx self range_idx = Some hc_2d
    ∧ mapM (np_get (LUT_1DCARD_2_2DCARD self)) hc_1d = Some hc_2d
    ∧ ∀ hc', hc' ≡ₚ hc_2d →
        Holdem_get_range_idx_from_hole_cards self hc' = Some range_idx.
Proof.
  intros Hinv (Hfwd & _ & _) Hidx.
  destruct (Hfwd range_idx Hidx) as (h & Hget & (Hl & Hsorted & Hb) & Hback).
  destruct h as [|c1 [|c2 [|]]]; try done.
  destruct (hand_cards rules self [c1; c2] Hinv Hb) as (cards & Hcards & Hids).
  pose proof (length_mapM _ _ _ Hcards) as Hlen.
  destruct cards as [|card1 [|card2 [|]]]; try done.
  assert (c1 < c2) as Hlt.
  { apply StronglySorted_inv in Hsorted as [_ Hlt].
    by apply Forall_cons in Hlt as [Hlt _]. }
  simpl in Hcards, Hids.
  destruct (np_get (LUT_1DCARD_2_2DCARD self) c1) as [card1'|] eqn:H1; [|done].
  destruct (np_get (LUT_1DCARD_2_2DCARD self) c2) as [card2'|] eqn:H2; [|done].
  simpl in Hcards. injection Hcards as -> ->.
  destruct (np_get2 (LUT_2DCARD_2_1DCARD self) card1.1 card1.2) as [c1'|] eqn:H1'; [|done].
  destruct (np_get2 (LUT_2DCARD_2_1DCARD self) card2.1 card2.2) as [c2'|] eqn:H2'; [|done].
  simpl in Hids. injection Hids as -> ->.
  exists [c1; c2], [card1; card2].
  split; [done|]. split; [|split].
  - unfold Holdem_get_2d_hole_cards_from_range_idx, np_get2.
    rewrite Hget, !bind_Some_eq. rewrite !np_get_in by (simpl; lia).
    simpl. by rewrite H1, H2.
  - simpl. by rewrite H1, H2.
  - intros hc' Hp. pose proof (Permutation_length Hp) as Hlen'.
    destruct hc' as [|a [|b [|]]]; try done.
    unfold Holdem_get_range_idx_from_hole_cards.
    rewrite !np_get_in by (simpl; lia). simpl.
    apply Permutation_length_2 in Hp as [[-> ->]|[-> ->]].
    + rewrite H1', H2'. simpl. by rewrite Z.min_l, Z.max_r by lia.
    + rewrite H1', H2'. simpl. by rewrite Z.min_r, Z.max_l by lia.
Qed.

Lemma Holdem_hole_cards_round_trip_witness :
  ∃ hc_1d hc_2d,
    get_1d_hole_cards_from_range_idx
      (holder_of_tables
         (Holdem.get_1d_card_2_2d_card_LUT four_card_holdem_rules
            (rank_major_backend four_card_holdem_rules))
         (Holdem.get_2d_card_2_1d_card_LUT four_card_holdem_rules
            (rank_major_backend four_card_holdem_rules))
         (Holdem.spec_idx_2_hole_card_lut (N_CARDS_IN_DECK four_card_holdem_rules))
         (Holdem.spec_hole_card_2_idx_lut (N_CARDS_IN_DECK four_card_holdem_rules)))
      4 = Some hc_1d
    ∧ Holdem_get_2d_hole_cards_from_range_idx
        (holder_of_tables
           (Holdem.get_1d_card_2_2d_card_LUT four_card_holdem_rules
              (rank_major_backend four_card_holdem_rules))
           (Holdem.get_2d_card_2_1d_card_LUT four_card_holdem_rules
              (rank_major_backend four_card_holdem_rules))
           (Holdem.spec_idx_2_hole_card_lut (N_CARDS_IN_DECK four_card_holdem_rules))
           (Holdem.spec_hole_card_2_idx_lut (N_CARDS_IN_DECK four_card_holdem_rules)))
        4 = Some hc_2d
    ∧ mapM (np_get (LUT_1DCARD_2_2DCARD
          (holder_of_tables
             (Holdem.get_1d_card_2_2d_card_LUT four_card_holdem_rules
                (rank_major_backend four_card_holdem_rules))
             (Holdem.get_2d_card_2_1d_card_LUT four_card_holdem_rules
                (rank_major_backend four_card_holdem_rules))
             (Holdem.spec_idx_2_hole_card_lut (N_CARDS_IN_DECK four_card_holdem_rules))
             (Holdem.spec_hole_card_2_idx_lut (N_CARDS_IN_DECK four_card_holdem_rules)))))
        hc_1d = Some hc_2d
    ∧ ∀ hc', hc' ≡ₚ hc_2d →
        Holdem_get_range_idx_from_hole_cards
          (holder_of_tables
             (Holdem.get_1d_card_2_2d_card_LUT four_card_holdem_rules
                (rank_major_backend four_card_holdem_rules))
             (Holdem.get_2d_card_2_1d_card_LUT four_card_holdem_rules
                (rank_major_backend four_card_holdem_rules))
             (Holdem.spec_idx_2_hole_card_lut (N_CARDS_IN_DECK four_card_holdem_rules))
             (Holdem.spec_hole_card_2_idx_lut (N_CARDS_IN_DECK four_card_holdem_rules)))
          hc' = Some 4.
Proof.
  apply (Holdem_hole_cards_round_trip four_card_holdem_rules
           (RANGE_SIZE four_card_holdem_rules)).
  - apply holder_of_tables_inverse, rank_major_backend_ok. unfold deck_ok. simpl. lia.
  - destruct (Holdem_spec_hole_card_bijection four_card_holdem_rules)
      as (lut & Hlut & Hbij); [simpl; lia|reflexivity|].
    unfold holder_of_tables. cbn [LUT_IDX_2_HOLE_CARDS LUT_HOLE_CARDS_2_IDX].
    rewrite Hlut. exact Hbij.
  - vm_compute. split; [discriminate|reflexivity].
Defined.

(** X15. The four-card holder, on any holder whose card tables are inverse
    to each other and whose hole-card tables are the two directions of a
    bijection: a range index is mapped to the four 2D cards of its hand, and
    these cards, in any order, are mapped back to the range index. *)
Theorem PLO_hole_cards_round_trip (rules : Rules) (range_size : Z)
    (self : LutHolder ndarray) (range_idx : Z) :
  card_tables_inverse rules self →
  hole_card_bijection range_size (N_CARDS_IN_DECK rules) 4
    (np_get (LUT_IDX_2_HOLE_CARDS self)) (nd_get (LUT_HOLE_CARDS_2_IDX self)) →
  0 ≤ range_idx < range_size →
  ∃ hc_1d hc_2d,
    get_1d_hole_cards_from_range_idx self range_idx = Some hc_1d
    ∧ PLO_get_2d_hole_cards_from_range_idx self range_idx = Some hc_2d
    ∧ mapM (np_get (LUT_1DCARD_2_2DCARD self)) hc_1d = Some hc_2d
    ∧ ∀ hc', hc' ≡ₚ hc_2d →
        PLO_get_range_idx_from_hole_cards self hc' = Some range_idx.
Proof.
  intros Hinv (Hfwd & _ & _) Hidx.
  destruct (Hfwd range_idx Hidx) as (h & Hget & (Hl & Hsorted & Hb) & Hback).
  destruct (hand_cards rules self h Hinv Hb) as (cards & Hcards & Hids).
  exists h, cards. split; [done|]. split; [|split; [done|]].
  - destruct h as [|c1 [|c2 [|c3 [|c4 [|]]]]]; try done.
    unfold PLO_get_2d_hole_cards_from_range_idx, np_get2.
    rewrite Hget, !bind_Some_eq. rewrite !np_get_in by (simpl; lia).
    simpl. simpl in Hcards.
    destruct (np_get (LUT_1DCARD_2_2DCARD self) c1) as [card1|]; [|done].
    destruct (np_get (LUT_1DCARD_2_2DCARD self) c2) as [card2|]; [|done].
    destruct (np_get (LUT_1DCARD_2_2DCARD self) c3) as [card3|]; [|done].
    destruct (np_get (LUT_1DCARD_2_2DCARD self) c4) as [card4|]; [|done].
    done.
  - intros hc' Hp. unfold PLO_get_range_idx_from_hole_cards.
    pose proof (mapM_Permutation
      (λ c : Z * Z, np_get2 (LUT_2DCARD_2_1DCARD self) c.1 c.2) hc' cards Hp) as Hm.
    rewrite Hids in Hm.
    destruct (mapM _ hc') as [l|]; [|done]. rewrite bind_Some_eq.
    rewrite (py_sort_Permutation l h Hm), (py_sort_sorted h Hsorted).
    destruct h as [|c1 [|c2 [|c3 [|c4 [|]]]]]; try discriminate Hl.
    rewrite !np_get_in by (simpl; lia). simpl. exact Hback.
Qed.

Lemma PLO_hole_cards_round_trip_witness :
  ∃ hc_1d hc_2d,
    get_1d_hole_cards_from_range_idx
      (holder_of_tables
         (Holdem.get_1d_card_2_2d_card_LUT plo_rules (rank_major_backend plo_rules))
         (Holdem.get_2d_card_2_1d_card_LUT plo_rules (rank_major_backend plo_rules))
         PLO.get_idx_2_hole_card_LUT (PLO.get_hole_card_2_idx_LUT plo_rules))
      1 = Some hc_1d
    ∧ PLO_get_2d_hole_cards_from_range_idx
        (holder_of_tables
           (Holdem.get_1d_card_2_2d_card_LUT plo_rules (rank_major_backend plo_rules))
           (Holdem.get_2d_card_2_1d_card_LUT plo_rules (rank_major_backend plo_rules))
           PLO.get_idx_2_hole_card_LUT (PLO.get_hole_card_2_idx_LUT plo_rules))
        1 = Some hc_2d
    ∧ mapM (np_get (LUT_1DCARD_2_2DCARD
          (holder_of_tables
             (Holdem.get_1d_card_2_2d_card_LUT plo_rules (rank_major_backend plo_rules))
             (Holdem.get_2d_card_2_1d_card_LUT plo_rules (rank_major_backend plo_rules))
             PLO.get_idx_2_hole_card_LUT (PLO.get_hole_card_2_idx_LUT plo_rules))))
        hc_1d = Some hc_2d
    ∧ ∀ hc', hc' ≡ₚ hc_2d →
        PLO_get_range_idx_from_hole_cards
          (holder_of_tables
             (Holdem.get_1d_card_2_2d_card_LUT plo_rules (rank_major_backend plo_rules))
             (Holdem.get_2d_card_2_1d_card_LUT plo_rules (rank_major_backend plo_rules))
             PLO.get_idx_2_hole_card_LUT (PLO.get_hole_card_2_idx_LUT plo_rules))
          hc' = Some 1.
Proof.
  apply (PLO_hole_cards_round_trip plo_rules (RANGE_SIZE plo_rules)).
  - apply holder_of_tables_inverse, rank_major_backend_ok. unfold deck_ok. simpl. lia.
  - destruct (PLO_hole_card_bijection plo_rules) as (lut & Hlut & Hbij);
      [reflexivity|reflexivity|].
    unfold holder_of_tables. cbn [LUT_IDX_2_HOLE_CARDS LUT_HOLE_CARDS_2_IDX].
    rewrite Hlut. exact Hbij.
  - split; [lia|]. rewrite (PLO_range_size plo_rules eq_refl eq_refl). lia.
Defined.

(** ** Building the four-card holder *)

Lemma backend_tables_inverse {HC2IDX} rules cpp_backend (self : LutHolder HC2IDX) :
  backend_cards_ok rules cpp_backend →
  Holdem.get_1d_card_2_2d_card_LUT rules cpp_backend = Some (LUT_1DCARD_2_2DCARD self) →
  Holdem.get_2d_card_2_1d_card_LUT rules cpp_backend = Some (LUT_2DCARD_2_1DCARD self) →
  card_tables_inverse rules self.
Proof.
  intros Hok H1 H2. pose proof Hok as (HN & HR & HS & Hto & Hfrom).
  destruct (backend_tables rules cpp_backend _ _ Hok H1 H2)
    as (_ & _ & _ & Hget1 & Hget2).
  split.
  - intros c Hc. destruct (Hto c Hc) as [Hcard Hback].
    exists (cpp_get_2d_card cpp_backend c).
    split; [by apply Hget1|]. split; [done|]. by rewrite Hget2, Hback.
  - intros card Hcard. destruct (Hfrom card Hcard) as [Hc Hback].
    exists (cpp_get_1d_card cpp_backend card).
    split; [by apply Hget2|]. split; [done|]. by rewrite Hget1, Hback.
Qed.

Lemma mapM_None {A B} (f : A → option B) (l : list A) x :
  x ∈ l → f x = None → mapM f l = None.
Proof.
  intros Hx Hf. induction l as [|y l IH]; [by apply elem_of_nil in Hx|].
  simpl. apply elem_of_cons in Hx as [->|Hx].
  - by rewrite Hf.
  - destruct (f y); [|done]. simpl. by rewrite IH.
Qed.

Lemma PLO_private_obs_small_deck rules cpp_backend mem (bucketing : bool) :
  0 ≤ N_CARDS_IN_DECK rules < 52 →
  PLO.get_range_idx_to_private_obs_LUT rules cpp_backend mem bucketing = None.
Proof.
  intros HN.
  assert ([0; 1; 2; 51] ∈ PLO.get_idx_2_hole_card_LUT) as Hhand.
  { unfold PLO.get_idx_2_hole_card_LUT. apply elem_of_combinations_range.
    split; [done|]. split.
    - repeat (constructor; [|repeat (constructor; [lia|])]); constructor.
    - repeat (constructor; [lia|]). constructor. }
  unfold PLO.get_range_idx_to_private_obs_LUT, PLO.get_1d_card_2_2d_card_LUT.
  set (hcs := PLO.get_idx_2_hole_card_LUT) in *. clearbody hcs.
  rewrite Holdem_1d_2_2d_table, bind_Some_eq by lia.
  destruct (np_empty2 _ _ _) as [lut|]; [|done]. rewrite bind_Some_eq.
  rewrite (mapM_None _ hcs [0; 1; 2; 51]); [done|done|].
  apply (mapM_None _ _ 51); [do 3 right; left|].
  unfold np_get, np_norm. rewrite length_fmap, length_range.
  rewrite !bool_decide_eq_false_2 by lia. done.
Qed.

Lemma holder_init_needs_private_obs {HC2IDX} (lut_getter : LutGetter HC2IDX) :
  getter_range_idx_to_private_obs_LUT lut_getter false = None →
  _LutHolderBase_init lut_getter = None.
Proof.
  intros Hnone. unfold _LutHolderBase_init.
  destruct (getter_1d_card_2_2d_card_LUT lut_getter); [|done].
  destruct (getter_2d_card_2_1d_card_LUT lut_getter); [|done].
  rewrite !bind_Some_eq. by rewrite Hnone.
Qed.

Lemma holder_init_needs_membership {HC2IDX} (lut_getter : LutGetter HC2IDX) :
  getter_card_in_what_range_idxs_LUT lut_getter = None →
  _LutHolderBase_init lut_getter = None.
Proof.
  intros Hnone. unfold _LutHolderBase_init.
  destruct (getter_1d_card_2_2d_card_LUT lut_getter); [|done].
  destruct (getter_2d_card_2_1d_card_LUT lut_getter); [|done].
  destruct (getter_range_idx_to_private_obs_LUT lut_getter false); [|done].
  destruct (getter_range_idx_to_private_obs_LUT lut_getter true); [|done].
  destruct (getter_idx_2_hole_card_LUT lut_getter); [|done].
  destruct (getter_hole_card_2_idx_LUT lut_getter); [|done].
  rewrite !bind_Some_eq. by rewrite Hnone.
Qed.

(** X16. The four-card holder is built for a game of four hole cards out of
    a 52-card deck, with any sound backend and whatever the uninitialised
    storage holds, as long as every later round has a predecessor. Its card
    tables are inverse to each other, its hole-card tables are the two
    directions of a bijection between the RANGE_SIZE range indices and the
    ascending four-card hands, its card-membership table lists for every
    card the hands holding it, and its two private-observation tables have
    one row per range index. *)
Theorem LutHolderPLO_built (rules : Rules) (cpp_backend : CppLibHoldemLuts)
    (mem : Uninit) :
  N_CARDS_IN_DECK rules = 52 → N_HOLE_CARDS rules = 4 →
  backend_cards_ok rules cpp_backend →
  (∀ r, r ∈ ALL_ROUNDS_LIST rules → r ≠ PREFLOP → is_Some (ROUND_BEFORE rules !! r)) →
  ∃ self,
    LutHolderPLO rules cpp_backend mem = Some self
    ∧ card_tables_inverse rules self
    ∧ hole_card_bijection (RANGE_SIZE rules) (N_CARDS_IN_DECK rules) 4
        (np_get (LUT_IDX_2_HOLE_CARDS self)) (nd_get (LUT_HOLE_CARDS_2_IDX self))
    ∧ card_membership (N_CARDS_IN_DECK rules) (N_HOLE_CARDS rules)
        (LUT_IDX_2_HOLE_CARDS self) (LUT_CARD_IN_WHAT_RANGE_IDXS self)
    ∧ Z.of_nat (length (LUT_RANGE_IDX_TO_PRIVATE_OBS self)) = RANGE_SIZE rules
    ∧ Z.of_nat (length (LUT_RANGE_IDX_TO_PRIVATE_OBS_PF self)) = RANGE_SIZE rules
    ∧ DICT_LUT_N_CARDS_OUT self = get_n_cards_out_at_LUT rules
    ∧ DICT_LUT_CARDS_DEALT_IN_TRANSITION_TO self
      = get_n_cards_dealt_in_transition_to_LUT rules.
Proof.
  intros HN Hk Hok Hbefore. pose proof Hok as (HN' & HR & HS & _).
  destruct (PLO_private_obs_rows_gen rules cpp_backend mem false HN Hk Hok)
    as (t3 & Ht3 & Hl3 & _).
  destruct (PLO_private_obs_rows_gen rules cpp_backend mem true HN Hk Hok)
    as (t4 & Ht4 & Hl4 & _).
  destruct (PLO_hole_card_bijection rules HN Hk) as (t6 & Ht6 & Hbij).
  destruct (PLO_card_in_what_range_idxs rules HN) as [Ht7 Hcount].
  destruct (n_boards_LUT_entries rules) as (t8 & Ht8 & _).
  destruct (n_board_branches_total rules Hbefore) as (t11 & Ht11).
  assert (comb (52 - 1) (4 - 1) = 20825) as Hc by (vm_compute; reflexivity).
  pose proof (membership_table 52 4 PLO.get_idx_2_hole_card_LUT) as Hmem.
  rewrite <- (PLO_range_size rules HN Hk) in Hl3, Hl4.
  eexists. split.
  { unfold LutHolderPLO, _LutHolderBase_init, _LutGetterPLO,
      PLO.get_1d_card_2_2d_card_LUT, PLO.get_2d_card_2_1d_card_LUT.
    cbn [getter_rules getter_1d_card_2_2d_card_LUT getter_2d_card_2_1d_card_LUT
         getter_range_idx_to_private_obs_LUT getter_idx_2_hole_card_LUT
         getter_hole_card_2_idx_LUT getter_card_in_what_range_idxs_LUT].
    rewrite Holdem_1d_2_2d_table, Holdem_2d_2_1d_table by lia.
    rewrite Ht3, Ht4, Ht6, Ht7, Ht8, Ht11. rewrite !bind_Some_eq. reflexivity. }
  cbn [LUT_IDX_2_HOLE_CARDS LUT_HOLE_CARDS_2_IDX LUT_CARD_IN_WHAT_RANGE_IDXS
       LUT_RANGE_IDX_TO_PRIVATE_OBS LUT_RANGE_IDX_TO_PRIVATE_OBS_PF
       DICT_LUT_N_CARDS_OUT DICT_LUT_CARDS_DEALT_IN_TRANSITION_TO].
  split.
  { apply (backend_tables_inverse rules cpp_backend).
    - done.
    - cbn [LUT_1DCARD_2_2DCARD]. apply Holdem_1d_2_2d_table. lia.
    - cbn [LUT_2DCARD_2_1DCARD]. apply Holdem_2d_2_1d_table; lia. }
  split; [exact Hbij|].
  split.
  { rewrite HN, Hk. apply Hmem; [lia|]. intros c Hc'. rewrite Hc. by apply Hcount. }
  split; [exact Hl3|]. split; [exact Hl4|]. split; reflexivity.
Qed.

Lemma LutHolderPLO_built_witness :
  ∃ self,
    LutHolderPLO plo_rules (rank_major_backend plo_rules) recycled_buffer = Some self
    ∧ card_tables_inverse plo_rules self
    ∧ hole_card_bijection (RANGE_SIZE plo_rules) (N_CARDS_IN_DECK plo_rules) 4
        (np_get (LUT_IDX_2_HOLE_CARDS self)) (nd_get (LUT_HOLE_CARDS_2_IDX self))
    ∧ card_membership (N_CARDS_IN_DECK plo_rules) (N_HOLE_CARDS plo_rules)
        (LUT_IDX_2_HOLE_CARDS self) (LUT_CARD_IN_WHAT_RANGE_IDXS self)
    ∧ Z.of_nat (length (LUT_RANGE_IDX_TO_PRIVATE_OBS self)) = RANGE_SIZE plo_rules
    ∧ Z.of_nat (length (LUT_RANGE_IDX_TO_PRIVATE_OBS_PF self)) = RANGE_SIZE plo_rules
    ∧ DICT_LUT_N_CARDS_OUT self = get_n_cards_out_at_LUT plo_rules
    ∧ DICT_LUT_CARDS_DEALT_IN_TRANSITION_TO self
      = get_n_cards_dealt_in_transition_to_LUT plo_rules.
Proof.
  apply (LutHolderPLO_built plo_rules (rank_major_backend plo_rules) recycled_buffer).
  - reflexivity.
  - reflexivity.
  - apply rank_major_backend_ok. unfold deck_ok. simpl. lia.
  - intros r _ _. destruct r; vm_compute; eauto.
Defined.

(** X17. The four-card holder cannot be built for a deck of any other size
    than 52, whatever the backend: with fewer cards the hand table of the
    fixed 52-card deck names cards that are not in the card table (an
    IndexError while the private observations are built), with more cards
    or a negative size the card-membership table cannot be built. *)
Theorem LutHolderPLO_needs_52_cards (rules : Rules) (cpp_backend : CppLibHoldemLuts)
    (mem : Uninit) :
  N_CARDS_IN_DECK rules ≠ 52 → LutHolderPLO rules cpp_backend mem = None.
Proof.
  intros HN. unfold LutHolderPLO.
  destruct (decide (0 ≤ N_CARDS_IN_DECK rules < 52)) as [Hsmall|Hout].
  - apply holder_init_needs_private_obs. unfold _LutGetterPLO.
    cbn [getter_range_idx_to_private_obs_LUT].
    by apply PLO_private_obs_small_deck.
  - apply holder_init_needs_membership. unfold _LutGetterPLO.
    cbn [getter_card_in_what_range_idxs_LUT].
    apply PLO_card_in_what_range_idxs_outside. lia.
Qed.

Lemma LutHolderPLO_needs_52_cards_witness :
  LutHolderPLO six_card_plo_rules (rank_major_backend six_card_plo_rules) recycled_buffer
  = None.
Proof.
  apply (LutHolderPLO_needs_52_cards six_card_plo_rules
           (rank_major_backend six_card_plo_rules) recycled_buffer).
  simpl. lia.
Defined.
